(** * Kaleidoscope front end: lexer and recursive-descent parser

    A shallow embedding of [lexer.h] (the tokenizer [GetToken]) and of
    [ast.h] / [parser.h] (the AST classes and the parse functions), followed
    by the properties of the front end that are established on it.

    Conventions of the embedding:
    - every C++ [int] (characters returned by [getchar], token codes,
      precedences) is a [Z]; the only arithmetic of the program on them is
      [tok_prec + 1];
    - the process-wide variables ([last_char], [IDENTIFIER_STR], [NUM_VAL],
      [cur_token], [BinopPrecedence]) together with the unread part of the
      standard input and the text written to [stderr] form one record
      [state], threaded through every function;
    - a [std::unique_ptr] that may be null is an [option];
    - [std::map<char,int>] is a [gmap Z Z] keyed by the character code;
    - [double] is the binary64 format of [SpecFloat];
    - the exceptions [std::stod] may throw are a third outcome next to
      normal return;
    - recursion and loops of the parser are bounded by a fuel argument, and
      the fuel that is always enough is computed from the state. *)

From Stdlib Require Import ZArith String Ascii List Bool Lia.
From Stdlib Require Import SpecFloat.
From stdpp Require Import base option gmap.

Import ListNotations.
Set Warnings "-register-all".
Local Open Scope string_scope.
Local Open Scope Z_scope.

(** ** Characters and the C library *)

(** End-of-file indicator of [<cstdio>]. *)
Definition EOF : Z := -1.

(** The value [getchar] returns for a byte: its code as an [unsigned char]. *)
Definition int_of_char (c : ascii) : Z := Z.of_N (N_of_ascii c).

(** Conversion of an [int] to [char], as in [IDENTIFIER_STR += last_char]. *)
Definition char_of_int (c : Z) : ascii := ascii_of_N (Z.to_N (c mod 256)).

(** Classification functions of [<cctype>] in the "C" locale (the program
    never calls [setlocale]).  All of them are false on [EOF]. *)
Definition isdigit (c : Z) : bool := (48 <=? c) && (c <=? 57).
Definition isalpha (c : Z) : bool :=
  ((65 <=? c) && (c <=? 90)) || ((97 <=? c) && (c <=? 122)).
Definition isalnum (c : Z) : bool := isalpha c || isdigit c.
Definition isspace (c : Z) : bool := (c =? 32) || ((9 <=? c) && (c <=? 13)).
Definition isascii (c : Z) : bool := (0 <=? c) && (c <=? 127).


(** ** [double] and [std::stod] *)

Definition double : Type := spec_float.

Definition prec64 : Z := 53.
Definition emax64 : Z := 1024.

(** The [double] nearest to [m / 10^k] (round to nearest, ties to even).
    [SFdiv] takes the quotient of the two integer mantissas with enough
    bits to round it once, whatever their size. *)
Definition double_of_decimal (m : Z) (k : nat) : double :=
  match m with
  | Zpos p =>
      SFdiv prec64 emax64 (S754_finite false p 0)
        (S754_finite false (Z.to_pos (10 ^ Z.of_nat k)) 0)
  | _ => S754_zero false
  end.

(** The [double] of a non-negative integer that the format holds exactly. *)
Definition double_of_Z (n : Z) : double := double_of_decimal n 0.

Inductive exception : Type :=
| invalid_argument
| out_of_range.

(** Reads a maximal run of decimal digits, accumulating their value on
    [acc] and counting them. *)
Fixpoint scan_digits (s : string) (acc : Z) (count : nat) : Z * nat * string :=
  match s with
  | String c rest =>
      if isdigit (int_of_char c)
      then scan_digits rest (10 * acc + (int_of_char c - 48)) (S count)
      else (acc, count, s)
  | EmptyString => (acc, count, s)
  end.

(** The subject sequence [strtod] accepts in a text made of digits and
    ['.'] (the only texts [GetToken] passes): digits, then optionally a
    point and digits, with at least one digit in all.  The result is the
    mantissa and the number of fractional digits, or [None] when no
    conversion can be performed. *)
Definition strtod_subject (text : string) : option (Z * nat) :=
  let '(m1, n1, r1) := scan_digits text 0 0%nat in
  match r1 with
  | String "."%char r2 =>
      let '(m2, n2, _) := scan_digits r2 m1 0%nat in
      if (n1 + n2 =? 0)%nat then None else Some (m2, n2)
  | _ => if (n1 =? 0)%nat then None else Some (m1, 0%nat)
  end.

(** The decimal [m / 10^k] is below the smallest normal [double],
    [DBL_MIN] = 2^-1022: its conversion underflows, whether it rounds to
    zero, to a subnormal number or up to [DBL_MIN] itself. *)
Definition is_tiny (m : Z) (k : nat) : bool :=
  m * 2 ^ 1022 <? 10 ^ Z.of_nat k.

(** ** Program state and outcomes *)

(** Token codes of [enum Token]; any other token is the code (0..255) of
    the character itself. *)
Definition token_eof : Z := -1.
Definition token_def : Z := -2.
Definition token_extern : Z := -3.
Definition token_identifier : Z := -4.
Definition token_number : Z := -5.

Record state : Type := mk_state {
  stdin : string;              (* the input not yet read by [getchar] *)
  stderr : list string;        (* what [fprintf (stderr, ...)] wrote, in order *)
  last_char : Z;               (* [static int last_char] of [GetToken] *)
  IDENTIFIER_STR : string;     (* filled in if the token is an identifier *)
  NUM_VAL : double;            (* filled in if the token is a number *)
  cur_token : Z;               (* the token the parser is looking at *)
  BinopPrecedence : gmap Z Z   (* precedence of each declared operator *)
}.

Definition set_lexer (inp : string) (lc : Z) (s : state) : state :=
  mk_state inp (stderr s) lc (IDENTIFIER_STR s) (NUM_VAL s) (cur_token s)
    (BinopPrecedence s).
Definition set_IDENTIFIER_STR (id : string) (s : state) : state :=
  mk_state (stdin s) (stderr s) (last_char s) id (NUM_VAL s) (cur_token s)
    (BinopPrecedence s).
Definition set_NUM_VAL (d : double) (s : state) : state :=
  mk_state (stdin s) (stderr s) (last_char s) (IDENTIFIER_STR s) d (cur_token s)
    (BinopPrecedence s).
Definition set_cur_token (t : Z) (s : state) : state :=
  mk_state (stdin s) (stderr s) (last_char s) (IDENTIFIER_STR s) (NUM_VAL s) t
    (BinopPrecedence s).
Definition set_BinopPrecedence (m : gmap Z Z) (s : state) : state :=
  mk_state (stdin s) (stderr s) (last_char s) (IDENTIFIER_STR s) (NUM_VAL s)
    (cur_token s) m.
Definition fprintf_stderr (text : string) (s : state) : state :=
  mk_state (stdin s) (stderr s ++ [text]) (last_char s) (IDENTIFIER_STR s)
    (NUM_VAL s) (cur_token s) (BinopPrecedence s).

(** The state in which the program starts, before [main] has run: the
    static initialisers of the two headers, an empty operator table and
    [text] waiting on the standard input. *)
Definition initial_state (text : string) : state :=
  mk_state text [] 32 "" (S754_zero false) 0 ∅.

(** How a call ends: it returns a value, an exception leaves it (nothing in
    the program catches one), or the fuel of the model is used up. *)
Inductive outcome (A : Type) : Type :=
| Returns (a : A) (s : state)
| Throws (e : exception) (s : state)
| OutOfFuel.
Arguments Returns {A} a s.
Arguments Throws {A} e s.
Arguments OutOfFuel {A}.

Definition M (A : Type) : Type := state -> outcome A.

Definition ret {A} (a : A) : M A := fun s => Returns a s.

Definition bind {A B} (c : M A) (k : A -> M B) : M B :=
  fun s =>
    match c s with
    | Returns a s' => k a s'
    | Throws e s' => Throws e s'
    | OutOfFuel => OutOfFuel
    end.

Notation "'do' x <- c ; k" := (bind c (fun x => k))
  (at level 10, x name, c at level 100, k at level 200).
Notation "c ;; k" := (bind c (fun _ => k))
  (at level 100, k at level 200, right associativity, only parsing).

(** ** The lexer ([lexer.h]) *)

(** [s += c] for a [std::string] [s] and an [int] [c]. *)
Definition push_back (s : string) (c : Z) : string :=
  s ++ String (char_of_int c) "".

(** The loops of [GetToken].  Each is a recursion on the unread input; on
    exhausted input [getchar] returns [EOF], on which every loop test is
    false.  They return the final [last_char], the text accumulated (if
    any) and the input left. *)

(** [while (isspace(last_char)) last_char = getchar();] *)
Fixpoint skip_whitespace (inp : string) (last : Z) : Z * string :=
  if isspace last then
    match inp with
    | String c rest => skip_whitespace rest (int_of_char c)
    | EmptyString => (EOF, EmptyString)
    end
  else (last, inp).

(** [while (isalnum(last_char = getchar())) IDENTIFIER_STR += last_char;] *)
Fixpoint scan_identifier (inp : string) (id : string) : Z * string * string :=
  match inp with
  | String c rest =>
      if isalnum (int_of_char c)
      then scan_identifier rest (push_back id (int_of_char c))
      else (int_of_char c, id, rest)
  | EmptyString => (EOF, id, EmptyString)
  end.

(** [while (isdigit(last_char) || last_char == '.')
       { num_str += last_char; last_char = getchar(); }] *)
Fixpoint scan_number (inp : string) (last : Z) (num_str : string)
  : Z * string * string :=
  if isdigit last || (last =? 46) then
    match inp with
    | String c rest => scan_number rest (int_of_char c) (push_back num_str last)
    | EmptyString => (EOF, push_back num_str last, EmptyString)
    end
  else (last, num_str, inp).

(** [while (last_char != EOF && last_char != '\n' && last_char != '\r')
       last_char = getchar();] *)
Fixpoint skip_comment (inp : string) (last : Z) : Z * string :=
  if negb (last =? EOF) && negb (last =? 10) && negb (last =? 13) then
    match inp with
    | String c rest => skip_comment rest (int_of_char c)
    | EmptyString => (EOF, EmptyString)
    end
  else (last, inp).

(** [getchar ()] on the pair of the unread input. *)
Definition getchar (inp : string) : Z * string :=
  match inp with
  | String c rest => (int_of_char c, rest)
  | EmptyString => (EOF, EmptyString)
  end.

(** ** The abstract syntax tree ([ast.h]) *)

(** [ExprAST] and its four subclasses.  A [std::unique_ptr<ExprAST>] child
    is the child itself: ownership is exclusive, so the expressions are
    trees. *)
Inductive ExprAST : Type :=
| NumberExprAST (val : double)
| VariableExprAST (name : string)
| BinaryExprAST (op : ascii) (LHS RHS : ExprAST)
| CallExprAST (callee : string) (args : list ExprAST).

Record PrototypeAST : Type := mk_PrototypeAST {
  proto_name : string;
  proto_args : list string
}.

Record FunctionAST : Type := mk_FunctionAST {
  proto : PrototypeAST;
  body : ExprAST
}.

(** Reading a process-wide variable. *)
Definition get {A} (f : state -> A) : M A := fun s => Returns (f s) s.

(** [fprintf (stderr, text)]. *)
Definition fprintf (text : string) : M unit :=
  fun s => Returns tt (fprintf_stderr text s).

Definition newline : string := String (ascii_of_nat 10) "".

(** [LogError] and [LogErrorP]: one line on [stderr], and a null pointer. *)
Definition LogError (str : string) : M (option ExprAST) :=
  fprintf ("Error: " ++ str ++ newline) ;; ret None.

Definition LogErrorP (str : string) : M (option PrototypeAST) :=
  LogError str ;; ret None.

(** [BinopPrecedence[c]] of [std::map]: a key that is absent is inserted
    with the value [int()], which is 0. *)
Definition BinopPrecedence_index (c : Z) : M Z :=
  fun s =>
    match BinopPrecedence s !! c with
    | Some v => Returns v s
    | None => Returns 0 (set_BinopPrecedence (<[c := 0]> (BinopPrecedence s)) s)
    end.

(** [GetTokenPrecedence]: the precedence of the pending binary operator
    token, -1 when the token is not a declared operator. *)
Definition GetTokenPrecedence : M Z :=
  do t <- get cur_token;
  if negb (isascii t) then ret (-1)
  else
    do token_prec <- BinopPrecedence_index t;
    if token_prec <=? 0 then ret (-1) else ret token_prec.

(** Texts made of decimal digits only. *)
Fixpoint all_digits (s : string) : bool :=
  match s with
  | EmptyString => true
  | String c rest => isdigit (int_of_char c) && all_digits rest
  end.

(** Texts without a line end (newline or carriage return). *)
Fixpoint no_line_end (s : string) : bool :=
  match s with
  | EmptyString => true
  | String c rest =>
      negb (int_of_char c =? 10) && negb (int_of_char c =? 13) && no_line_end rest
  end.

Section Frontend.

(** Whether [strtod] reports [ERANGE] when the result underflows is
    implementation-defined (ISO C 7.22.1.3); the development is parametric
    in that choice, which is consulted, on the decimal [m / 10^k] that was
    converted, whenever that decimal is not zero and lies below the
    smallest normal [double], whatever it is rounded to. *)
Variable strtod_underflow_erange : Z -> nat -> bool.

(** [std::stod] on a text of digits and points: [std::invalid_argument]
    when no conversion can be performed, [std::out_of_range] when [strtod]
    reports [ERANGE], the converted prefix otherwise.  Text after the
    accepted prefix is ignored, as [stod] is called without a position. *)
Definition stod (text : string) : exception + double :=
  match strtod_subject text with
  | None => inl invalid_argument
  | Some (m, k) =>
      let d := double_of_decimal m k in
      match d with
      | S754_infinity _ => inl out_of_range
      | _ =>
          if (0 <? m) && is_tiny m k && strtod_underflow_erange m k
          then inl out_of_range
          else inr d
      end
  end.

(** [GetToken].  The fuel bounds the recursive calls made after a comment;
    each of them starts on a strictly shorter input. *)
Fixpoint GetToken_rec (fuel : nat) (s : state) : outcome Z :=
  match fuel with
  | O => OutOfFuel
  | S fuel' =>
      let '(last, inp) := skip_whitespace (stdin s) (last_char s) in
      if isalpha last then
        let '(last', id, inp') :=
          scan_identifier inp (String (char_of_int last) "") in
        let s' := set_IDENTIFIER_STR id (set_lexer inp' last' s) in
        if String.eqb id "def" then Returns token_def s'
        else if String.eqb id "extern" then Returns token_extern s'
        else Returns token_identifier s'
      else if isdigit last || (last =? 46) then
        let num_str := push_back "" last in
        let '(last1, inp1) := getchar inp in
        let '(last', num_str', inp') := scan_number inp1 last1 num_str in
        let s' := set_lexer inp' last' s in
        match stod num_str' with
        | inr d => Returns token_number (set_NUM_VAL d s')
        | inl e => Throws e s'
        end
      else
        let '(last, inp, again) :=
          if last =? 35 then
            let '(last1, inp1) := getchar inp in
            let '(last', inp') := skip_comment inp1 last1 in
            (last', inp', negb (last' =? EOF))
          else (last, inp, false) in
        if again then GetToken_rec fuel' (set_lexer inp last s)
        else if last =? EOF then Returns token_eof (set_lexer inp last s)
        else
          let this_char := last in
          let '(last', inp') := getchar inp in
          Returns this_char (set_lexer inp' last' s)
  end.

Definition GetToken : M Z :=
  fun s => GetToken_rec (S (String.length (stdin s))) s.

(** ** The token buffer ([parser.h]) *)

(** [static int GetNextToken() { return cur_token = GetToken(); }] *)
Definition GetNextToken : M Z :=
  do t <- GetToken; fun s => Returns t (set_cur_token t s).

(** numberexpr ::= number *)
Definition ParseNumberExpr : M (option ExprAST) :=
  do v <- get NUM_VAL;
  let result := NumberExprAST v in
  GetNextToken ;;
  ret (Some result).

(** The mutually recursive parse functions.  Every call and every loop
    iteration takes one unit of fuel:
    - primary ::= identifierexpr | numberexpr | parenexpr
    - parenexpr ::= '(' expression ')'
    - identifierexpr ::= identifier | identifier '(' expression* ')'
    - expression ::= primary binoprhs
    - binoprhs ::= ('+' primary)*
    [ParseIdentifierExpr_args_rec] is the [while (true)] loop of
    [ParseIdentifierExpr]; the [while (true)] of [ParseBinOpRHS] is the call
    that ends [ParseBinOpRHS_rec]. *)
Fixpoint ParsePrimary_rec (fuel : nat) : M (option ExprAST) :=
  match fuel with
  | O => fun _ => OutOfFuel
  | S fuel' =>
      do t <- get cur_token;
      if t =? token_identifier then ParseIdentifierExpr_rec fuel'
      else if t =? token_number then ParseNumberExpr
      else if t =? 40 then ParseParenExpr_rec fuel'
      else LogError "unknown token when expecting an expression"
  end

with ParseParenExpr_rec (fuel : nat) : M (option ExprAST) :=
  match fuel with
  | O => fun _ => OutOfFuel
  | S fuel' =>
      GetNextToken ;;
      do V <- ParseExpression_rec fuel';
      match V with
      | None => ret None
      | Some v =>
          do t <- get cur_token;
          if negb (t =? 41) then LogError "expected ')'"
          else GetNextToken ;; ret (Some v)
      end
  end

with ParseIdentifierExpr_rec (fuel : nat) : M (option ExprAST) :=
  match fuel with
  | O => fun _ => OutOfFuel
  | S fuel' =>
      do id_name <- get IDENTIFIER_STR;
      GetNextToken ;;
      do t <- get cur_token;
      if negb (t =? 40) then ret (Some (VariableExprAST id_name))
      else
        GetNextToken ;;
        do t <- get cur_token;
        do args <- (if negb (t =? 41) then ParseIdentifierExpr_args_rec fuel' [] else ret (Some []));
        match args with
        | None => ret None
        | Some args =>
            GetNextToken ;;
            ret (Some (CallExprAST id_name args))
        end
  end

with ParseIdentifierExpr_args_rec (fuel : nat) (args : list ExprAST) : M (option (list ExprAST)) :=
  match fuel with
  | O => fun _ => OutOfFuel
  | S fuel' =>
      do arg <- ParseExpression_rec fuel';
      match arg with
      | None => ret None
      | Some arg =>
          let args := (args ++ [arg])%list in
          do t <- get cur_token;
          if t =? 41 then ret (Some args)
          else if negb (t =? 44)
          then LogError "Expected ')' or ',' in argument list" ;; ret None
          else GetNextToken ;; ParseIdentifierExpr_args_rec fuel' args
      end
  end

with ParseExpression_rec (fuel : nat) : M (option ExprAST) :=
  match fuel with
  | O => fun _ => OutOfFuel
  | S fuel' =>
      do LHS <- ParsePrimary_rec fuel';
      match LHS with
      | None => ret None
      | Some LHS => ParseBinOpRHS_rec fuel' 0 LHS
      end
  end

with ParseBinOpRHS_rec (fuel : nat) (expr_prec : Z) (LHS : ExprAST)
  : M (option ExprAST) :=
  match fuel with
  | O => fun _ => OutOfFuel
  | S fuel' =>
      do tok_prec <- GetTokenPrecedence;
      if tok_prec <? expr_prec then ret (Some LHS)
      else
        do binop <- get cur_token;
        GetNextToken ;;
        do RHS <- ParsePrimary_rec fuel';
        match RHS with
        | None => ret None
        | Some RHS =>
            do next_prec <- GetTokenPrecedence;
            do RHS <- (if tok_prec <? next_prec
                       then ParseBinOpRHS_rec fuel' (tok_prec + 1) RHS
                       else ret (Some RHS));
            match RHS with
            | None => ret None
            | Some RHS =>
                ParseBinOpRHS_rec fuel' expr_prec
                  (BinaryExprAST (char_of_int binop) LHS RHS)
            end
        end
  end.

(** [while (GetNextToken() == Token::token_identifier)
       arg_names.push_back(IDENTIFIER_STR);] *)
Fixpoint ParsePrototype_args_rec (fuel : nat) (arg_names : list string)
  : M (list string) :=
  match fuel with
  | O => fun _ => OutOfFuel
  | S fuel' =>
      do t <- GetNextToken;
      if t =? token_identifier then
        do id <- get IDENTIFIER_STR;
        ParsePrototype_args_rec fuel' (arg_names ++ [id])%list
      else ret arg_names
  end.

(** prototype ::= id '(' id* ')' *)
Definition ParsePrototype_rec (fuel : nat) : M (option PrototypeAST) :=
  do t <- get cur_token;
  if negb (t =? token_identifier)
  then LogErrorP "Expected function name in prototype"
  else
    do fn_name <- get IDENTIFIER_STR;
    GetNextToken ;;
    do t <- get cur_token;
    if negb (t =? 40) then LogErrorP "Expected '(' in prototype"
    else
      do arg_names <- ParsePrototype_args_rec fuel [];
      do t <- get cur_token;
      if negb (t =? 41) then LogErrorP "Expected ')' in prototype"
      else
        GetNextToken ;;
        ret (Some (mk_PrototypeAST fn_name arg_names)).

(** definition ::= 'def' prototype expression *)
Definition ParseDefinition_rec (fuel : nat) : M (option FunctionAST) :=
  GetNextToken ;;
  do Proto <- ParsePrototype_rec fuel;
  match Proto with
  | None => ret None
  | Some Proto =>
      do E <- ParseExpression_rec fuel;
      match E with
      | Some E => ret (Some (mk_FunctionAST Proto E))
      | None => ret None
      end
  end.

(** external ::= 'extern' prototype *)
Definition ParseExtern_rec (fuel : nat) : M (option PrototypeAST) :=
  GetNextToken ;;
  ParsePrototype_rec fuel.

(** toplevelexpr ::= expression *)
Definition ParseTopLevelExpr_rec (fuel : nat) : M (option FunctionAST) :=
  do E <- ParseExpression_rec fuel;
  match E with
  | Some E =>
      let proto := mk_PrototypeAST "" [] in
      ret (Some (mk_FunctionAST proto E))
  | None => ret None
  end.

(** ** Fuel that is always enough *)

(** What is left for the lexer: the unread input, plus one while
    [last_char] still holds a character. *)
Definition pending (last : Z) (inp : string) : nat :=
  (String.length inp + (if (last =? EOF)%Z then 0 else 1))%nat.

Definition lexer_measure (s : state) : nat := pending (last_char s) (stdin s).

(** What is left for the parser: what is left for the lexer, plus one while
    the current token is not end of input. *)
Definition measure (s : state) : nat :=
  (lexer_measure s + (if (cur_token s =? token_eof)%Z then 0 else 1))%nat.

Definition enough_fuel (s : state) : nat := (4 * measure s + 4)%nat.

(** The parse functions, each run on the fuel that is enough for the state
    it starts in ([enough_fuel], shown sufficient below). *)
Definition ParsePrimary : M (option ExprAST) :=
  fun s => ParsePrimary_rec (enough_fuel s) s.
Definition ParseParenExpr : M (option ExprAST) :=
  fun s => ParseParenExpr_rec (enough_fuel s) s.
Definition ParseIdentifierExpr : M (option ExprAST) :=
  fun s => ParseIdentifierExpr_rec (enough_fuel s) s.
Definition ParseIdentifierExpr_args (args : list ExprAST)
  : M (option (list ExprAST)) :=
  fun s => ParseIdentifierExpr_args_rec (enough_fuel s) args s.
Definition ParseExpression : M (option ExprAST) :=
  fun s => ParseExpression_rec (enough_fuel s) s.
Definition ParseBinOpRHS (expr_prec : Z) (LHS : ExprAST) : M (option ExprAST) :=
  fun s => ParseBinOpRHS_rec (enough_fuel s) expr_prec LHS s.
Definition ParsePrototype_args (arg_names : list string) : M (list string) :=
  fun s => ParsePrototype_args_rec (enough_fuel s) arg_names s.
Definition ParsePrototype : M (option PrototypeAST) :=
  fun s => ParsePrototype_rec (enough_fuel s) s.
Definition ParseDefinition : M (option FunctionAST) :=
  fun s => ParseDefinition_rec (enough_fuel s) s.
Definition ParseExtern : M (option PrototypeAST) :=
  fun s => ParseExtern_rec (enough_fuel s) s.
Definition ParseTopLevelExpr : M (option FunctionAST) :=
  fun s => ParseTopLevelExpr_rec (enough_fuel s) s.

(** ** Top-level parsing *)

Definition HandleDefinition : M unit :=
  do r <- ParseDefinition;
  match r with
  | Some _ => fprintf ("Parsed a function definition." ++ newline)
  | None => GetNextToken ;; ret tt   (* skip token for error recovery *)
  end.

Definition HandleExtern : M unit :=
  do r <- ParseExtern;
  match r with
  | Some _ => fprintf ("Parsed an extern" ++ newline)
  | None => GetNextToken ;; ret tt
  end.

Definition HandleTopLevelExpr : M unit :=
  do r <- ParseTopLevelExpr;
  match r with
  | Some _ => fprintf ("Parsed a top-level expression" ++ newline)
  | None => GetNextToken ;; ret tt
  end.

(** One pass through the body of the [while (true)] of [MainLoop]: [true]
    when the loop goes on, [false] on the [return] at end of input.
    top ::= definition | external | expression | ';' *)
Definition MainLoop_body : M bool :=
  fprintf "ready> " ;;
  do t <- get cur_token;
  if t =? token_eof then ret false
  else if t =? 59 then GetNextToken ;; ret true
  else if t =? token_def then HandleDefinition ;; ret true
  else if t =? token_extern then HandleExtern ;; ret true
  else HandleTopLevelExpr ;; ret true.

Fixpoint MainLoop_rec (fuel : nat) : M unit :=
  match fuel with
  | O => fun _ => OutOfFuel
  | S fuel' =>
      do again <- MainLoop_body;
      if again then MainLoop_rec fuel' else ret tt
  end.

Definition MainLoop : M unit :=
  fun s => MainLoop_rec (S (measure s)) s.

(** ** Vocabulary of the properties *)

(** What [GetToken] leaves alone. *)
Definition same_parser_state (s s' : state) : Prop :=
  stderr s' = stderr s /\ cur_token s' = cur_token s
  /\ BinopPrecedence s' = BinopPrecedence s.

(** A weakest-precondition reading of the outcomes.
    [wp c s Q]: run from [s], [c] does not run out of fuel, and if it
    returns, the value and the final state satisfy [Q]. *)
Definition wp {A} (c : M A) (s : state) (Q : A -> state -> Prop) : Prop :=
  match c s with
  | Returns a s' => Q a s'
  | Throws _ _ => True
  | OutOfFuel => False
  end.

(** [post c s Q]: if [c], run from [s], returns, then the value and the
    final state satisfy [Q]. *)
Definition post {A} (c : M A) (s : state) (Q : A -> state -> Prop) : Prop :=
  match c s with
  | Returns a s' => Q a s'
  | _ => True
  end.

(** [post_exn c s Q T]: if [c], run from [s], returns, then the value and
    the final state satisfy [Q]; if it is left by an exception, the state
    in which the exception was thrown satisfies [T]. *)
Definition post_exn {A} (c : M A) (s : state)
    (Q : A -> state -> Prop) (T : state -> Prop) : Prop :=
  match c s with
  | Returns a s' => Q a s'
  | Throws _ s' => T s'
  | OutOfFuel => True
  end.

(** What a parse function writes to [stderr]: nothing when it succeeds,
    exactly one error line when it fails. *)
Definition one_diagnostic (s : state) {A} (r : option A) (s' : state) : Prop :=
  (r <> None -> stderr s' = stderr s)
  /\ (r = None ->
      exists msg : string,
        stderr s' = (stderr s ++ [("Error: " ++ msg ++ newline)%string])%list).

(** [s'] is [s] after some tokens were consumed. *)
Definition advanced (s s' : state) : Prop :=
  (lexer_measure s' <= lexer_measure s)%nat /\ (measure s' <= measure s)%nat.

(** After a parse function: the state has advanced, and a parse that
    succeeded has consumed at least one token. *)
Definition parse_post (s : state) {A} (r : option A) (s' : state) : Prop :=
  advanced s s' /\ (r <> None -> (measure s' < measure s)%nat).

(** What one construct of the top level leaves: the state has advanced,
    and strictly so unless it started at end of input. *)
Definition consumed (s : state) {A} (_ : A) (s' : state) : Prop :=
  advanced s s' /\ (cur_token s <> token_eof -> (measure s' < measure s)%nat).

(** [refines c c']: wherever [c] does not run out of fuel, [c'] ends the
    same way. *)
Definition refines {A} (c c' : M A) : Prop :=
  forall s, c s <> OutOfFuel -> c' s = c s.

(** Modelled from the spec: the operator table of the reference
    configuration, [{<: 10, +: 20, -: 20, *: 40}], which the driver
    ([main.cpp], not among the sources) installs in [BinopPrecedence]. *)
Definition reference_table : gmap Z Z :=
  <[60 := 10]> (<[43 := 20]> (<[45 := 20]> (<[42 := 40]> ∅))).

(** Modelled from the spec: the driver ([main.cpp], not among the sources)
    installs the operator table and pulls the first token into the
    lookahead buffer before it asks the parser for a construct. *)
Definition parse_text {A} (parse : M A) (text : string) : outcome A :=
  (GetNextToken ;; parse) (set_BinopPrecedence reference_table (initial_state text)).

(** A run of operators of precedence [p], each followed by a primary after
    which no tighter operator is pending: the states it leads through and
    the operator characters and operands read on the way. *)
Inductive operator_chain (p : Z) : state -> list (ascii * ExprAST) -> state -> Prop :=
| chain_end s : operator_chain p s [] s
| chain_more s s0 t s1 RHS s2 next_prec s3 rest s' :
    GetTokenPrecedence s = Returns p s0 ->
    GetNextToken s0 = Returns t s1 ->
    ParsePrimary s1 = Returns (Some RHS) s2 ->
    GetTokenPrecedence s2 = Returns next_prec s3 ->
    next_prec <= p ->
    operator_chain p s3 rest s' ->
    operator_chain p s ((char_of_int (cur_token s), RHS) :: rest) s'.

(** [((LHS op1 a1) op2 a2) ...]: the operands hung to the left, one after
    the other. *)
Definition nest_left (LHS : ExprAST) (ops : list (ascii * ExprAST)) : ExprAST :=
  fold_left (fun acc '(op, RHS) => BinaryExprAST op acc RHS) ops LHS.


(** A maximal run of identifier tokens, pulled one [GetNextToken] at a
    time as the argument loop of [ParsePrototype] does: the names read and
    the state in which the first token that is no identifier is current. *)
Inductive identifier_run : state -> list string -> state -> Prop :=
| run_stop s t s' :
    GetNextToken s = Returns t s' ->
    t <> token_identifier ->
    identifier_run s [] s'
| run_more s s1 names s' :
    GetNextToken s = Returns token_identifier s1 ->
    identifier_run s1 names s' ->
    identifier_run s (IDENTIFIER_STR s1 :: names) s'.

(** Texts of letters and digits, of digits and points, and of white
    space only. *)
Fixpoint all_alnum (s : string) : bool :=
  match s with
  | EmptyString => true
  | String c rest => isalnum (int_of_char c) && all_alnum rest
  end.

Fixpoint all_numeric (s : string) : bool :=
  match s with
  | EmptyString => true
  | String c rest =>
      (isdigit (int_of_char c) || (int_of_char c =? 46)) && all_numeric rest
  end.

Fixpoint all_space (s : string) : bool :=
  match s with
  | EmptyString => true
  | String c rest => isspace (int_of_char c) && all_space rest
  end.

(** A run of [n] zeros. *)
Fixpoint zeros (n : nat) : string :=
  match n with
  | O => EmptyString
  | S n' => String "0"%char (zeros n')
  end.

(** Texts of points only. *)
Fixpoint all_points (s : string) : bool :=
  match s with
  | EmptyString => true
  | String c rest => (int_of_char c =? 46) && all_points rest
  end.

(** [rest] is empty or starts with a character that fails the test [p]:
    a run of characters passing [p] cannot go on into [rest]. *)
Definition stops (p : Z -> bool) (rest : string) : Prop :=
  match rest with
  | String c _ => p (int_of_char c) = false
  | EmptyString => True
  end.

(** [t] is what is left of [s] after a prefix was read. *)
Definition is_suffix (t s : string) : Prop := exists p, s = p ++ t.

(** The precedence [GetTokenPrecedence] reads off a table for a character:
    the entry when there is one and it is positive, -1 otherwise. *)
Definition precedence_of (m : gmap Z Z) (c : Z) : Z :=
  match m !! c with
  | Some v => if v <=? 0 then -1 else v
  | None => -1
  end.

(** What the parser may do to the state: read on in the input, write more
    to [stderr], and touch the operator table without changing the
    precedence of any character. *)
Definition parser_frame (s s' : state) : Prop :=
  is_suffix (stdin s') (stdin s)
  /\ (exists l, stderr s' = (stderr s ++ l)%list)
  /\ forall c, precedence_of (BinopPrecedence s') c
               = precedence_of (BinopPrecedence s) c.

(** [c] keeps within [parser_frame], from every state. *)
Definition framed {A} (c : M A) : Prop :=
  forall s, post c s (fun _ s' => parser_frame s s').

(** [f], when it returns, has changed the precedence of no character. *)
Definition keeps_precedences {A} (f : M A) : Prop :=
  forall s r s', f s = Returns r s' ->
    forall c, precedence_of (BinopPrecedence s') c
              = precedence_of (BinopPrecedence s) c.

(** [f], when it returns, has only read on in the input and only added to
    what [stderr] holds. *)
Definition reads_forward {A} (f : M A) : Prop :=
  forall s r s', f s = Returns r s' ->
    is_suffix (stdin s') (stdin s)
    /\ exists l, stderr s' = (stderr s ++ l)%list.

(** [e] is [t] or lies on the way down from [t] through left operands. *)
Inductive on_left_spine (e : ExprAST) : ExprAST -> Prop :=
| spine_here : on_left_spine e e
| spine_left op l r : on_left_spine e l -> on_left_spine e (BinaryExprAST op l r).

(** The arguments of a call as the loop of [ParseIdentifierExpr] reads
    them: expressions that parse, a [','] after each but the last, a [')']
    after the last.  The run ends with the [')'] current. *)
Inductive argument_run : state -> list ExprAST -> state -> Prop :=
| args_last s arg s1 :
    ParseExpression s = Returns (Some arg) s1 ->
    cur_token s1 = 41 ->
    argument_run s [arg] s1
| args_more s arg s1 t s2 args s' :
    ParseExpression s = Returns (Some arg) s1 ->
    cur_token s1 = 44 ->
    GetNextToken s1 = Returns t s2 ->
    argument_run s2 args s' ->
    argument_run s (arg :: args) s'.

(** ** Properties of the lexer *)

Lemma int_of_char_range (c : ascii) : 0 <= int_of_char c < 256.
Proof.
  unfold int_of_char. pose proof (N_ascii_bounded c) as Hb. lia.
Qed.

Lemma pending_char (c : ascii) (inp : string) :
  pending (int_of_char c) inp = S (String.length inp).
Proof.
  unfold pending. pose proof (int_of_char_range c) as Hc.
  destruct (Z.eqb_spec (int_of_char c) EOF) as [He|_]; [unfold EOF in He|]; lia.
Qed.

Lemma pending_EOF : pending EOF "" = 0%nat.
Proof. reflexivity. Qed.

Lemma pending_le (last : Z) (inp : string) :
  (pending last inp <= S (String.length inp))%nat.
Proof. unfold pending. destruct (last =? EOF); lia. Qed.

Lemma pending_not_EOF (last : Z) (inp : string) :
  last <> EOF -> pending last inp = S (String.length inp).
Proof.
  intros Hne. unfold pending. destruct (Z.eqb_spec last EOF); [easy|lia].
Qed.

Lemma getchar_pending (inp : string) (last' : Z) (inp' : string) :
  getchar inp = (last', inp') ->
  (pending last' inp' <= String.length inp)%nat.
Proof.
  destruct inp as [|c rest]; simpl; intros [= <- <-];
    [rewrite pending_EOF | rewrite pending_char]; lia.
Qed.

Lemma skip_whitespace_pending (inp : string) : forall last last' inp',
  skip_whitespace inp last = (last', inp') ->
  (pending last' inp' <= pending last inp)%nat /\ isspace last' = false.
Proof.
  induction inp as [|c rest IH]; intros last last' inp'; simpl;
    destruct (isspace last) eqn:Hsp; intros Heq.
  - injection Heq as <- <-. rewrite pending_EOF. split; [lia|reflexivity].
  - injection Heq as <- <-. auto.
  - apply IH in Heq as [Hle Hns]. split; [|exact Hns].
    rewrite pending_char in Hle.
    assert (Hne : last <> EOF) by (intros ->; vm_compute in Hsp; discriminate Hsp).
    rewrite (pending_not_EOF _ _ Hne). simpl. lia.
  - injection Heq as <- <-. auto.
Qed.

Lemma scan_identifier_pending (inp : string) : forall id last' id' inp',
  scan_identifier inp id = (last', id', inp') ->
  (pending last' inp' <= String.length inp)%nat.
Proof.
  induction inp as [|c rest IH]; intros id last' id' inp'; simpl.
  - intros [= <- _ <-]. rewrite pending_EOF. lia.
  - destruct (isalnum (int_of_char c)).
    + intros Heq. apply IH in Heq. lia.
    + intros [= <- _ <-]. rewrite pending_char. lia.
Qed.

Lemma scan_number_pending (inp : string) : forall last num_str last' num_str' inp',
  scan_number inp last num_str = (last', num_str', inp') ->
  (pending last' inp' <= pending last inp)%nat.
Proof.
  induction inp as [|c rest IH]; intros last num_str last' num_str' inp'; simpl;
    destruct (isdigit last || (last =? 46)) eqn:Hd; intros Heq.
  - injection Heq as <- _ <-. rewrite pending_EOF. lia.
  - injection Heq as <- _ <-. lia.
  - apply IH in Heq. rewrite pending_char in Heq.
    assert (Hne : last <> EOF) by (intros ->; vm_compute in Hd; discriminate Hd).
    rewrite (pending_not_EOF _ _ Hne). simpl. lia.
  - injection Heq as <- _ <-. lia.
Qed.

Lemma skip_comment_pending (inp : string) : forall last last' inp',
  skip_comment inp last = (last', inp') ->
  (pending last' inp' <= pending last inp)%nat.
Proof.
  induction inp as [|c rest IH]; intros last last' inp'; simpl;
    destruct (negb (last =? EOF) && negb (last =? 10) && negb (last =? 13)) eqn:Hd;
    intros Heq.
  - injection Heq as <- <-. rewrite pending_EOF. lia.
  - injection Heq as <- <-. lia.
  - apply IH in Heq. rewrite pending_char in Heq.
    assert (Hne : last <> EOF) by (intros ->; vm_compute in Hd; discriminate Hd).
    rewrite (pending_not_EOF _ _ Hne). simpl. lia.
  - injection Heq as <- <-. lia.
Qed.

(** [GetToken] returns or throws on every input, it never reads backwards,
    and a token other than end of input costs at least one character. *)
Lemma GetToken_rec_spec (fuel : nat) : forall s,
  (String.length (stdin s) < fuel)%nat ->
  match GetToken_rec fuel s with
  | Returns t s' =>
      (lexer_measure s' <= lexer_measure s)%nat
      /\ (t <> token_eof -> (lexer_measure s' < lexer_measure s)%nat)
      /\ same_parser_state s s'
  | Throws _ _ => True
  | OutOfFuel => False
  end.
Proof.
  induction fuel as [|fuel IH]; intros s Hlen; [lia|].
  simpl. unfold lexer_measure at 2 4.
  destruct (skip_whitespace (stdin s) (last_char s)) as [last inp] eqn:Hws.
  apply skip_whitespace_pending in Hws as [Hle _].
  destruct (isalpha last) eqn:Ha.
  { destruct (scan_identifier inp (String (char_of_int last) "")) as [[last' id] inp'] eqn:Hid.
    apply scan_identifier_pending in Hid.
    assert (Hne : last <> EOF) by (intros ->; vm_compute in Ha; discriminate Ha).
    rewrite (pending_not_EOF _ _ Hne) in Hle.
    destruct (String.eqb id "def"); [|destruct (String.eqb id "extern")];
      unfold lexer_measure, same_parser_state; simpl; repeat split; try lia. }
  destruct (isdigit last || (last =? 46)) eqn:Hd.
  { destruct (getchar inp) as [last1 inp1] eqn:Hg.
    destruct (scan_number inp1 last1 (push_back "" last)) as [[last' num] inp'] eqn:Hn.
    apply getchar_pending in Hg. apply scan_number_pending in Hn.
    assert (Hne : last <> EOF) by (intros ->; vm_compute in Hd; discriminate Hd).
    rewrite (pending_not_EOF _ _ Hne) in Hle.
    destruct (stod num); [exact I|].
    unfold lexer_measure, same_parser_state; simpl; repeat split; try lia. }
  destruct (last =? 35) eqn:H35.
  { destruct (getchar inp) as [last1 inp1] eqn:Hg.
    destruct (skip_comment inp1 last1) as [last' inp'] eqn:Hc.
    apply getchar_pending in Hg. apply skip_comment_pending in Hc.
    apply Z.eqb_eq in H35. subst last.
    rewrite pending_not_EOF in Hle by discriminate.
    destruct (Z.eqb_spec last' EOF) as [He|He]; simpl.
    - subst last'. simpl.
      unfold lexer_measure, same_parser_state; simpl; repeat split; try lia; easy.
    - rewrite (pending_not_EOF _ _ He) in Hc.
      specialize (IH (set_lexer inp' last' s)). simpl in IH.
      assert (Hlt : (String.length inp' < fuel)%nat).
      { pose proof (pending_le (last_char s) (stdin s)). lia. }
      specialize (IH Hlt).
      destruct (GetToken_rec fuel (set_lexer inp' last' s)) as [t s'| |]; [|exact I|exact IH].
      destruct IH as (H1 & H2 & H3).
      unfold lexer_measure at 2 in H1. unfold lexer_measure at 2 in H2. simpl in H1, H2.
      rewrite (pending_not_EOF _ _ He) in H1, H2.
      repeat split; try lia; try apply H3. }
  simpl. destruct (Z.eqb_spec last EOF) as [He|He].
  { unfold lexer_measure, same_parser_state; simpl; repeat split; try lia; easy. }
  destruct (getchar inp) as [last' inp'] eqn:Hg. apply getchar_pending in Hg.
  rewrite (pending_not_EOF _ _ He) in Hle.
  unfold lexer_measure, same_parser_state; simpl; repeat split; try lia.
Qed.

Lemma GetToken_rec_stable (n : nat) : forall m s,
  (String.length (stdin s) < n)%nat -> (String.length (stdin s) < m)%nat ->
  GetToken_rec n s = GetToken_rec m s.
Proof.
  induction n as [|n IH]; intros [|m] s Hn Hm; try lia.
  simpl.
  destruct (skip_whitespace (stdin s) (last_char s)) as [last inp] eqn:Hws.
  apply skip_whitespace_pending in Hws as [Hle _].
  destruct (isalpha last); [reflexivity|].
  destruct (isdigit last || (last =? 46)); [reflexivity|].
  destruct (last =? 35) eqn:H35; [|reflexivity].
  destruct (getchar inp) as [last1 inp1] eqn:Hg.
  destruct (skip_comment inp1 last1) as [last' inp'] eqn:Hc.
  apply getchar_pending in Hg. apply skip_comment_pending in Hc.
  apply Z.eqb_eq in H35. subst last.
  rewrite pending_not_EOF in Hle by discriminate.
  destruct (Z.eqb_spec last' EOF) as [He|He]; simpl; [reflexivity|].
  rewrite (pending_not_EOF _ _ He) in Hc.
  pose proof (pending_le (last_char s) (stdin s)).
  apply IH; simpl; lia.
Qed.

Lemma GetToken_enough (n : nat) (s : state) :
  (String.length (stdin s) < n)%nat -> GetToken_rec n s = GetToken s.
Proof. intros Hn. apply GetToken_rec_stable; [exact Hn|lia]. Qed.

Lemma wp_bind {A B} (c : M A) (k : A -> M B) s Q :
  wp c s (fun a s1 => wp (k a) s1 Q) -> wp (bind c k) s Q.
Proof. unfold wp, bind. destruct (c s); auto. Qed.

Lemma wp_conseq {A} (c : M A) s (Q Q' : A -> state -> Prop) :
  wp c s Q -> (forall a s', Q a s' -> Q' a s') -> wp c s Q'.
Proof. unfold wp. destruct (c s); auto. Qed.

Lemma wp_ret {A} (a : A) s (Q : A -> state -> Prop) : Q a s -> wp (ret a) s Q.
Proof. auto. Qed.

Lemma wp_get {A} (f : state -> A) s (Q : A -> state -> Prop) :
  Q (f s) s -> wp (get f) s Q.
Proof. auto. Qed.

Lemma wp_fprintf text s (Q : unit -> state -> Prop) :
  Q tt (fprintf_stderr text s) -> wp (fprintf text) s Q.
Proof. auto. Qed.

Lemma wp_Returns {A} (c : M A) s a s' (Q : A -> state -> Prop) :
  wp c s Q -> c s = Returns a s' -> Q a s'.
Proof. unfold wp. intros H E. rewrite E in H. exact H. Qed.

Lemma advanced_refl s : advanced s s.
Proof. split; lia. Qed.

Lemma advanced_trans s1 s2 s3 : advanced s1 s2 -> advanced s2 s3 -> advanced s1 s3.
Proof. unfold advanced. lia. Qed.

Lemma wp_GetNextToken s :
  wp GetNextToken s (fun t s' =>
    cur_token s' = t /\ advanced s s'
    /\ (cur_token s <> token_eof -> (measure s' < measure s)%nat)
    /\ (t <> token_eof -> (lexer_measure s' < lexer_measure s)%nat)
    /\ stderr s' = stderr s /\ BinopPrecedence s' = BinopPrecedence s).
Proof.
  unfold GetNextToken. apply wp_bind. unfold wp, GetToken.
  pose proof (GetToken_rec_spec (S (String.length (stdin s))) s) as H.
  destruct (GetToken_rec (S (String.length (stdin s))) s) as [t s'| |];
    [|exact I|apply H; lia].
  destruct H as (H1 & H2 & H3 & H4 & H5); [lia|].
  simpl. unfold advanced, measure, lexer_measure in *. simpl.
  destruct (Z.eqb_spec t token_eof) as [Ht|Ht];
    destruct (Z.eqb_spec (cur_token s) token_eof) as [Hc|Hc];
    repeat split; try lia; try easy.
Qed.

Lemma wp_GetTokenPrecedence s :
  wp GetTokenPrecedence s (fun _ s' =>
    lexer_measure s' = lexer_measure s /\ measure s' = measure s
    /\ cur_token s' = cur_token s /\ stderr s' = stderr s).
Proof.
  unfold GetTokenPrecedence. apply wp_bind, wp_get.
  destruct (negb (isascii (cur_token s))); [apply wp_ret; auto|].
  apply wp_bind. unfold wp at 1, BinopPrecedence_index.
  destruct (BinopPrecedence s !! cur_token s) as [v|];
    (destruct (_ <=? 0); apply wp_ret; auto).
Qed.

(** ** Termination and progress of the parse functions *)

Ltac wp_known :=
  match goal with
  | |- wp GetNextToken _ _ =>
      eapply wp_conseq; [apply wp_GetNextToken|]; intros ? ? (? & ? & ? & ? & ? & ?)
  | |- wp GetTokenPrecedence _ _ =>
      eapply wp_conseq; [apply wp_GetTokenPrecedence|]; intros ? ? (? & ? & ? & ?)
  end.

Ltac wp_step :=
  match goal with
  | |- wp (bind _ _) _ _ => apply wp_bind
  | |- wp (ret _) _ _ => apply wp_ret
  | |- wp (get _) _ _ => apply wp_get
  | |- wp (fprintf _) _ _ => apply wp_fprintf
  | |- wp (let _ := _ in _) _ _ => cbv zeta
  | |- wp (LogError _) _ _ => unfold LogError
  | |- wp (LogErrorP _) _ _ => unfold LogErrorP
  | |- wp (if ?b then _ else _) _ _ => destruct b eqn:?
  | |- wp (match ?x with _ => _ end) _ _ => destruct x eqn:?
  | _ => wp_known
  end.

Lemma lexer_measure_fprintf text s :
  lexer_measure (fprintf_stderr text s) = lexer_measure s.
Proof. reflexivity. Qed.

Lemma measure_fprintf text s : measure (fprintf_stderr text s) = measure s.
Proof. reflexivity. Qed.

Ltac measure_facts :=
  rewrite ?lexer_measure_fprintf, ?measure_fprintf in *;
  unfold parse_post, advanced in *;
  repeat match goal with
  | H : (_ =? _) = true |- _ => apply Z.eqb_eq in H
  | H : (_ =? _) = false |- _ => apply Z.eqb_neq in H
  | H : negb _ = true |- _ => apply negb_true_iff in H
  | H : negb _ = false |- _ => apply negb_false_iff in H
  end;
  unfold token_eof, token_def, token_extern, token_identifier, token_number in *;
  repeat match goal with
  | H : _ /\ _ |- _ => destruct H
  | H : ?a <> ?b -> _ |- _ =>
      let N := fresh in
      assert (N : a <> b) by (first [assumption | discriminate | congruence | lia]);
      specialize (H N)
  end.

Ltac measure_solve :=
  measure_facts;
  repeat match goal with
  | |- _ /\ _ => split
  | |- _ -> _ => intros ?
  end;
  measure_facts; try lia; try congruence.

Ltac wp_call IH :=
  eapply wp_conseq; [apply IH; solve [measure_solve] | intros ? ? ?].

Ltac wp_auto :=
  repeat first
    [ wp_step
    | match goal with IH : _ |- wp _ _ _ => wp_call IH end ];
  try solve [measure_solve].

Lemma wp_ParseNumberExpr s :
  cur_token s <> token_eof -> wp ParseNumberExpr s (parse_post s).
Proof.
  intros Hc. unfold ParseNumberExpr. repeat wp_step. measure_solve.
Qed.

Lemma parse_rec_spec (n : nat) :
  (forall s, (4 * measure s + 2 <= n)%nat ->
     wp (ParsePrimary_rec n) s (parse_post s))
  /\ (forall s, cur_token s <> token_eof -> (4 * measure s + 1 <= n)%nat ->
     wp (ParseParenExpr_rec n) s (parse_post s))
  /\ (forall s, cur_token s <> token_eof -> (4 * measure s + 1 <= n)%nat ->
     wp (ParseIdentifierExpr_rec n) s (parse_post s))
  /\ (forall args s, (4 * measure s + 4 <= n)%nat ->
     wp (ParseIdentifierExpr_args_rec n args) s (parse_post s))
  /\ (forall s, (4 * measure s + 3 <= n)%nat ->
     wp (ParseExpression_rec n) s (parse_post s))
  /\ (forall expr_prec LHS s, (4 * measure s + 3 <= n)%nat ->
     wp (ParseBinOpRHS_rec n expr_prec LHS) s (fun _ s' => advanced s s')).
Proof.
  induction n as [|n (IHP & IHR & IHI & IHA & IHE & IHB)].
  { repeat split; intros; lia. }
  repeat split.
  - intros s Hn. cbn [ParsePrimary_rec]. wp_auto.
    apply wp_ParseNumberExpr. measure_solve.
  - intros s Hc Hn. cbn [ParseParenExpr_rec]. wp_auto.
  - intros s Hc Hn. cbn [ParseIdentifierExpr_rec]. wp_auto.
  - intros args s Hn. cbn [ParseIdentifierExpr_args_rec]. wp_auto.
  - intros s Hn. cbn [ParseExpression_rec]. wp_auto.
  - intros expr_prec LHS s Hn. cbn [ParseBinOpRHS_rec]. wp_auto.
Qed.

(** ** More fuel does not change an outcome *)

Lemma refines_refl {A} (c : M A) : refines c c.
Proof. intros s _. reflexivity. Qed.

Lemma refines_trans {A} (c1 c2 c3 : M A) :
  refines c1 c2 -> refines c2 c3 -> refines c1 c3.
Proof.
  intros H12 H23 s H1. rewrite <- (H12 s H1). apply H23.
  rewrite (H12 s H1). exact H1.
Qed.

Lemma refines_bind {A B} (c c' : M A) (k k' : A -> M B) :
  refines c c' -> (forall a, refines (k a) (k' a)) ->
  refines (bind c k) (bind c' k').
Proof.
  intros Hc Hk s H. unfold bind in *. specialize (Hc s).
  destruct (c s) as [a s1| |] eqn:E.
  - rewrite Hc by discriminate. apply Hk. exact H.
  - rewrite Hc by discriminate. reflexivity.
  - exfalso. apply H. reflexivity.
Qed.

Lemma refines_OutOfFuel {A} (c' : M A) : refines (fun _ => OutOfFuel) c'.
Proof. intros s H. exfalso. apply H. reflexivity. Qed.

Ltac refines_step :=
  match goal with
  | |- refines (fun _ => OutOfFuel) _ => apply refines_OutOfFuel
  | |- refines ?c ?c => apply refines_refl
  | |- refines (bind _ _) (bind _ _) => apply refines_bind; [|intros ?]
  | |- refines (if ?b then _ else _) (if ?b then _ else _) => destruct b
  | |- refines (match ?x with _ => _ end) (match ?x with _ => _ end) => destruct x
  | IH : _ |- refines _ _ => apply IH
  end.

Lemma parse_rec_S (n : nat) :
  refines (ParsePrimary_rec n) (ParsePrimary_rec (S n))
  /\ refines (ParseParenExpr_rec n) (ParseParenExpr_rec (S n))
  /\ refines (ParseIdentifierExpr_rec n) (ParseIdentifierExpr_rec (S n))
  /\ (forall args, refines (ParseIdentifierExpr_args_rec n args) (ParseIdentifierExpr_args_rec (S n) args))
  /\ refines (ParseExpression_rec n) (ParseExpression_rec (S n))
  /\ (forall expr_prec LHS,
        refines (ParseBinOpRHS_rec n expr_prec LHS)
          (ParseBinOpRHS_rec (S n) expr_prec LHS)).
Proof.
  induction n as [|n (IHP & IHR & IHI & IHA & IHE & IHB)].
  { repeat split; intros; apply refines_OutOfFuel. }
  repeat split; intros.
  - cbn [ParsePrimary_rec]. repeat refines_step.
  - cbn [ParseParenExpr_rec]. repeat refines_step.
  - cbn [ParseIdentifierExpr_rec]. repeat refines_step.
  - cbn [ParseIdentifierExpr_args_rec]. repeat refines_step.
  - cbn [ParseExpression_rec]. repeat refines_step.
  - cbn [ParseBinOpRHS_rec]. repeat refines_step.
Qed.

Lemma parse_rec_le (n m : nat) :
  (n <= m)%nat ->
  refines (ParsePrimary_rec n) (ParsePrimary_rec m)
  /\ refines (ParseParenExpr_rec n) (ParseParenExpr_rec m)
  /\ refines (ParseIdentifierExpr_rec n) (ParseIdentifierExpr_rec m)
  /\ (forall args, refines (ParseIdentifierExpr_args_rec n args) (ParseIdentifierExpr_args_rec m args))
  /\ refines (ParseExpression_rec n) (ParseExpression_rec m)
  /\ (forall expr_prec LHS,
        refines (ParseBinOpRHS_rec n expr_prec LHS)
          (ParseBinOpRHS_rec m expr_prec LHS)).
Proof.
  induction 1 as [|m Hle (IHP & IHR & IHI & IHA & IHE & IHB)].
  { repeat split; intros; apply refines_refl. }
  destruct (parse_rec_S m) as (HP & HR & HI & HA & HE & HB).
  repeat split; intros; eapply refines_trans; eauto.
Qed.

Lemma wp_not_OutOfFuel {A} (c : M A) s Q : wp c s Q -> c s <> OutOfFuel.
Proof. unfold wp. destruct (c s); intros H; [discriminate|discriminate|elim H]. Qed.

Lemma stable_fuel {A} (f : nat -> M A) (need : nat) (s : state) Q :
  (forall n m, (n <= m)%nat -> refines (f n) (f m)) ->
  wp (f need) s Q ->
  forall n m, (need <= n)%nat -> (need <= m)%nat -> f n s = f m s.
Proof.
  intros Hmono Hwp n m Hn Hm.
  pose proof (wp_not_OutOfFuel _ _ _ Hwp) as Hne.
  rewrite (Hmono need n Hn s Hne), (Hmono need m Hm s Hne). reflexivity.
Qed.

Lemma wp_ParsePrimary_rec n s :
  (4 * measure s + 2 <= n)%nat -> wp (ParsePrimary_rec n) s (parse_post s).
Proof. apply parse_rec_spec. Qed.

Lemma wp_ParseParenExpr_rec n s :
  cur_token s <> token_eof -> (4 * measure s + 1 <= n)%nat ->
  wp (ParseParenExpr_rec n) s (parse_post s).
Proof. apply parse_rec_spec. Qed.

Lemma wp_ParseIdentifierExpr_rec n s :
  cur_token s <> token_eof -> (4 * measure s + 1 <= n)%nat ->
  wp (ParseIdentifierExpr_rec n) s (parse_post s).
Proof. apply parse_rec_spec. Qed.

Lemma wp_ParseIdentifierExpr_args_rec n args s :
  (4 * measure s + 4 <= n)%nat ->
  wp (ParseIdentifierExpr_args_rec n args) s (parse_post s).
Proof. apply parse_rec_spec. Qed.

Lemma wp_ParseExpression_rec n s :
  (4 * measure s + 3 <= n)%nat -> wp (ParseExpression_rec n) s (parse_post s).
Proof. apply parse_rec_spec. Qed.

Lemma wp_ParseBinOpRHS_rec n expr_prec LHS s :
  (4 * measure s + 3 <= n)%nat ->
  wp (ParseBinOpRHS_rec n expr_prec LHS) s (fun _ s' => advanced s s').
Proof. apply parse_rec_spec. Qed.

(** Any fuel above the bound gives the outcome of the fuel-free function. *)
Lemma ParsePrimary_enough n s :
  (4 * measure s + 2 <= n)%nat -> ParsePrimary_rec n s = ParsePrimary s.
Proof.
  intros Hn. unfold ParsePrimary, enough_fuel.
  pose proof (wp_ParsePrimary_rec _ s (le_n _)) as Hwp.
  apply (stable_fuel ParsePrimary_rec _ s _ (fun a b H => proj1 (parse_rec_le a b H)) Hwp); lia.
Qed.

Lemma ParseParenExpr_enough n s :
  cur_token s <> token_eof -> (4 * measure s + 1 <= n)%nat ->
  ParseParenExpr_rec n s = ParseParenExpr s.
Proof.
  intros Hc Hn. unfold ParseParenExpr, enough_fuel.
  pose proof (wp_ParseParenExpr_rec _ s Hc (le_n _)) as Hwp.
  apply (stable_fuel ParseParenExpr_rec _ s _
              (fun a b H => proj1 (proj2 (parse_rec_le a b H))) Hwp); lia.
Qed.

Lemma ParseIdentifierExpr_enough n s :
  cur_token s <> token_eof -> (4 * measure s + 1 <= n)%nat ->
  ParseIdentifierExpr_rec n s = ParseIdentifierExpr s.
Proof.
  intros Hc Hn. unfold ParseIdentifierExpr, enough_fuel.
  pose proof (wp_ParseIdentifierExpr_rec _ s Hc (le_n _)) as Hwp.
  apply (stable_fuel ParseIdentifierExpr_rec _ s _
              (fun a b H => proj1 (proj2 (proj2 (parse_rec_le a b H)))) Hwp); lia.
Qed.

Lemma ParseIdentifierExpr_args_enough n args s :
  (4 * measure s + 4 <= n)%nat ->
  ParseIdentifierExpr_args_rec n args s = ParseIdentifierExpr_args args s.
Proof.
  intros Hn. unfold ParseIdentifierExpr_args, enough_fuel.
  pose proof (wp_ParseIdentifierExpr_args_rec _ args s (le_n _)) as Hwp.
  apply (stable_fuel (fun k => ParseIdentifierExpr_args_rec k args) _ s _
           (fun a b H => proj1 (proj2 (proj2 (proj2 (parse_rec_le a b H)))) args) Hwp);
    lia.
Qed.

Lemma ParseExpression_enough n s :
  (4 * measure s + 3 <= n)%nat -> ParseExpression_rec n s = ParseExpression s.
Proof.
  intros Hn. unfold ParseExpression, enough_fuel.
  pose proof (wp_ParseExpression_rec _ s (le_n _)) as Hwp.
  apply (stable_fuel ParseExpression_rec _ s _
              (fun a b H => proj1 (proj2 (proj2 (proj2 (proj2 (parse_rec_le a b H)))))) Hwp); lia.
Qed.

Lemma ParseBinOpRHS_enough n expr_prec LHS s :
  (4 * measure s + 3 <= n)%nat ->
  ParseBinOpRHS_rec n expr_prec LHS s = ParseBinOpRHS expr_prec LHS s.
Proof.
  intros Hn. unfold ParseBinOpRHS, enough_fuel.
  pose proof (wp_ParseBinOpRHS_rec _ expr_prec LHS s (le_n _)) as Hwp.
  apply (stable_fuel (fun k => ParseBinOpRHS_rec k expr_prec LHS) _ s _
              (fun a b H => proj2 (proj2 (proj2 (proj2 (proj2 (parse_rec_le a b H)))))
                              expr_prec LHS) Hwp); lia.
Qed.

(** The fuel-free functions never run out of fuel, advance the state, and
    consume a token when they succeed. *)
Lemma wp_ParsePrimary s : wp ParsePrimary s (parse_post s).
Proof. apply wp_ParsePrimary_rec. unfold enough_fuel. lia. Qed.

Lemma wp_ParseParenExpr s :
  cur_token s <> token_eof -> wp ParseParenExpr s (parse_post s).
Proof. intros Hc. apply wp_ParseParenExpr_rec; [exact Hc|unfold enough_fuel; lia]. Qed.

Lemma wp_ParseIdentifierExpr s :
  cur_token s <> token_eof -> wp ParseIdentifierExpr s (parse_post s).
Proof. intros Hc. apply wp_ParseIdentifierExpr_rec; [exact Hc|unfold enough_fuel; lia]. Qed.

Lemma wp_ParseIdentifierExpr_args args s :
  wp (ParseIdentifierExpr_args args) s (parse_post s).
Proof. apply wp_ParseIdentifierExpr_args_rec. unfold enough_fuel. lia. Qed.

Lemma wp_ParseExpression s : wp ParseExpression s (parse_post s).
Proof. apply wp_ParseExpression_rec. unfold enough_fuel. lia. Qed.

Lemma wp_ParseBinOpRHS expr_prec LHS s :
  wp (ParseBinOpRHS expr_prec LHS) s (fun _ s' => advanced s s').
Proof. apply wp_ParseBinOpRHS_rec. unfold enough_fuel. lia. Qed.

(** ** The parse functions without fuel

    Each fuel-free function satisfies the equation that is the body of the
    C++ function. *)

Lemma bind_eq {A B} (c c' : M A) (k k' : A -> M B) s :
  c s = c' s ->
  (forall a s1, c' s = Returns a s1 -> k a s1 = k' a s1) ->
  bind c k s = bind c' k' s.
Proof.
  intros Hc Hk. unfold bind. rewrite Hc.
  destruct (c' s) as [a s1| |] eqn:E; auto.
Qed.

Lemma enough_fuel_S s : enough_fuel s = S (4 * measure s + 3).
Proof. unfold enough_fuel. lia. Qed.

Ltac returns_facts H :=
  cbv beta in H;
  match type of H with
  | get _ _ = Returns _ _ => unfold get in H; injection H as <- <-
  | ret _ _ = Returns _ _ => unfold ret in H; injection H as <- <-
  | GetNextToken ?s = Returns _ _ =>
      apply (wp_Returns _ _ _ _ _ (wp_GetNextToken s)) in H
  | GetTokenPrecedence ?s = Returns _ _ =>
      apply (wp_Returns _ _ _ _ _ (wp_GetTokenPrecedence s)) in H
  | ParsePrimary ?s = Returns _ _ =>
      apply (wp_Returns _ _ _ _ _ (wp_ParsePrimary s)) in H
  | ParseExpression ?s = Returns _ _ =>
      apply (wp_Returns _ _ _ _ _ (wp_ParseExpression s)) in H
  | ParseBinOpRHS ?e ?l ?s = Returns _ _ =>
      apply (wp_Returns _ _ _ _ _ (wp_ParseBinOpRHS e l s)) in H
  | ParseIdentifierExpr_args ?a ?s = Returns _ _ =>
      apply (wp_Returns _ _ _ _ _ (wp_ParseIdentifierExpr_args a s)) in H
  | (if ?b then _ else _) _ = Returns _ _ => destruct b eqn:?; returns_facts H
  | _ => idtac
  end.

Ltac eq_step :=
  cbv beta;
  match goal with
  | |- ?x = ?x => reflexivity
  | |- bind _ _ ?s = bind _ _ ?s =>
      apply bind_eq;
      [ | let H := fresh "Hret" in intros ? ? H; returns_facts H ]
  | |- (if ?b then _ else _) ?s = (if ?b then _ else _) ?s => destruct b eqn:?
  | |- (match ?x with _ => _ end) ?s = (match ?x with _ => _ end) ?s => destruct x
  | |- ParsePrimary_rec _ _ = ParsePrimary _ =>
      apply ParsePrimary_enough; solve [measure_solve]
  | |- ParseParenExpr_rec _ _ = ParseParenExpr _ =>
      apply ParseParenExpr_enough; solve [measure_solve]
  | |- ParseIdentifierExpr_rec _ _ = ParseIdentifierExpr _ =>
      apply ParseIdentifierExpr_enough; solve [measure_solve]
  | |- ParseIdentifierExpr_args_rec _ _ _ = ParseIdentifierExpr_args _ _ =>
      apply ParseIdentifierExpr_args_enough; solve [measure_solve]
  | |- ParseExpression_rec _ _ = ParseExpression _ =>
      apply ParseExpression_enough; solve [measure_solve]
  | |- ParseBinOpRHS_rec _ _ _ _ = ParseBinOpRHS _ _ _ =>
      apply ParseBinOpRHS_enough; solve [measure_solve]
  end.

Lemma ParsePrimary_eq s :
  ParsePrimary s =
  (do t <- get cur_token;
   if t =? token_identifier then ParseIdentifierExpr
   else if t =? token_number then ParseNumberExpr
   else if t =? 40 then ParseParenExpr
   else LogError "unknown token when expecting an expression") s.
Proof.
  unfold ParsePrimary. rewrite enough_fuel_S. cbn [ParsePrimary_rec].
  repeat eq_step.
Qed.

Lemma ParseParenExpr_eq s :
  cur_token s <> token_eof ->
  ParseParenExpr s =
  (GetNextToken ;;
   do V <- ParseExpression;
   match V with
   | None => ret None
   | Some v =>
       do t <- get cur_token;
       if negb (t =? 41) then LogError "expected ')'"
       else GetNextToken ;; ret (Some v)
   end) s.
Proof.
  intros Hc. unfold ParseParenExpr. rewrite enough_fuel_S.
  cbn [ParseParenExpr_rec]. repeat eq_step.
Qed.

Lemma ParseIdentifierExpr_args_eq args s :
  ParseIdentifierExpr_args args s =
  (do arg <- ParseExpression;
   match arg with
   | None => ret None
   | Some arg =>
       let args := (args ++ [arg])%list in
       do t <- get cur_token;
       if t =? 41 then ret (Some args)
       else if negb (t =? 44)
       then LogError "Expected ')' or ',' in argument list" ;; ret None
       else GetNextToken ;; ParseIdentifierExpr_args args
   end) s.
Proof.
  unfold ParseIdentifierExpr_args at 1. rewrite enough_fuel_S.
  cbn [ParseIdentifierExpr_args_rec]. repeat eq_step.
Qed.

Lemma ParseIdentifierExpr_eq s :
  cur_token s <> token_eof ->
  ParseIdentifierExpr s =
  (do id_name <- get IDENTIFIER_STR;
   GetNextToken ;;
   do t <- get cur_token;
   if negb (t =? 40) then ret (Some (VariableExprAST id_name))
   else
     GetNextToken ;;
     do t <- get cur_token;
     do args <- (if negb (t =? 41) then ParseIdentifierExpr_args [] else ret (Some []));
     match args with
     | None => ret None
     | Some args =>
         GetNextToken ;;
         ret (Some (CallExprAST id_name args))
     end) s.
Proof.
  intros Hc. unfold ParseIdentifierExpr. rewrite enough_fuel_S.
  cbn [ParseIdentifierExpr_rec]. repeat eq_step.
Qed.

Lemma ParseExpression_eq s :
  ParseExpression s =
  (do LHS <- ParsePrimary;
   match LHS with
   | None => ret None
   | Some LHS => ParseBinOpRHS 0 LHS
   end) s.
Proof.
  unfold ParseExpression. rewrite enough_fuel_S.
  cbn [ParseExpression_rec]. repeat eq_step.
Qed.

Lemma ParseBinOpRHS_eq expr_prec LHS s :
  ParseBinOpRHS expr_prec LHS s =
  (do tok_prec <- GetTokenPrecedence;
   if tok_prec <? expr_prec then ret (Some LHS)
   else
     do binop <- get cur_token;
     GetNextToken ;;
     do RHS <- ParsePrimary;
     match RHS with
     | None => ret None
     | Some RHS =>
         do next_prec <- GetTokenPrecedence;
         do RHS <- (if tok_prec <? next_prec
                    then ParseBinOpRHS (tok_prec + 1) RHS
                    else ret (Some RHS));
         match RHS with
         | None => ret None
         | Some RHS =>
             ParseBinOpRHS expr_prec (BinaryExprAST (char_of_int binop) LHS RHS)
         end
     end) s.
Proof.
  unfold ParseBinOpRHS at 1. rewrite enough_fuel_S.
  cbn [ParseBinOpRHS_rec]. repeat eq_step.
Qed.

(** *** Prototypes, definitions and the top-level loop *)

Lemma lexer_le_measure s : (lexer_measure s <= measure s)%nat.
Proof. unfold measure. lia. Qed.

Lemma measure_eof s : cur_token s = token_eof -> measure s = lexer_measure s.
Proof. intros H. unfold measure. rewrite H. simpl. lia. Qed.

Lemma measure_not_eof s :
  cur_token s <> token_eof -> measure s = S (lexer_measure s).
Proof.
  intros H. unfold measure.
  destruct (Z.eqb_spec (cur_token s) token_eof); [contradiction|lia].
Qed.

Lemma wp_ParsePrototype_args_rec (n : nat) : forall arg_names s,
  (lexer_measure s + 1 <= n)%nat ->
  wp (ParsePrototype_args_rec n arg_names) s (fun _ s' =>
    advanced s s' /\ (cur_token s <> token_eof -> (measure s' < measure s)%nat)).
Proof.
  induction n as [|n IH]; intros arg_names s Hn; [lia|].
  cbn [ParsePrototype_args_rec]. wp_auto.
Qed.

Lemma ParsePrototype_args_rec_S (n : nat) : forall arg_names,
  refines (ParsePrototype_args_rec n arg_names)
    (ParsePrototype_args_rec (S n) arg_names).
Proof.
  induction n as [|n IH]; intros arg_names; [apply refines_OutOfFuel|].
  cbn [ParsePrototype_args_rec]. repeat refines_step.
Qed.

Lemma ParsePrototype_args_rec_le (n m : nat) arg_names :
  (n <= m)%nat ->
  refines (ParsePrototype_args_rec n arg_names) (ParsePrototype_args_rec m arg_names).
Proof.
  induction 1 as [|m Hle IH]; [apply refines_refl|].
  eapply refines_trans; [exact IH|apply ParsePrototype_args_rec_S].
Qed.

Lemma ParsePrototype_args_enough n arg_names s :
  (lexer_measure s + 1 <= n)%nat ->
  ParsePrototype_args_rec n arg_names s = ParsePrototype_args arg_names s.
Proof.
  intros Hn. unfold ParsePrototype_args, enough_fuel.
  pose proof (wp_ParsePrototype_args_rec _ arg_names s (le_n _)) as Hwp.
  pose proof (lexer_le_measure s).
  apply (stable_fuel (fun k => ParsePrototype_args_rec k arg_names) _ s _
           (fun a b H => ParsePrototype_args_rec_le a b arg_names H) Hwp); lia.
Qed.

Lemma wp_ParsePrototype_args arg_names s :
  wp (ParsePrototype_args arg_names) s (fun _ s' =>
    advanced s s' /\ (cur_token s <> token_eof -> (measure s' < measure s)%nat)).
Proof.
  apply wp_ParsePrototype_args_rec. unfold enough_fuel.
  pose proof (lexer_le_measure s). lia.
Qed.

Lemma ParsePrototype_args_eq arg_names s :
  ParsePrototype_args arg_names s =
  (do t <- GetNextToken;
   if t =? token_identifier then
     do id <- get IDENTIFIER_STR;
     ParsePrototype_args (arg_names ++ [id])%list
   else ret arg_names) s.
Proof.
  unfold ParsePrototype_args at 1. rewrite enough_fuel_S.
  cbn [ParsePrototype_args_rec]. repeat eq_step.
  apply ParsePrototype_args_enough.
  pose proof (lexer_le_measure s). measure_solve.
Qed.

Lemma ParsePrototype_eq s :
  ParsePrototype s =
  (do t <- get cur_token;
   if negb (t =? token_identifier)
   then LogErrorP "Expected function name in prototype"
   else
     do fn_name <- get IDENTIFIER_STR;
     GetNextToken ;;
     do t <- get cur_token;
     if negb (t =? 40) then LogErrorP "Expected '(' in prototype"
     else
       do arg_names <- ParsePrototype_args [];
       do t <- get cur_token;
       if negb (t =? 41) then LogErrorP "Expected ')' in prototype"
       else
         GetNextToken ;;
         ret (Some (mk_PrototypeAST fn_name arg_names))) s.
Proof.
  unfold ParsePrototype, ParsePrototype_rec. repeat eq_step.
  apply ParsePrototype_args_enough. unfold enough_fuel.
  pose proof (lexer_le_measure s). measure_solve.
Qed.

Lemma wp_eq {A} (c c' : M A) s Q : c s = c' s -> wp c' s Q -> wp c s Q.
Proof. unfold wp. intros ->. auto. Qed.

Ltac wp_api :=
  first
    [ wp_step
    | match goal with
      | |- wp ParsePrimary _ _ =>
          eapply wp_conseq; [apply wp_ParsePrimary|]; intros ? ? ?
      | |- wp ParseExpression _ _ =>
          eapply wp_conseq; [apply wp_ParseExpression|]; intros ? ? ?
      | |- wp (ParseBinOpRHS _ _) _ _ =>
          eapply wp_conseq; [apply wp_ParseBinOpRHS|]; intros ? ? ?
      | |- wp (ParsePrototype_args _) _ _ =>
          eapply wp_conseq; [apply wp_ParsePrototype_args|]; intros ? ? ?
      end ].

Lemma wp_ParsePrototype s : wp ParsePrototype s (parse_post s).
Proof.
  eapply wp_eq; [apply ParsePrototype_eq|].
  repeat wp_api; measure_solve.
Qed.

Lemma ParsePrototype_enough n s :
  (lexer_measure s + 1 <= n)%nat -> ParsePrototype_rec n s = ParsePrototype s.
Proof.
  intros Hn. rewrite ParsePrototype_eq. unfold ParsePrototype_rec.
  repeat eq_step. apply ParsePrototype_args_enough. measure_solve.
Qed.

Lemma ParseDefinition_eq s :
  ParseDefinition s =
  (GetNextToken ;;
   do Proto <- ParsePrototype;
   match Proto with
   | None => ret None
   | Some Proto =>
       do E <- ParseExpression;
       match E with
       | Some E => ret (Some (mk_FunctionAST Proto E))
       | None => ret None
       end
   end) s.
Proof.
  unfold ParseDefinition, ParseDefinition_rec, enough_fuel.
  pose proof (lexer_le_measure s).
  repeat eq_step.
  - apply ParsePrototype_enough. measure_solve.
  - apply (wp_Returns _ _ _ _ _ (wp_ParsePrototype _)) in Hret0.
    apply ParseExpression_enough. measure_solve.
Qed.

Lemma ParseExtern_eq s :
  ParseExtern s = (GetNextToken ;; ParsePrototype) s.
Proof.
  unfold ParseExtern, ParseExtern_rec, enough_fuel.
  pose proof (lexer_le_measure s).
  repeat eq_step. apply ParsePrototype_enough. measure_solve.
Qed.

Lemma ParseTopLevelExpr_eq s :
  ParseTopLevelExpr s =
  (do E <- ParseExpression;
   match E with
   | Some E =>
       let proto := mk_PrototypeAST "" [] in
       ret (Some (mk_FunctionAST proto E))
   | None => ret None
   end) s.
Proof.
  unfold ParseTopLevelExpr, ParseTopLevelExpr_rec, enough_fuel.
  repeat eq_step.
Qed.

Lemma wp_ParseDefinition s : wp ParseDefinition s (consumed s).
Proof.
  eapply wp_eq; [apply ParseDefinition_eq|]. unfold consumed.
  repeat first
    [ wp_api
    | match goal with
      | |- wp ParsePrototype _ _ =>
          eapply wp_conseq; [apply wp_ParsePrototype|]; intros ? ? ?
      end ]; measure_solve.
Qed.

Lemma wp_ParseExtern s : wp ParseExtern s (consumed s).
Proof.
  eapply wp_eq; [apply ParseExtern_eq|]. unfold consumed.
  repeat wp_api. eapply wp_conseq; [apply wp_ParsePrototype|]; intros ? ? ?.
  measure_solve.
Qed.

Lemma wp_ParseTopLevelExpr s : wp ParseTopLevelExpr s (parse_post s).
Proof.
  eapply wp_eq; [apply ParseTopLevelExpr_eq|].
  repeat wp_api; measure_solve.
Qed.

(** Skipping one token after a failed parse makes up for a parse that
    consumed nothing. *)
Lemma wp_recover {A} (r : option A) s s1 :
  cur_token s <> token_eof -> parse_post s r s1 ->
  wp (match r with
      | Some _ => fprintf ("Parsed a top-level expression" ++ newline)
      | None => GetNextToken ;; ret tt
      end) s1 (consumed s).
Proof.
  intros Hc [Hadv Hsome]. unfold consumed. destruct r as [a|].
  - wp_step. measure_solve.
  - do 3 wp_step.
    destruct (Z.eq_dec (cur_token s1) token_eof) as [He|He].
    + pose proof (measure_eof _ He). pose proof (measure_not_eof _ Hc).
      measure_solve.
    + measure_solve.
Qed.

Lemma wp_HandleDefinition s : wp HandleDefinition s (consumed s).
Proof.
  unfold HandleDefinition. wp_step.
  eapply wp_conseq; [apply wp_ParseDefinition|]. unfold consumed.
  intros r s1 H. repeat wp_step; measure_solve.
Qed.

Lemma wp_HandleExtern s : wp HandleExtern s (consumed s).
Proof.
  unfold HandleExtern. wp_step.
  eapply wp_conseq; [apply wp_ParseExtern|]. unfold consumed.
  intros r s1 H. repeat wp_step; measure_solve.
Qed.

Lemma wp_HandleTopLevelExpr s :
  cur_token s <> token_eof -> wp HandleTopLevelExpr s (consumed s).
Proof.
  intros Hc. unfold HandleTopLevelExpr. wp_step.
  eapply wp_conseq; [apply wp_ParseTopLevelExpr|].
  intros r s1 H. apply wp_recover; assumption.
Qed.

(** One pass of the loop either stops, at end of input, or goes on having
    consumed something. *)
Lemma wp_MainLoop_body s :
  wp MainLoop_body s (fun again s' =>
    advanced s s'
    /\ (again = true -> (measure s' < measure s)%nat)
    /\ (again = false -> cur_token s' = token_eof)).
Proof.
  unfold MainLoop_body. do 4 wp_step.
  destruct (Z.eqb_spec (cur_token (fprintf_stderr "ready> " s)) token_eof)
    as [He|Hc].
  { wp_step. measure_solve. }
  repeat wp_step.
  - measure_solve.
  - eapply wp_conseq; [apply wp_HandleDefinition|]. unfold consumed.
    intros; wp_step; measure_solve.
  - eapply wp_conseq; [apply wp_HandleExtern|]. unfold consumed.
    intros; wp_step; measure_solve.
  - eapply wp_conseq; [apply wp_HandleTopLevelExpr; exact Hc|]. unfold consumed.
    intros; wp_step; measure_solve.
Qed.

(** [MainLoop] ends on every input, and when it returns the current token
    is end of input. *)
Lemma wp_MainLoop_rec (n : nat) : forall s,
  (measure s + 1 <= n)%nat ->
  wp (MainLoop_rec n) s (fun _ s' => cur_token s' = token_eof).
Proof.
  induction n as [|n IH]; intros s Hn; [lia|].
  cbn [MainLoop_rec]. wp_step.
  eapply wp_conseq; [apply wp_MainLoop_body|].
  intros again s1 (Hadv & Hagain & Hstop). destruct again.
  - apply IH. specialize (Hagain eq_refl). lia.
  - wp_step. auto.
Qed.


Lemma MainLoop_rec_S (n : nat) : refines (MainLoop_rec n) (MainLoop_rec (S n)).
Proof.
  induction n as [|n IH]; [apply refines_OutOfFuel|].
  cbn [MainLoop_rec]. repeat refines_step.
Qed.

Lemma MainLoop_rec_le (n m : nat) :
  (n <= m)%nat -> refines (MainLoop_rec n) (MainLoop_rec m).
Proof.
  induction 1 as [|m Hle IH]; [apply refines_refl|].
  eapply refines_trans; [exact IH|apply MainLoop_rec_S].
Qed.

Lemma MainLoop_enough n s :
  (measure s + 1 <= n)%nat -> MainLoop_rec n s = MainLoop s.
Proof.
  intros Hn. unfold MainLoop.
  apply (stable_fuel MainLoop_rec _ s _ MainLoop_rec_le
           (wp_MainLoop_rec _ s (le_n _))); lia.
Qed.

(** [MainLoop] is the [while (true)] of the source: one pass, then the
    loop again unless the pass returned. *)
Lemma MainLoop_eq s :
  MainLoop s = (do again <- MainLoop_body; if again then MainLoop else ret tt) s.
Proof.
  unfold MainLoop at 1. cbn [MainLoop_rec].
  apply bind_eq; [reflexivity|]. intros again s1 H.
  apply (wp_Returns _ _ _ _ _ (wp_MainLoop_body s)) in H as (_ & Hlt & _).
  destruct again; [|reflexivity].
  apply MainLoop_enough. specialize (Hlt eq_refl). lia.
Qed.

(** ** Properties of the parser *)

Lemma GetTokenPrecedence_cur_token s p s0 :
  GetTokenPrecedence s = Returns p s0 -> cur_token s0 = cur_token s.
Proof.
  intros H. apply (wp_Returns _ _ _ _ _ (wp_GetTokenPrecedence s)) in H. apply H.
Qed.


(** One turn of the loop when the operator after the right operand does
    not bind tighter: the two operands are merged at once and the merged
    node is the left operand of what follows. *)
Lemma ParseBinOpRHS_merge expr_prec LHS s tok_prec s0 t s1 RHS s2 next_prec s3 :
  GetTokenPrecedence s = Returns tok_prec s0 ->
  expr_prec <= tok_prec ->
  GetNextToken s0 = Returns t s1 ->
  ParsePrimary s1 = Returns (Some RHS) s2 ->
  GetTokenPrecedence s2 = Returns next_prec s3 ->
  next_prec <= tok_prec ->
  ParseBinOpRHS expr_prec LHS s =
  ParseBinOpRHS expr_prec (BinaryExprAST (char_of_int (cur_token s)) LHS RHS) s3.
Proof.
  intros Hp Hle Ht HP Hn Hlt.
  rewrite ParseBinOpRHS_eq. unfold bind at 1. rewrite Hp.
  destruct (Z.ltb_spec tok_prec expr_prec) as [|_]; [lia|].
  unfold bind at 1, get at 1. unfold bind at 1. rewrite Ht.
  unfold bind at 1. rewrite HP. unfold bind at 1. rewrite Hn.
  destruct (Z.ltb_spec tok_prec next_prec) as [|_]; [lia|].
  unfold bind at 1, ret at 1.
  rewrite (GetTokenPrecedence_cur_token _ _ _ Hp). reflexivity.
Qed.

(** The loop stops, handing back the left operand, on a token whose
    precedence is below the minimum. *)
Lemma ParseBinOpRHS_stop expr_prec LHS s tok_prec s0 :
  GetTokenPrecedence s = Returns tok_prec s0 ->
  tok_prec < expr_prec ->
  ParseBinOpRHS expr_prec LHS s = Returns (Some LHS) s0.
Proof.
  intros Hp Hlt. rewrite ParseBinOpRHS_eq. unfold bind. rewrite Hp.
  destruct (Z.ltb_spec tok_prec expr_prec) as [_|]; [reflexivity|lia].
Qed.


(** C2. Operators of equal precedence group to the left: "1-2-3" parses
    to [((1-2)-3)]; and for every chain of operators of one precedence [p]
    that [ParseBinOpRHS] is entitled to consume ([expr_prec <= p]) and that
    ends on a token below the minimum precedence, the result is the left
    operand with the operands of the chain hung on it from the left. *)
Theorem equal_precedence_nests_left :
  parse_text ParseExpression "1-2-3"
  = Returns
      (Some (BinaryExprAST "-"%char
               (BinaryExprAST "-"%char (NumberExprAST (double_of_Z 1))
                  (NumberExprAST (double_of_Z 2)))
               (NumberExprAST (double_of_Z 3))))
      (mk_state "" [] EOF "" (double_of_Z 3) token_eof reference_table)
  /\ forall p expr_prec LHS s ops s' q s'',
       operator_chain p s ops s' ->
       expr_prec <= p ->
       GetTokenPrecedence s' = Returns q s'' ->
       q < expr_prec ->
       ParseBinOpRHS expr_prec LHS s = Returns (Some (nest_left LHS ops)) s''.
Proof.
  split; [vm_compute; reflexivity|].
  intros p expr_prec LHS s ops s' q s'' Hchain Hle Hq Hlt.
  revert LHS. induction Hchain as [s|s s0 t s1 RHS s2 next_prec s3 rest s' Hp Ht HP Hn Hnp Hrest IH];
    intros LHS.
  - apply ParseBinOpRHS_stop with (tok_prec := q); assumption.
  - rewrite (ParseBinOpRHS_merge _ _ _ _ _ _ _ _ _ _ _ Hp Hle Ht HP Hn Hnp).
    simpl. apply IH; assumption.
Qed.

(** ** Properties of the lexer, continued *)

Lemma scan_digits_app (ds : string) : forall rest acc count,
  all_digits ds = true ->
  match rest with
  | String c _ => isdigit (int_of_char c) = false
  | EmptyString => True
  end ->
  scan_digits (ds ++ rest) acc count
  = let '(m, n, _) := scan_digits ds acc count in (m, n, rest).
Proof.
  induction ds as [|c ds IH]; intros rest acc count Hds Hrest; simpl in *.
  - destruct rest as [|c rest]; [reflexivity|]. simpl. rewrite Hrest. reflexivity.
  - apply andb_true_iff in Hds as [Hc Hds]. rewrite Hc. apply IH; assumption.
Qed.

Lemma strtod_subject_second_point (a b rest : string) :
  all_digits a = true -> all_digits b = true ->
  strtod_subject (a ++ "." ++ b ++ "." ++ rest) = strtod_subject (a ++ "." ++ b).
Proof.
  intros Ha Hb. unfold strtod_subject.
  rewrite !(scan_digits_app a) by (assumption || reflexivity).
  destruct (scan_digits a 0 0%nat) as [[m1 n1] r1].
  change ("." ++ b ++ "." ++ rest) with (String "."%char (b ++ "." ++ rest)).
  change ("." ++ b) with (String "."%char b). cbv beta iota.
  rewrite (scan_digits_app b) by (assumption || reflexivity).
  destruct (scan_digits b m1 0%nat) as [[m2 n2] r2]. reflexivity.
Qed.

Lemma scan_digits_count (ds : string) : forall acc count,
  all_digits ds = true ->
  snd (fst (scan_digits ds acc count)) = (count + String.length ds)%nat.
Proof.
  induction ds as [|c ds IH]; intros acc count Hds; simpl in *.
  - lia.
  - apply andb_true_iff in Hds as [Hc Hds]. rewrite Hc, IH by assumption. lia.
Qed.

Lemma strtod_subject_digits (a b : string) :
  all_digits a = true -> all_digits b = true ->
  a <> "" \/ b <> "" ->
  strtod_subject (a ++ "." ++ b) <> None.
Proof.
  intros Ha Hb Hne. unfold strtod_subject.
  rewrite (scan_digits_app a) by (assumption || reflexivity).
  pose proof (scan_digits_count a 0 0%nat Ha) as Hna.
  destruct (scan_digits a 0 0%nat) as [[m1 n1] r1]. simpl in Hna.
  change ("." ++ b) with (String "."%char b). cbv beta iota.
  pose proof (scan_digits_count b m1 0%nat Hb) as Hnb.
  destruct (scan_digits b m1 0%nat) as [[m2 n2] r2]. simpl in Hnb.
  destruct (Nat.eqb_spec (n1 + n2) 0) as [Hz|_]; [|discriminate].
  exfalso. destruct Hne as [H|H]; apply H.
  - destruct a; [reflexivity|simpl in Hna; lia].
  - destruct b; [reflexivity|simpl in Hnb; lia].
Qed.



Lemma string_length_app (s1 s2 : string) :
  String.length (s1 ++ s2) = (String.length s1 + String.length s2)%nat.
Proof. induction s1 as [|c s1 IH]; simpl; [reflexivity|rewrite IH; reflexivity]. Qed.

Lemma char_in_comment (c : ascii) :
  negb (int_of_char c =? 10) && negb (int_of_char c =? 13) = true ->
  negb (int_of_char c =? EOF) && negb (int_of_char c =? 10)
  && negb (int_of_char c =? 13) = true.
Proof.
  intros H. pose proof (int_of_char_range c).
  destruct (Z.eqb_spec (int_of_char c) EOF) as [E|_]; [unfold EOF in E; lia|].
  exact H.
Qed.

Lemma skip_comment_line (body : string) : forall last c rest,
  no_line_end body = true ->
  negb (last =? EOF) && negb (last =? 10) && negb (last =? 13) = true ->
  int_of_char c = 10 \/ int_of_char c = 13 ->
  skip_comment (body ++ String c rest) last = (int_of_char c, rest).
Proof.
  induction body as [|b body IH]; intros last c rest Hbody Hlast Hc; simpl.
  - rewrite Hlast. destruct rest; simpl;
      (replace (negb (int_of_char c =? EOF) && negb (int_of_char c =? 10)
                && negb (int_of_char c =? 13)) with false; [reflexivity|]);
      destruct Hc as [-> | ->]; reflexivity.
  - rewrite Hlast. simpl in Hbody.
    apply andb_true_iff in Hbody as [Hb Hbody].
    apply IH; try assumption. apply char_in_comment. exact Hb.
Qed.

Lemma skip_comment_to_EOF (body : string) : forall last,
  no_line_end body = true ->
  negb (last =? EOF) && negb (last =? 10) && negb (last =? 13) = true ->
  skip_comment body last = (EOF, "").
Proof.
  induction body as [|b body IH]; intros last Hbody Hlast; simpl; rewrite Hlast.
  - reflexivity.
  - simpl in Hbody. apply andb_true_iff in Hbody as [Hb Hbody].
    apply IH; [exact Hbody|]. apply char_in_comment. exact Hb.
Qed.

Lemma GetToken_comment_line s body c rest :
  last_char s = 35 ->
  stdin s = body ++ String c rest ->
  no_line_end body = true ->
  int_of_char c = 10 \/ int_of_char c = 13 ->
  GetToken s = GetToken (set_lexer rest (int_of_char c) s).
Proof.
  intros Hlast Hin Hbody Hc. unfold GetToken at 1. cbn [GetToken_rec].
  rewrite Hlast, Hin.
  replace (skip_whitespace (body ++ String c rest) 35)
    with (35, body ++ String c rest) by (destruct body; reflexivity).
  change (isalpha 35) with false. change (isdigit 35 || (35 =? 46)) with false.
  change (35 =? 35) with true. cbv iota.
  assert (Hsk : let '(last1, inp1) := getchar (body ++ String c rest) in
                skip_comment inp1 last1 = (int_of_char c, rest)).
  { destruct body as [|b body]; simpl.
    - destruct rest; simpl;
        (replace (negb (int_of_char c =? EOF) && negb (int_of_char c =? 10)
                  && negb (int_of_char c =? 13)) with false; [reflexivity|]);
        destruct Hc as [-> | ->]; reflexivity.
    - simpl in Hbody. apply andb_true_iff in Hbody as [Hb Hbody].
      apply skip_comment_line; try assumption. apply char_in_comment. exact Hb. }
  destruct (getchar (body ++ String c rest)) as [last1 inp1].
  rewrite Hsk.
  pose proof (int_of_char_range c).
  destruct (Z.eqb_spec (int_of_char c) EOF) as [E|_]; [unfold EOF in E; lia|].
  cbv iota beta. simpl negb. cbv iota.
  apply GetToken_enough. simpl.
  rewrite string_length_app. simpl. lia.
Qed.

Lemma GetToken_comment_at_end s :
  last_char s = 35 ->
  no_line_end (stdin s) = true ->
  GetToken s = Returns token_eof (set_lexer "" EOF s).
Proof.
  intros Hlast Hbody. unfold GetToken. cbn [GetToken_rec].
  rewrite Hlast.
  replace (skip_whitespace (stdin s) 35) with (35, stdin s)
    by (destruct (stdin s); reflexivity).
  change (isalpha 35) with false. change (isdigit 35 || (35 =? 46)) with false.
  change (35 =? 35) with true. cbv iota.
  assert (Hsk : let '(last1, inp1) := getchar (stdin s) in
                skip_comment inp1 last1 = (EOF, "")).
  { destruct (stdin s) as [|b body]; simpl; [reflexivity|].
    simpl in Hbody. apply andb_true_iff in Hbody as [Hb Hbody].
    apply skip_comment_to_EOF; [exact Hbody|]. apply char_in_comment. exact Hb. }
  destruct (getchar (stdin s)) as [last1 inp1]. rewrite Hsk. reflexivity.
Qed.

Lemma GetToken_pending_space s inp l1 l2 :
  isspace l1 = true -> isspace l2 = true ->
  GetToken (set_lexer inp l1 s) = GetToken (set_lexer inp l2 s).
Proof.
  intros H1 H2. unfold GetToken. cbn [GetToken_rec stdin last_char set_lexer].
  replace (skip_whitespace inp l1) with (skip_whitespace inp l2)
    by (destruct inp; simpl; rewrite H1, H2; reflexivity).
  reflexivity.
Qed.

(** C8. Comments are transparent.  "1 # comment", a newline and "2" give
    the number token 1, then the number token 2, then end of input.  In
    general, when ['#'] is pending, the rest of the line and the newline or
    carriage return that ends it are discarded, and the token returned is the
    one found after them (as if a single space had been there); a comment
    that runs to the end of the input gives the end-of-input token. *)
Theorem comments_are_transparent :
  GetToken (initial_state ("1 # comment" ++ newline ++ "2"))
  = Returns token_number
      (mk_state ("# comment" ++ newline ++ "2") [] 32 "" (double_of_Z 1) 0 ∅)
  /\ GetToken (mk_state ("# comment" ++ newline ++ "2") [] 32 "" (double_of_Z 1) 0 ∅)
     = Returns token_number (mk_state "" [] EOF "" (double_of_Z 2) 0 ∅)
  /\ GetToken (mk_state "" [] EOF "" (double_of_Z 2) 0 ∅)
     = Returns token_eof (mk_state "" [] EOF "" (double_of_Z 2) 0 ∅)
  /\ (forall s body c rest,
        last_char s = 35 ->
        stdin s = body ++ String c rest ->
        no_line_end body = true ->
        int_of_char c = 10 \/ int_of_char c = 13 ->
        GetToken s = GetToken (set_lexer rest 32 s))
  /\ (forall s,
        last_char s = 35 ->
        no_line_end (stdin s) = true ->
        GetToken s = Returns token_eof (set_lexer "" EOF s)).
Proof.
  split; [vm_compute; reflexivity|].
  split; [vm_compute; reflexivity|].
  split; [vm_compute; reflexivity|].
  split.
  - intros s body c rest Hlast Hin Hbody Hc.
    rewrite (GetToken_comment_line s body c rest) by assumption.
    apply GetToken_pending_space; [|reflexivity].
    destruct Hc as [-> | ->]; reflexivity.
  - apply GetToken_comment_at_end.
Qed.

Lemma bind_Returns {A B} (c : M A) (k : A -> M B) s a s1 :
  c s = Returns a s1 -> bind c k s = k a s1.
Proof. intros H. unfold bind. rewrite H. reflexivity. Qed.

Lemma bind_get {A B} (f : state -> A) (k : A -> M B) s :
  bind (get f) k s = k (f s) s.
Proof. reflexivity. Qed.

Lemma GetNextToken_cur_token s t s' :
  GetNextToken s = Returns t s' -> cur_token s' = t.
Proof.
  intros H. apply (wp_Returns _ _ _ _ _ (wp_GetNextToken s)) in H. apply H.
Qed.

Lemma ParsePrototype_args_run s names s' :
  identifier_run s names s' ->
  forall arg_names,
    ParsePrototype_args arg_names s = Returns (arg_names ++ names)%list s'.
Proof.
  induction 1 as [s t s' Ht Hne|s s1 names s' Ht Hrun IH]; intros arg_names;
    rewrite ParsePrototype_args_eq, (bind_Returns _ _ _ _ _ Ht).
  - destruct (Z.eqb_spec t token_identifier) as [|_]; [contradiction|].
    rewrite app_nil_r. reflexivity.
  - change (token_identifier =? token_identifier) with true. cbv iota.
    rewrite bind_get, IH, <- app_assoc. reflexivity.
Qed.

(** C9. "def f(x y) x+y" gives the function [f] with parameters [x; y]
    and body [x+y]; "def f(x x) 1" is accepted, with the parameter list
    [x; x]; and for every definition whose prototype is an identifier, ['('],
    any run of identifier tokens and [')'], followed by an expression that
    parses, [ParseDefinition] returns the function with that name, the names
    of the run in input order (whatever they are, repeated or not) and that
    body. *)
Theorem definition_keeps_parameter_names :
  parse_text ParseDefinition "def f(x y) x+y"
  = Returns
      (Some (mk_FunctionAST (mk_PrototypeAST "f" ["x"; "y"])
               (BinaryExprAST "+"%char (VariableExprAST "x") (VariableExprAST "y"))))
      (mk_state "" [] EOF "y" (S754_zero false) token_eof reference_table)
  /\ parse_text ParseDefinition "def f(x x) 1"
     = Returns
         (Some (mk_FunctionAST (mk_PrototypeAST "f" ["x"; "x"])
                  (NumberExprAST (double_of_Z 1))))
         (mk_state "" [] EOF "x" (double_of_Z 1) token_eof reference_table)
  /\ forall s0 s1 s2 names s3 t s4 E s5,
       GetNextToken s0 = Returns token_identifier s1 ->
       GetNextToken s1 = Returns 40 s2 ->
       identifier_run s2 names s3 ->
       cur_token s3 = 41 ->
       GetNextToken s3 = Returns t s4 ->
       ParseExpression s4 = Returns (Some E) s5 ->
       ParseDefinition s0
       = Returns
           (Some (mk_FunctionAST (mk_PrototypeAST (IDENTIFIER_STR s1) names) E))
           s5.
Proof.
  split; [vm_compute; reflexivity|].
  split; [vm_compute; reflexivity|].
  intros s0 s1 s2 names s3 t s4 E s5 Hdef Hopen Hrun Hclose Heat Hbody.
  rewrite ParseDefinition_eq, (bind_Returns _ _ _ _ _ Hdef).
  assert (HP : ParsePrototype s1
               = Returns (Some (mk_PrototypeAST (IDENTIFIER_STR s1) names)) s4).
  { rewrite ParsePrototype_eq, bind_get.
    rewrite (GetNextToken_cur_token _ _ _ Hdef).
    change (negb (token_identifier =? token_identifier)) with false. cbv iota.
    rewrite bind_get, (bind_Returns _ _ _ _ _ Hopen), bind_get.
    rewrite (GetNextToken_cur_token _ _ _ Hopen).
    change (negb (40 =? 40)) with false. cbv iota.
    rewrite (bind_Returns _ _ _ _ _ (ParsePrototype_args_run _ _ _ Hrun [])).
    rewrite bind_get, Hclose.
    change (negb (41 =? 41)) with false. cbv iota.
    rewrite (bind_Returns _ _ _ _ _ Heat). reflexivity. }
  rewrite (bind_Returns _ _ _ _ _ HP), (bind_Returns _ _ _ _ _ Hbody).
  reflexivity.
Qed.

(** C10. [GetTokenPrecedence] returns -1 for every token that is not an
    ASCII character with a registered positive precedence, leaving the state
    as it is but for the table entry [operator[]] may create; for a negative
    token code (end of input, [def], [extern], identifier, number) the state
    is left untouched.  Consequently [ParseBinOpRHS], called with a minimum
    precedence that is not negative, returns its left-hand side unchanged
    on such a token, without consuming it. *)
Theorem non_operator_ends_binoprhs :
  (forall s,
     ~ (isascii (cur_token s) = true
        /\ exists v, BinopPrecedence s !! cur_token s = Some v /\ 0 < v) ->
     exists m,
       (m = BinopPrecedence s \/ m = <[cur_token s := 0]> (BinopPrecedence s))
       /\ GetTokenPrecedence s = Returns (-1) (set_BinopPrecedence m s))
  /\ (forall s, cur_token s < 0 -> GetTokenPrecedence s = Returns (-1) s)
  /\ (forall expr_prec LHS s,
        0 <= expr_prec ->
        ~ (isascii (cur_token s) = true
           /\ exists v, BinopPrecedence s !! cur_token s = Some v /\ 0 < v) ->
        exists m,
          (m = BinopPrecedence s \/ m = <[cur_token s := 0]> (BinopPrecedence s))
          /\ ParseBinOpRHS expr_prec LHS s
             = Returns (Some LHS) (set_BinopPrecedence m s))
  /\ (forall expr_prec LHS s,
        0 <= expr_prec ->
        cur_token s < 0 ->
        ParseBinOpRHS expr_prec LHS s = Returns (Some LHS) s).
Proof.
  assert (H1 : forall s,
     ~ (isascii (cur_token s) = true
        /\ exists v, BinopPrecedence s !! cur_token s = Some v /\ 0 < v) ->
     exists m,
       (m = BinopPrecedence s \/ m = <[cur_token s := 0]> (BinopPrecedence s))
       /\ GetTokenPrecedence s = Returns (-1) (set_BinopPrecedence m s)).
  { intros s Hno. unfold GetTokenPrecedence. rewrite bind_get.
    destruct (isascii (cur_token s)) eqn:Ha; simpl.
    - unfold bind, BinopPrecedence_index.
      destruct (BinopPrecedence s !! cur_token s) as [v|] eqn:Hv.
      + destruct (Z.leb_spec v 0) as [Hle|Hlt].
        * exists (BinopPrecedence s). split; [auto|]. destruct s; reflexivity.
        * exfalso. apply Hno. split; [reflexivity|]. exists v. auto.
      + simpl. eexists. split; [right; reflexivity|reflexivity].
    - exists (BinopPrecedence s). split; [auto|]. destruct s; reflexivity. }
  assert (H2 : forall s, cur_token s < 0 -> GetTokenPrecedence s = Returns (-1) s).
  { intros s Hneg. unfold GetTokenPrecedence. rewrite bind_get.
    replace (isascii (cur_token s)) with false; [reflexivity|].
    unfold isascii. lia. }
  repeat split.
  - exact H1.
  - exact H2.
  - intros expr_prec LHS s Hprec Hno. destruct (H1 s Hno) as (m & Hm & Hret).
    exists m. split; [exact Hm|].
    apply ParseBinOpRHS_stop with (tok_prec := -1); [exact Hret|lia].
  - intros expr_prec LHS s Hprec Hneg.
    apply ParseBinOpRHS_stop with (tok_prec := -1); [auto|lia].
Qed.

(** Failure of a sub-parse is the failure of the parse around it. *)
Lemma ParseExpression_primary_fails s s1 :
  ParsePrimary s = Returns None s1 -> ParseExpression s = Returns None s1.
Proof. intros H. rewrite ParseExpression_eq, (bind_Returns _ _ _ _ _ H). reflexivity. Qed.

Lemma ParseExpression_rhs_fails s LHS s1 s2 :
  ParsePrimary s = Returns (Some LHS) s1 ->
  ParseBinOpRHS 0 LHS s1 = Returns None s2 ->
  ParseExpression s = Returns None s2.
Proof. intros H1 H2. rewrite ParseExpression_eq, (bind_Returns _ _ _ _ _ H1). exact H2. Qed.

Lemma ParseParenExpr_fails s t s1 s2 :
  cur_token s <> token_eof ->
  GetNextToken s = Returns t s1 ->
  ParseExpression s1 = Returns None s2 ->
  ParseParenExpr s = Returns None s2.
Proof.
  intros Hc H1 H2.
  rewrite (ParseParenExpr_eq _ Hc), (bind_Returns _ _ _ _ _ H1),
    (bind_Returns _ _ _ _ _ H2). reflexivity.
Qed.

Lemma ParseIdentifierExpr_args_arg_fails args s s1 :
  ParseExpression s = Returns None s1 ->
  ParseIdentifierExpr_args args s = Returns None s1.
Proof.
  intros H. rewrite ParseIdentifierExpr_args_eq, (bind_Returns _ _ _ _ _ H).
  reflexivity.
Qed.

Lemma ParseBinOpRHS_primary_fails expr_prec LHS s tok_prec s0 t s1 s2 :
  GetTokenPrecedence s = Returns tok_prec s0 ->
  expr_prec <= tok_prec ->
  GetNextToken s0 = Returns t s1 ->
  ParsePrimary s1 = Returns None s2 ->
  ParseBinOpRHS expr_prec LHS s = Returns None s2.
Proof.
  intros Hp Hle Ht HP.
  rewrite ParseBinOpRHS_eq, (bind_Returns _ _ _ _ _ Hp).
  destruct (Z.ltb_spec tok_prec expr_prec) as [|_]; [lia|].
  rewrite bind_get, (bind_Returns _ _ _ _ _ Ht), (bind_Returns _ _ _ _ _ HP).
  reflexivity.
Qed.

Lemma ParseBinOpRHS_inner_fails expr_prec LHS s tok_prec s0 t s1 RHS s2 next_prec s3 s4 :
  GetTokenPrecedence s = Returns tok_prec s0 ->
  expr_prec <= tok_prec ->
  GetNextToken s0 = Returns t s1 ->
  ParsePrimary s1 = Returns (Some RHS) s2 ->
  GetTokenPrecedence s2 = Returns next_prec s3 ->
  tok_prec < next_prec ->
  ParseBinOpRHS (tok_prec + 1) RHS s3 = Returns None s4 ->
  ParseBinOpRHS expr_prec LHS s = Returns None s4.
Proof.
  intros Hp Hle Ht HP Hn Hlt HR.
  rewrite ParseBinOpRHS_eq, (bind_Returns _ _ _ _ _ Hp).
  destruct (Z.ltb_spec tok_prec expr_prec) as [|_]; [lia|].
  rewrite bind_get, (bind_Returns _ _ _ _ _ Ht), (bind_Returns _ _ _ _ _ HP),
    (bind_Returns _ _ _ _ _ Hn).
  destruct (Z.ltb_spec tok_prec next_prec) as [_|]; [|lia].
  rewrite (bind_Returns _ _ _ _ _ HR). reflexivity.
Qed.

Lemma ParseDefinition_prototype_fails s t s1 s2 :
  GetNextToken s = Returns t s1 ->
  ParsePrototype s1 = Returns None s2 ->
  ParseDefinition s = Returns None s2.
Proof.
  intros H1 H2.
  rewrite ParseDefinition_eq, (bind_Returns _ _ _ _ _ H1), (bind_Returns _ _ _ _ _ H2).
  reflexivity.
Qed.

Lemma ParseDefinition_body_fails s t s1 Proto s2 s3 :
  GetNextToken s = Returns t s1 ->
  ParsePrototype s1 = Returns (Some Proto) s2 ->
  ParseExpression s2 = Returns None s3 ->
  ParseDefinition s = Returns None s3.
Proof.
  intros H1 H2 H3.
  rewrite ParseDefinition_eq, (bind_Returns _ _ _ _ _ H1), (bind_Returns _ _ _ _ _ H2),
    (bind_Returns _ _ _ _ _ H3). reflexivity.
Qed.

Lemma ParseExtern_prototype_fails s t s1 s2 :
  GetNextToken s = Returns t s1 ->
  ParsePrototype s1 = Returns None s2 ->
  ParseExtern s = Returns None s2.
Proof.
  intros H1 H2. rewrite ParseExtern_eq, (bind_Returns _ _ _ _ _ H1). exact H2.
Qed.

Lemma ParseTopLevelExpr_fails s s1 :
  ParseExpression s = Returns None s1 -> ParseTopLevelExpr s = Returns None s1.
Proof.
  intros H. rewrite ParseTopLevelExpr_eq, (bind_Returns _ _ _ _ _ H). reflexivity.
Qed.

Lemma ParsePrimary_dispatch s :
  (cur_token s = token_identifier -> ParsePrimary s = ParseIdentifierExpr s)
  /\ (cur_token s = token_number -> ParsePrimary s = ParseNumberExpr s)
  /\ (cur_token s = 40 -> ParsePrimary s = ParseParenExpr s).
Proof.
  repeat split; intros H; rewrite ParsePrimary_eq, bind_get, H; reflexivity.
Qed.


Lemma ParseIdentifierExpr_args_fail s t1 s1 t2 s2 s3 :
  cur_token s <> token_eof ->
  GetNextToken s = Returns t1 s1 -> t1 = 40 ->
  GetNextToken s1 = Returns t2 s2 -> t2 <> 41 ->
  ParseIdentifierExpr_args [] s2 = Returns None s3 ->
  ParseIdentifierExpr s = Returns None s3.
Proof.
  intros Hc H1 -> H2 Hne Hargs.
  rewrite (ParseIdentifierExpr_eq _ Hc), bind_get, (bind_Returns _ _ _ _ _ H1), bind_get.
  rewrite (GetNextToken_cur_token _ _ _ H1).
  change (negb (40 =? 40)) with false. cbv iota.
  rewrite (bind_Returns _ _ _ _ _ H2), bind_get, (GetNextToken_cur_token _ _ _ H2).
  destruct (Z.eqb_spec t2 41) as [|_]; [contradiction|]. simpl negb. cbv iota.
  rewrite (bind_Returns _ _ _ _ _ Hargs). reflexivity.
Qed.








(** ** Diagnostics *)

Lemma post_bind {A B} (c : M A) (k : A -> M B) s Q :
  post c s (fun a s1 => post (k a) s1 Q) -> post (bind c k) s Q.
Proof. unfold post, bind. destruct (c s); auto. Qed.

Lemma post_conseq {A} (c : M A) s (Q Q' : A -> state -> Prop) :
  post c s Q -> (forall a s', Q a s' -> Q' a s') -> post c s Q'.
Proof. unfold post. destruct (c s); auto. Qed.

Lemma post_of_wp {A} (c : M A) s Q : wp c s Q -> post c s Q.
Proof. unfold wp, post. destruct (c s); auto. Qed.

Lemma post_Returns {A} (c : M A) s a s' (Q : A -> state -> Prop) :
  post c s Q -> c s = Returns a s' -> Q a s'.
Proof. unfold post. intros H E. rewrite E in H. exact H. Qed.

Lemma post_eq {A} (c c' : M A) s Q : c s = c' s -> post c' s Q -> post c s Q.
Proof. unfold post. intros ->. auto. Qed.

Lemma post_ret {A} (a : A) s (Q : A -> state -> Prop) : Q a s -> post (ret a) s Q.
Proof. auto. Qed.

Lemma post_get {A} (f : state -> A) s (Q : A -> state -> Prop) :
  Q (f s) s -> post (get f) s Q.
Proof. auto. Qed.

Lemma post_fprintf text s (Q : unit -> state -> Prop) :
  Q tt (fprintf_stderr text s) -> post (fprintf text) s Q.
Proof. auto. Qed.

Ltac post_step :=
  match goal with
  | |- post (bind _ _) _ _ => apply post_bind
  | |- post (ret _) _ _ => apply post_ret
  | |- post (get _) _ _ => apply post_get
  | |- post (fprintf _) _ _ => apply post_fprintf
  | |- post (fun _ => OutOfFuel) _ _ => exact I
  | |- post (let _ := _ in _) _ _ => cbv zeta
  | |- post (LogError _) _ _ => unfold LogError
  | |- post (LogErrorP _) _ _ => unfold LogErrorP
  | |- post (if ?b then _ else _) _ _ => destruct b eqn:?
  | |- post (match ?x with _ => _ end) _ _ => destruct x eqn:?
  | |- post GetNextToken _ _ =>
      eapply post_conseq; [apply post_of_wp, wp_GetNextToken|];
      intros ? ? (_ & _ & _ & _ & ? & _)
  | |- post GetTokenPrecedence _ _ =>
      eapply post_conseq; [apply post_of_wp, wp_GetTokenPrecedence|];
      intros ? ? (_ & _ & _ & ?)
  | IH : _ |- post _ _ _ => eapply post_conseq; [apply IH|]; intros ? ? ?
  end.

Ltac diag_solve :=
  unfold one_diagnostic in *; cbn [stderr fprintf_stderr] in *;
  repeat match goal with
  | H : _ /\ _ |- _ => destruct H
  end;
  split; intros ?; try congruence;
  repeat match goal with
  | H : ?a <> None -> _ |- _ =>
      first [ (let N := fresh in
               assert (N : a <> None) by (first [assumption | discriminate | congruence]);
               specialize (H N))
            | clear H ]
  | H : ?a = None -> _ |- _ =>
      first [ (let N := fresh in
               assert (N : a = None) by (first [assumption | reflexivity | congruence]);
               specialize (H N))
            | clear H ]
  | H : exists _, _ |- _ => destruct H
  end;
  try eexists;
  repeat match goal with
  | H : stderr ?x = _ |- context [stderr ?x] => rewrite H
  end;
  try reflexivity.

Lemma post_ParseNumberExpr s : post ParseNumberExpr s (one_diagnostic s).
Proof. unfold ParseNumberExpr. repeat post_step. diag_solve. Qed.

Lemma parse_rec_diagnostic (n : nat) :
  (forall s, post (ParsePrimary_rec n) s (one_diagnostic s))
  /\ (forall s, post (ParseParenExpr_rec n) s (one_diagnostic s))
  /\ (forall s, post (ParseIdentifierExpr_rec n) s (one_diagnostic s))
  /\ (forall args s, post (ParseIdentifierExpr_args_rec n args) s (one_diagnostic s))
  /\ (forall s, post (ParseExpression_rec n) s (one_diagnostic s))
  /\ (forall expr_prec LHS s,
        post (ParseBinOpRHS_rec n expr_prec LHS) s (one_diagnostic s)).
Proof.
  induction n as [|n (IHP & IHR & IHI & IHA & IHE & IHB)].
  { repeat split; intros; exact I. }
  repeat split; intros.
  - cbn [ParsePrimary_rec].
    repeat first
      [ match goal with
        | |- post ParseNumberExpr _ _ =>
            eapply post_conseq; [apply post_ParseNumberExpr|]; intros ? ? ?
        end
      | post_step ]; diag_solve.
  - cbn [ParseParenExpr_rec]. repeat post_step; diag_solve.
  - cbn [ParseIdentifierExpr_rec]. repeat post_step; diag_solve.
  - cbn [ParseIdentifierExpr_args_rec]. repeat post_step; diag_solve.
  - cbn [ParseExpression_rec]. repeat post_step; diag_solve.
  - cbn [ParseBinOpRHS_rec]. repeat post_step; diag_solve.
Qed.

Lemma post_ParsePrototype_args_rec (n : nat) : forall arg_names s,
  post (ParsePrototype_args_rec n arg_names) s (fun _ s' => stderr s' = stderr s).
Proof.
  induction n as [|n IH]; intros arg_names s; [exact I|].
  cbn [ParsePrototype_args_rec]. repeat post_step; congruence.
Qed.

Lemma post_ParsePrototype_rec n s :
  post (ParsePrototype_rec n) s (one_diagnostic s).
Proof.
  unfold ParsePrototype_rec.
  repeat first
    [ match goal with
      | |- post (ParsePrototype_args_rec _ _) _ _ =>
          eapply post_conseq; [apply post_ParsePrototype_args_rec|]; intros ? ? ?
      end
    | post_step ]; diag_solve.
Qed.

Lemma post_ParseExpression_rec n s :
  post (ParseExpression_rec n) s (one_diagnostic s).
Proof. apply parse_rec_diagnostic. Qed.

Ltac post_parse :=
  repeat first
    [ match goal with
      | |- post (ParsePrototype_rec _) _ _ =>
          eapply post_conseq; [apply post_ParsePrototype_rec|]; intros ? ? ?
      | |- post (ParseExpression_rec _) _ _ =>
          eapply post_conseq; [apply post_ParseExpression_rec|]; intros ? ? ?
      end
    | post_step ]; diag_solve.

Lemma post_ParseDefinition_rec n s :
  post (ParseDefinition_rec n) s (one_diagnostic s).
Proof. unfold ParseDefinition_rec. post_parse. Qed.

Lemma post_ParseExtern_rec n s :
  post (ParseExtern_rec n) s (one_diagnostic s).
Proof. unfold ParseExtern_rec. post_parse. Qed.

Lemma post_ParseTopLevelExpr_rec n s :
  post (ParseTopLevelExpr_rec n) s (one_diagnostic s).
Proof. unfold ParseTopLevelExpr_rec. post_parse. Qed.


(** ** Further properties of the lexer *)

Lemma char_of_int_of_char (c : ascii) : char_of_int (int_of_char c) = c.
Proof.
  unfold char_of_int. pose proof (int_of_char_range c) as H.
  rewrite Z.mod_small by lia. unfold int_of_char.
  rewrite N2Z.id. apply ascii_N_embedding.
Qed.

Lemma string_app_assoc (a b c : string) : (a ++ b) ++ c = a ++ b ++ c.
Proof.
  induction a as [|x a IH]; [reflexivity|].
  change (String x ((a ++ b) ++ c) = String x (a ++ b ++ c)). rewrite IH. reflexivity.
Qed.

Lemma string_app_nil_r (a : string) : a ++ "" = a.
Proof.
  induction a as [|x a IH]; [reflexivity|].
  change (String x (a ++ "") = String x a). rewrite IH. reflexivity.
Qed.

Lemma push_back_char (s : string) (c : ascii) :
  push_back s (int_of_char c) = s ++ String c "".
Proof. unfold push_back. rewrite char_of_int_of_char. reflexivity. Qed.

Lemma is_suffix_refl s : is_suffix s s.
Proof. exists "". reflexivity. Qed.

Lemma is_suffix_trans a b c : is_suffix a b -> is_suffix b c -> is_suffix a c.
Proof.
  intros [p ->] [q ->]. exists (q ++ p). rewrite string_app_assoc. reflexivity.
Qed.

Lemma is_suffix_tail c s : is_suffix s (String c s).
Proof. exists (String c ""). reflexivity. Qed.

Lemma getchar_suffix inp : is_suffix (snd (getchar inp)) inp.
Proof. destruct inp; simpl; [apply is_suffix_refl|apply is_suffix_tail]. Qed.

Lemma skip_whitespace_suffix (inp : string) : forall last,
  is_suffix (snd (skip_whitespace inp last)) inp.
Proof.
  induction inp as [|c rest IH]; intros last; simpl; destruct (isspace last);
    simpl; try apply is_suffix_refl.
  eapply is_suffix_trans; [apply IH|apply is_suffix_tail].
Qed.

Lemma scan_identifier_suffix (inp : string) : forall id,
  is_suffix (snd (scan_identifier inp id)) inp.
Proof.
  induction inp as [|c rest IH]; intros id; simpl; [apply is_suffix_refl|].
  destruct (isalnum (int_of_char c)); simpl; [|apply is_suffix_tail].
  eapply is_suffix_trans; [apply IH|apply is_suffix_tail].
Qed.

Lemma scan_number_suffix (inp : string) : forall last num_str,
  is_suffix (snd (scan_number inp last num_str)) inp.
Proof.
  induction inp as [|c rest IH]; intros last num_str; simpl;
    destruct (isdigit last || (last =? 46)); simpl; try apply is_suffix_refl.
  eapply is_suffix_trans; [apply IH|apply is_suffix_tail].
Qed.

Lemma skip_comment_suffix (inp : string) : forall last,
  is_suffix (snd (skip_comment inp last)) inp.
Proof.
  induction inp as [|c rest IH]; intros last; simpl;
    destruct (negb (last =? EOF) && negb (last =? 10) && negb (last =? 13));
    simpl; try apply is_suffix_refl.
  eapply is_suffix_trans; [apply IH|apply is_suffix_tail].
Qed.

(** What a call of the lexer may change: it reads on in the input, and
    it writes [last_char], [IDENTIFIER_STR] and [NUM_VAL] only. *)
Lemma GetToken_rec_reads_forward (fuel : nat) : forall s,
  match GetToken_rec fuel s with
  | Returns _ s' | Throws _ s' =>
      is_suffix (stdin s') (stdin s) /\ same_parser_state s s'
  | OutOfFuel => True
  end.
Proof.
  induction fuel as [|fuel IH]; intros s; [exact I|].
  cbn [GetToken_rec].
  pose proof (skip_whitespace_suffix (stdin s) (last_char s)) as Hws.
  destruct (skip_whitespace (stdin s) (last_char s)) as [last inp]. simpl in Hws.
  destruct (isalpha last).
  { pose proof (scan_identifier_suffix inp (String (char_of_int last) "")) as Hid.
    destruct (scan_identifier inp (String (char_of_int last) "")) as [[last' id] inp'].
    simpl in Hid.
    assert (is_suffix inp' (stdin s)) by (eapply is_suffix_trans; eassumption).
    destruct (String.eqb id "def"); [|destruct (String.eqb id "extern")];
      (split; [assumption|repeat split]). }
  destruct (isdigit last || (last =? 46)).
  { pose proof (getchar_suffix inp) as Hg.
    destruct (getchar inp) as [last1 inp1]. simpl in Hg.
    pose proof (scan_number_suffix inp1 last1 (push_back "" last)) as Hn.
    destruct (scan_number inp1 last1 (push_back "" last)) as [[last' num] inp'].
    simpl in Hn.
    assert (is_suffix inp' (stdin s))
      by (eapply is_suffix_trans; [|eassumption]; eapply is_suffix_trans; eassumption).
    destruct (stod num); (split; [assumption|repeat split]). }
  destruct (last =? 35).
  { pose proof (getchar_suffix inp) as Hg.
    destruct (getchar inp) as [last1 inp1]. simpl in Hg.
    pose proof (skip_comment_suffix inp1 last1) as Hc.
    destruct (skip_comment inp1 last1) as [last' inp']. simpl in Hc.
    assert (Hsuf : is_suffix inp' (stdin s))
      by (eapply is_suffix_trans; [|eassumption]; eapply is_suffix_trans; eassumption).
    destruct (last' =? EOF) eqn:He; simpl.
    - split; [assumption|repeat split].
    - specialize (IH (set_lexer inp' last' s)).
      destruct (GetToken_rec fuel (set_lexer inp' last' s)) as [t s'|e s'|];
        [| |exact I];
        (destruct IH as (H1 & H2); split;
         [eapply is_suffix_trans; [exact H1|exact Hsuf]|exact H2]). }
  simpl. destruct (last =? EOF).
  { split; [assumption|repeat split]. }
  pose proof (getchar_suffix inp) as Hg.
  destruct (getchar inp) as [last' inp']. simpl in Hg.
  split; [eapply is_suffix_trans; eassumption|repeat split].
Qed.

Lemma GetToken_forward s :
  GetToken s <> OutOfFuel
  /\ (forall t s', GetToken s = Returns t s' ->
        is_suffix (stdin s') (stdin s) /\ same_parser_state s s')
  /\ (forall e s', GetToken s = Throws e s' ->
        is_suffix (stdin s') (stdin s) /\ same_parser_state s s').
Proof.
  unfold GetToken.
  pose proof (GetToken_rec_spec (S (String.length (stdin s))) s (Nat.lt_succ_diag_r _)) as Ht.
  pose proof (GetToken_rec_reads_forward (S (String.length (stdin s))) s) as Hf.
  destruct (GetToken_rec (S (String.length (stdin s))) s) as [t s'|e s'|].
  - split; [discriminate|]. split; intros ? ? [=]; subst; exact Hf.
  - split; [discriminate|]. split; intros ? ? [=]; subst; exact Hf.
  - elim Ht.
Qed.

(** X1. The lexer only reads forward and keeps out of the parser's state:
    whether [GetToken] returns or throws, the input left is a suffix of
    the input it found, and [stderr], [cur_token] and [BinopPrecedence] are
    as before; and it always does one of the two. *)
Theorem GetToken_reads_forward s :
  GetToken s <> OutOfFuel
  /\ (forall t s', GetToken s = Returns t s' ->
        is_suffix (stdin s') (stdin s) /\ same_parser_state s s')
  /\ (forall e s', GetToken s = Throws e s' ->
        is_suffix (stdin s') (stdin s) /\ same_parser_state s s').
Proof. exact (GetToken_forward s). Qed.

Lemma set_lexer_same s : set_lexer (stdin s) (last_char s) s = s.
Proof. destruct s; reflexivity. Qed.

Lemma GetToken_at_EOF s :
  last_char s = EOF -> GetToken s = Returns token_eof s.
Proof.
  intros H. unfold GetToken. cbn [GetToken_rec]. rewrite H.
  replace (skip_whitespace (stdin s) EOF) with (EOF, stdin s)
    by (destruct (stdin s); reflexivity).
  cbn. rewrite <- H. rewrite set_lexer_same. reflexivity.
Qed.

Lemma GetToken_rec_eof (fuel : nat) : forall s s',
  GetToken_rec fuel s = Returns token_eof s' -> last_char s' = EOF.
Proof.
  induction fuel as [|fuel IH]; intros s s'; [discriminate|].
  cbn [GetToken_rec].
  destruct (skip_whitespace (stdin s) (last_char s)) as [last inp].
  destruct (isalpha last).
  { destruct (scan_identifier inp (String (char_of_int last) "")) as [[last' id] inp'].
    destruct (String.eqb id "def"); [|destruct (String.eqb id "extern")];
      intros H; inversion H. }
  destruct (isdigit last || (last =? 46)).
  { destruct (getchar inp) as [last1 inp1].
    destruct (scan_number inp1 last1 (push_back "" last)) as [[last' num] inp'].
    destruct (stod num); [discriminate|]. intros H. inversion H. }
  destruct (last =? 35).
  { destruct (getchar inp) as [last1 inp1].
    destruct (skip_comment inp1 last1) as [last' inp'].
    destruct (Z.eqb_spec last' EOF) as [He|He]; simpl.
    - intros [= <-]. exact He.
    - apply IH. }
  simpl. destruct (Z.eqb_spec last EOF) as [He|He].
  { intros [= <-]. exact He. }
  destruct (getchar inp) as [last' inp']. intros [= H _].
  unfold token_eof, EOF in *. contradiction.
Qed.

(** X2. End of input is final for the lexer: when [GetToken] returns the
    end-of-input token it leaves [EOF] in [last_char], and every later call
    returns that token again and changes nothing. *)
Theorem GetToken_eof_is_final s s' :
  GetToken s = Returns token_eof s' ->
  last_char s' = EOF /\ GetToken s' = Returns token_eof s'.
Proof.
  intros H. apply GetToken_rec_eof in H.
  split; [exact H|apply GetToken_at_EOF; exact H].
Qed.

Lemma skip_whitespace_byte (inp : string) : forall last,
  -1 <= last < 256 -> -1 <= fst (skip_whitespace inp last) < 256.
Proof.
  induction inp as [|c rest IH]; intros last Hl; simpl; destruct (isspace last);
    simpl; try (unfold EOF; lia).
  apply IH. pose proof (int_of_char_range c). lia.
Qed.

Lemma scan_identifier_byte (inp : string) : forall id,
  -1 <= fst (fst (scan_identifier inp id)) < 256.
Proof.
  induction inp as [|c rest IH]; intros id; simpl; [unfold EOF; lia|].
  destruct (isalnum (int_of_char c)); simpl; [apply IH|].
  pose proof (int_of_char_range c). lia.
Qed.

Lemma scan_number_byte (inp : string) : forall last num_str,
  -1 <= last < 256 -> -1 <= fst (fst (scan_number inp last num_str)) < 256.
Proof.
  induction inp as [|c rest IH]; intros last num_str Hl; simpl;
    destruct (isdigit last || (last =? 46)); simpl; try (unfold EOF; lia).
  apply IH. pose proof (int_of_char_range c). lia.
Qed.

Lemma skip_comment_byte (inp : string) : forall last,
  -1 <= last < 256 -> -1 <= fst (skip_comment inp last) < 256.
Proof.
  induction inp as [|c rest IH]; intros last Hl; simpl;
    destruct (negb (last =? EOF) && negb (last =? 10) && negb (last =? 13));
    simpl; try (unfold EOF; lia).
  apply IH. pose proof (int_of_char_range c). lia.
Qed.

Lemma getchar_byte inp : -1 <= fst (getchar inp) < 256.
Proof.
  destruct inp as [|c rest]; simpl; [unfold EOF; lia|].
  pose proof (int_of_char_range c). lia.
Qed.

Lemma skip_whitespace_stops (inp : string) : forall last,
  isspace (fst (skip_whitespace inp last)) = false.
Proof.
  intros last. destruct (skip_whitespace inp last) as [l i] eqn:E.
  apply skip_whitespace_pending in E. apply E.
Qed.

Lemma GetToken_rec_token (fuel : nat) : forall s t s',
  GetToken_rec fuel s = Returns t s' ->
  (-1 <= last_char s < 256 -> -1 <= last_char s' < 256 /\ -5 <= t < 256)
  /\ (0 <= t ->
      isspace t = false /\ isalnum t = false /\ t <> 46 /\ t <> 35).
Proof.
  induction fuel as [|fuel IH]; intros s t s'; [discriminate|].
  cbn [GetToken_rec].
  pose proof (skip_whitespace_byte (stdin s) (last_char s)) as Hb.
  pose proof (skip_whitespace_stops (stdin s) (last_char s)) as Hsp.
  destruct (skip_whitespace (stdin s) (last_char s)) as [last inp].
  simpl in Hb, Hsp.
  destruct (isalpha last) eqn:Ha.
  { pose proof (scan_identifier_byte inp (String (char_of_int last) "")) as Hi.
    destruct (scan_identifier inp (String (char_of_int last) "")) as [[last' id] inp'].
    simpl in Hi.
    destruct (String.eqb id "def"); [|destruct (String.eqb id "extern")];
      intros [= <- <-]; simpl;
      (split; [intros _; unfold token_def, token_extern, token_identifier; lia
              |unfold token_def, token_extern, token_identifier; lia]). }
  destruct (isdigit last || (last =? 46)) eqn:Hd.
  { pose proof (getchar_byte inp) as Hg.
    destruct (getchar inp) as [last1 inp1]. simpl in Hg.
    pose proof (scan_number_byte inp1 last1 (push_back "" last) Hg) as Hn.
    destruct (scan_number inp1 last1 (push_back "" last)) as [[last' num] inp'].
    simpl in Hn.
    destruct (stod num); [discriminate|]. intros [= <- <-]. simpl.
    split; [intros _; unfold token_number; lia|unfold token_number; lia]. }
  destruct (last =? 35) eqn:H35.
  { pose proof (getchar_byte inp) as Hg.
    destruct (getchar inp) as [last1 inp1]. simpl in Hg.
    pose proof (skip_comment_byte inp1 last1 Hg) as Hc.
    destruct (skip_comment inp1 last1) as [last' inp']. simpl in Hc.
    destruct (Z.eqb_spec last' EOF) as [He|He]; simpl.
    - intros [= <- <-]. simpl.
      split; [intros _; unfold token_eof; lia|unfold token_eof; lia].
    - intros H. apply IH in H as [H1 H2]. split; [|exact H2].
      intros _. apply H1. simpl. exact Hc. }
  simpl. destruct (Z.eqb_spec last EOF) as [He|He].
  { intros [= <- <-]. simpl.
    split; [intros Hl; specialize (Hb Hl); unfold token_eof; lia|unfold token_eof; lia]. }
  pose proof (getchar_byte inp) as Hg.
  destruct (getchar inp) as [last' inp']. simpl in Hg.
  intros [= <- <-]. simpl. split.
  - intros Hl. specialize (Hb Hl). lia.
  - intros _. apply Z.eqb_neq in H35. apply orb_false_iff in Hd as [Hd H46].
    apply Z.eqb_neq in H46. unfold isalnum. rewrite Ha, Hd. auto.
Qed.

(** X3. What tokens there are.  A token that is a character code is never
    white space, a letter, a digit, ['.'] or ['#']: those start or are
    eaten by an identifier, a number or a comment.  When [last_char] holds
    a byte or [EOF] (as it does from the start on), the token is one of the
    five codes of [enum Token] or a byte, and [last_char] holds a byte or
    [EOF] afterwards. *)
Theorem GetToken_token_classes s t s' :
  GetToken s = Returns t s' ->
  (0 <= t -> isspace t = false /\ isalnum t = false /\ t <> 46 /\ t <> 35)
  /\ (-1 <= last_char s < 256 ->
      -1 <= last_char s' < 256
      /\ (t = token_eof \/ t = token_def \/ t = token_extern
          \/ t = token_identifier \/ t = token_number \/ 0 <= t < 256)).
Proof.
  intros H. apply GetToken_rec_token in H as [H1 H2].
  split; [exact H2|]. intros Hl. destruct (H1 Hl) as [Hl' Ht].
  split; [exact Hl'|].
  unfold token_eof, token_def, token_extern, token_identifier, token_number. lia.
Qed.

Lemma skip_whitespace_none (inp : string) (last : Z) :
  isspace last = false -> skip_whitespace inp last = (last, inp).
Proof. intros H. destruct inp; simpl; rewrite H; reflexivity. Qed.

Lemma scan_identifier_run (w : string) : forall id rest,
  all_alnum w = true -> stops isalnum rest ->
  scan_identifier (w ++ rest) id
  = (fst (getchar rest), id ++ w, snd (getchar rest)).
Proof.
  induction w as [|c w IH]; intros id rest Hw Hrest.
  - change ("" ++ rest) with rest. rewrite string_app_nil_r.
    destruct rest as [|r rest]; [reflexivity|]. simpl in *. rewrite Hrest. reflexivity.
  - simpl in Hw. apply andb_true_iff in Hw as [Hc Hw].
    change (String c w ++ rest) with (String c (w ++ rest)).
    cbn [scan_identifier]. rewrite Hc, IH by assumption.
    rewrite push_back_char, string_app_assoc. reflexivity.
Qed.

(** X4. Identifiers are read whole.  When a letter is pending, followed by
    letters and digits up to a character that is neither (or to the end of
    the input), [GetToken] takes exactly that word: it stores it in
    [IDENTIFIER_STR], leaves the character after it pending, and returns the
    keyword token when the whole word is "def" or "extern", the identifier
    token otherwise. *)
Theorem GetToken_identifier s c w rest :
  last_char s = int_of_char c ->
  isalpha (int_of_char c) = true ->
  all_alnum w = true ->
  stops isalnum rest ->
  stdin s = w ++ rest ->
  GetToken s
  = Returns
      (if String.eqb (String c w) "def" then token_def
       else if String.eqb (String c w) "extern" then token_extern
       else token_identifier)
      (set_IDENTIFIER_STR (String c w)
         (set_lexer (snd (getchar rest)) (fst (getchar rest)) s)).
Proof.
  intros Hlast Ha Hw Hrest Hin. unfold GetToken. cbn [GetToken_rec].
  rewrite Hlast, Hin.
  rewrite skip_whitespace_none by (revert Ha; unfold isalpha, isspace; lia).
  rewrite Ha, char_of_int_of_char, scan_identifier_run by assumption.
  change (String c "" ++ w) with (String c w).
  destruct (String.eqb (String c w) "def"); [reflexivity|].
  destruct (String.eqb (String c w) "extern"); reflexivity.
Qed.

Lemma scan_number_stop (inp : string) (last : Z) (num_str : string) :
  isdigit last || (last =? 46) = false ->
  scan_number inp last num_str = (last, num_str, inp).
Proof. intros H. destruct inp; simpl; rewrite H; reflexivity. Qed.

Lemma scan_number_run (w : string) : forall c num_str rest,
  isdigit (int_of_char c) || (int_of_char c =? 46) = true ->
  all_numeric w = true ->
  stops (fun z => isdigit z || (z =? 46)) rest ->
  scan_number (w ++ rest) (int_of_char c) num_str
  = (fst (getchar rest), num_str ++ String c w, snd (getchar rest)).
Proof.
  induction w as [|c' w IH]; intros c num_str rest Hc Hw Hrest.
  - change ("" ++ rest) with rest.
    destruct rest as [|r rest]; simpl; rewrite Hc, push_back_char; [reflexivity|].
    simpl in Hrest. rewrite scan_number_stop by exact Hrest. reflexivity.
  - simpl in Hw. apply andb_true_iff in Hw as [Hc' Hw].
    change (String c' w ++ rest) with (String c' (w ++ rest)).
    cbn [scan_number]. rewrite Hc, IH by assumption.
    rewrite push_back_char, string_app_assoc. reflexivity.
Qed.

Lemma GetToken_number_run s c w rest :
  last_char s = int_of_char c ->
  isdigit (int_of_char c) || (int_of_char c =? 46) = true ->
  all_numeric w = true ->
  stops (fun z => isdigit z || (z =? 46)) rest ->
  stdin s = w ++ rest ->
  GetToken s
  = match stod (String c w) with
    | inr d =>
        Returns token_number
          (set_NUM_VAL d (set_lexer (snd (getchar rest)) (fst (getchar rest)) s))
    | inl e => Throws e (set_lexer (snd (getchar rest)) (fst (getchar rest)) s)
    end.
Proof.
  intros Hlast Hc Hw Hrest Hin. unfold GetToken. cbn [GetToken_rec].
  rewrite Hlast, Hin.
  rewrite skip_whitespace_none
    by (revert Hc; unfold isdigit, isspace; lia).
  replace (isalpha (int_of_char c)) with false
    by (revert Hc; unfold isdigit, isalpha; lia).
  rewrite Hc, push_back_char. change ("" ++ String c "") with (String c "").
  assert (Hscan : let '(last1, inp1) := getchar (w ++ rest) in
                  scan_number inp1 last1 (String c "")
                  = (fst (getchar rest), String c w, snd (getchar rest))).
  { destruct w as [|c' w].
    - change ("" ++ rest) with rest.
      destruct rest as [|r rest]; [reflexivity|]. simpl in Hrest. simpl.
      apply scan_number_stop. exact Hrest.
    - simpl in Hw. apply andb_true_iff in Hw as [Hc' Hw].
      change (String c' w ++ rest) with (String c' (w ++ rest)). simpl getchar.
      cbv beta iota. rewrite scan_number_run by assumption. reflexivity. }
  destruct (getchar (w ++ rest)) as [last1 inp1]. rewrite Hscan.
  destruct (stod (String c w)); reflexivity.
Qed.

(** C3, as the code has it.  The numeric-parse step does not fail on a
    misplaced point: on "1.2.3" [GetToken] consumes the whole text and
    returns the number token carrying 1.2, the value of the prefix "1.2";
    for every text whose digits are interrupted by a second point,
    [std::stod] gives what it gives on the text cut before that point, and
    that is no [std::invalid_argument] as soon as one digit comes before the
    second point; only a text that starts with two points cannot be
    converted.  So [GetToken], on a run of digits and points with a second
    point, ends as the conversion of the prefix before that point ends: with
    the number token carrying the prefix value, or with the exception the
    prefix alone raises, which is [std::out_of_range] for 1 followed by 309
    zeros and ".2.3".  The value carried for "1.2.3" is the binary64 number
    5404319552844595 * 2^-52, the [double] nearest to 1.2. *)
Theorem stod_truncates_at_second_point :
  GetToken (initial_state "1.2.3")
  = Returns token_number (mk_state "" [] EOF "" (double_of_decimal 12 1) 0 ∅)
  /\ (forall a b rest,
        all_digits a = true -> all_digits b = true ->
        stod (a ++ "." ++ b ++ "." ++ rest) = stod (a ++ "." ++ b))
  /\ (forall a b rest,
        all_digits a = true -> all_digits b = true ->
        a <> "" \/ b <> "" ->
        stod (a ++ "." ++ b ++ "." ++ rest) <> inl invalid_argument)
  /\ (forall rest, stod (".." ++ rest) = inl invalid_argument)
  /\ (forall s c w rest a b r,
        last_char s = int_of_char c ->
        isdigit (int_of_char c) || (int_of_char c =? 46) = true ->
        all_numeric w = true ->
        stops (fun z => isdigit z || (z =? 46)) rest ->
        stdin s = w ++ rest ->
        String c w = a ++ "." ++ b ++ "." ++ r ->
        all_digits a = true -> all_digits b = true ->
        GetToken s
        = match stod (a ++ "." ++ b) with
          | inr d =>
              Returns token_number
                (set_NUM_VAL d
                   (set_lexer (snd (getchar rest)) (fst (getchar rest)) s))
          | inl e =>
              Throws e (set_lexer (snd (getchar rest)) (fst (getchar rest)) s)
          end)
  /\ GetToken (initial_state ("1" ++ zeros 309 ++ ".2.3"))
     = Throws out_of_range (mk_state "" [] EOF "" (S754_zero false) 0 ∅)
  /\ double_of_decimal 12 1 = S754_finite false 5404319552844595 (-52).
Proof.
  split; [vm_compute; reflexivity|].
  assert (Hcut : forall a b rest,
            all_digits a = true -> all_digits b = true ->
            stod (a ++ "." ++ b ++ "." ++ rest) = stod (a ++ "." ++ b)).
  { intros a b rest Ha Hb. unfold stod.
    rewrite strtod_subject_second_point by assumption. reflexivity. }
  split; [exact Hcut|].
  split; [|split; [|split]].
  - intros a b rest Ha Hb Hne. unfold stod.
    rewrite strtod_subject_second_point by assumption.
    pose proof (strtod_subject_digits a b Ha Hb Hne) as Hsome.
    destruct (strtod_subject (a ++ "." ++ b)) as [[m k]|]; [|contradiction].
    destruct (double_of_decimal m k); try discriminate;
      destruct (_ && _); discriminate.
  - intros rest. reflexivity.
  - intros s c w rest a b r Hlast Hc Hw Hrest Hin Htext Ha Hb.
    rewrite (GetToken_number_run s c w rest Hlast Hc Hw Hrest Hin), Htext.
    rewrite (Hcut a b r Ha Hb). reflexivity.
  - split; vm_compute; reflexivity.
Qed.

(** X5. Numbers are read whole.  When a digit or a point is pending,
    followed by digits and points up to a character that is neither (or to
    the end of the input), [GetToken] hands exactly that text to
    [std::stod] and leaves the character after it pending: it returns the
    number token with the converted value in [NUM_VAL], or the exception of
    [std::stod] leaves it, with [NUM_VAL] as it was. *)
Theorem GetToken_number s c w rest :
  last_char s = int_of_char c ->
  isdigit (int_of_char c) || (int_of_char c =? 46) = true ->
  all_numeric w = true ->
  stops (fun z => isdigit z || (z =? 46)) rest ->
  stdin s = w ++ rest ->
  GetToken s
  = match stod (String c w) with
    | inr d =>
        Returns token_number
          (set_NUM_VAL d (set_lexer (snd (getchar rest)) (fst (getchar rest)) s))
    | inl e => Throws e (set_lexer (snd (getchar rest)) (fst (getchar rest)) s)
    end.
Proof. exact (GetToken_number_run s c w rest). Qed.

Lemma skip_whitespace_blank (inp : string) : forall last,
  isspace last = true -> all_space inp = true ->
  skip_whitespace inp last = (EOF, "").
Proof.
  induction inp as [|c rest IH]; intros last Hl Hs; simpl; rewrite Hl; [reflexivity|].
  simpl in Hs. apply andb_true_iff in Hs as [Hc Hs]. apply IH; assumption.
Qed.

(** X6. Blank input is end of input: with white space pending and
    nothing but white space (or nothing at all) left to read, [GetToken]
    reads it all and returns the end-of-input token. *)
Theorem GetToken_blank_input s :
  isspace (last_char s) = true ->
  all_space (stdin s) = true ->
  GetToken s = Returns token_eof (set_lexer "" EOF s).
Proof.
  intros Hl Hs. unfold GetToken. cbn [GetToken_rec].
  rewrite skip_whitespace_blank by assumption. reflexivity.
Qed.

Lemma all_points_numeric (w : string) :
  all_points w = true -> all_numeric w = true.
Proof.
  induction w as [|c w IH]; [reflexivity|]. simpl.
  intros H. apply andb_true_iff in H as [-> H].
  rewrite orb_true_r, IH by assumption. reflexivity.
Qed.

Lemma strtod_subject_points (w : string) :
  all_points w = true -> strtod_subject (String "."%char w) = None.
Proof.
  intros Hw. unfold strtod_subject.
  change (scan_digits (String "."%char w) 0 0) with (0, 0%nat, String "."%char w).
  cbv beta iota.
  destruct w as [|c w]; [reflexivity|]. simpl in Hw.
  apply andb_true_iff in Hw as [Hc _]. apply Z.eqb_eq in Hc.
  cbn [scan_digits]. rewrite Hc. reflexivity.
Qed.

(** X8. Any other character is its own token: when the pending
    character is neither white space, a letter, a digit, ['.'], ['#'] nor
    end of input, [GetToken] returns its code and reads exactly one
    character ahead. *)
Theorem GetToken_character s :
  isspace (last_char s) = false -> isalpha (last_char s) = false ->
  isdigit (last_char s) = false -> last_char s <> 46 ->
  last_char s <> 35 -> last_char s <> EOF ->
  GetToken s
  = Returns (last_char s)
      (set_lexer (snd (getchar (stdin s))) (fst (getchar (stdin s))) s).
Proof.
  intros Hsp Hal Hdi Hpt Hsh Heof. unfold GetToken. cbn [GetToken_rec].
  rewrite (skip_whitespace_none _ _ Hsp), Hal, Hdi.
  destruct (Z.eqb_spec (last_char s) 46) as [|_]; [contradiction|].
  destruct (Z.eqb_spec (last_char s) 35) as [|_]; [contradiction|].
  cbn [orb]. cbv beta iota.
  destruct (Z.eqb_spec (last_char s) EOF) as [|_]; [contradiction|].
  destruct (getchar (stdin s)); reflexivity.
Qed.

(** X9. A number text without a digit is not caught: on a ['.']
    followed by points only, [std::stod] throws [std::invalid_argument],
    and the exception leaves [GetToken] and [GetNextToken] after the whole
    run of points has been read, the current token being left as it
    was. *)
Theorem points_without_digit_throw s w rest :
  last_char s = 46 ->
  all_points w = true ->
  stops (fun z => isdigit z || (z =? 46)) rest ->
  stdin s = w ++ rest ->
  stod (String "."%char w) = inl invalid_argument
  /\ GetToken s
     = Throws invalid_argument
         (set_lexer (snd (getchar rest)) (fst (getchar rest)) s)
  /\ GetNextToken s
     = Throws invalid_argument
         (set_lexer (snd (getchar rest)) (fst (getchar rest)) s).
Proof.
  intros Hlast Hw Hrest Hin.
  assert (Hstod : stod (String "."%char w) = inl invalid_argument).
  { unfold stod. rewrite (strtod_subject_points _ Hw). reflexivity. }
  assert (HG : GetToken s
               = Throws invalid_argument
                   (set_lexer (snd (getchar rest)) (fst (getchar rest)) s)).
  { rewrite (GetToken_number_run s "."%char w rest Hlast eq_refl
               (all_points_numeric _ Hw) Hrest Hin), Hstod. reflexivity. }
  repeat match goal with |- _ /\ _ => split end; [exact Hstod|exact HG|].
  unfold GetNextToken, bind. rewrite HG. reflexivity.
Qed.

(** ** Further properties of the parser *)

Lemma precedence_of_insert_zero (m : gmap Z Z) (k c : Z) :
  m !! k = None -> precedence_of (<[k := 0]> m) c = precedence_of m c.
Proof.
  intros Hk. unfold precedence_of. destruct (Z.eq_dec k c) as [->|Hne].
  - rewrite lookup_insert_eq, Hk. reflexivity.
  - rewrite lookup_insert_ne by exact Hne. reflexivity.
Qed.

Lemma GetTokenPrecedence_cases s :
  (isascii (cur_token s) = false /\ GetTokenPrecedence s = Returns (-1) s)
  \/ (isascii (cur_token s) = true
      /\ BinopPrecedence s !! cur_token s = None
      /\ GetTokenPrecedence s
         = Returns (-1)
             (set_BinopPrecedence (<[cur_token s := 0]> (BinopPrecedence s)) s))
  \/ (isascii (cur_token s) = true
      /\ (exists v, BinopPrecedence s !! cur_token s = Some v)
      /\ GetTokenPrecedence s
         = Returns (precedence_of (BinopPrecedence s) (cur_token s)) s).
Proof.
  unfold GetTokenPrecedence. rewrite bind_get.
  destruct (isascii (cur_token s)) eqn:Ha; cbn [negb]; cbv beta iota;
    [|left; auto].
  right. unfold bind, BinopPrecedence_index, precedence_of.
  destruct (BinopPrecedence s !! cur_token s) as [v|] eqn:Hv.
  - right. split; [reflexivity|]. split; [eauto|].
    destruct (v <=? 0); reflexivity.
  - left. auto.
Qed.

(** X10. Looking up a precedence.  [GetTokenPrecedence] returns -1 for a
    token that is not ASCII and otherwise what [precedence_of] reads off the
    table for the current token, which is -1 or positive.  A look-up may
    enter the token in the table with the value 0, but that changes the
    precedence of no character; and asked again, [GetTokenPrecedence] gives
    the same answer and changes nothing any more. *)
Theorem GetTokenPrecedence_lookup s p s' :
  GetTokenPrecedence s = Returns p s' ->
  p = (if isascii (cur_token s)
       then precedence_of (BinopPrecedence s) (cur_token s) else -1)
  /\ (p = -1 \/ 0 < p)
  /\ (forall c, precedence_of (BinopPrecedence s') c
                = precedence_of (BinopPrecedence s) c)
  /\ GetTokenPrecedence s' = Returns p s'.
Proof.
  intros H.
  assert (Hrange : forall m c, precedence_of m c = -1 \/ 0 < precedence_of m c).
  { intros m c. unfold precedence_of. destruct (m !! c) as [v|]; [|auto].
    destruct (Z.leb_spec v 0); [auto|right; lia]. }
  destruct (GetTokenPrecedence_cases s) as [(Ha & E)|[(Ha & Hn & E)|(Ha & (v & Hv) & E)]];
    rewrite E in H; injection H as <- <-; rewrite Ha.
  - repeat split; auto.
  - unfold precedence_of at 1. rewrite Hn. repeat split; auto.
    + intros c. simpl. apply precedence_of_insert_zero. exact Hn.
    + destruct (GetTokenPrecedence_cases
                  (set_BinopPrecedence (<[cur_token s := 0]> (BinopPrecedence s)) s))
        as [(Ha' & E')|[(Ha' & Hn' & E')|(Ha' & _ & E')]]; simpl in *.
      * congruence.
      * rewrite lookup_insert_eq in Hn'. discriminate.
      * rewrite E'. unfold precedence_of. rewrite lookup_insert_eq. reflexivity.
  - repeat split; auto.
Qed.

Lemma parser_frame_refl s : parser_frame s s.
Proof.
  split; [apply is_suffix_refl|]. split; [exists []; symmetry; apply app_nil_r|auto].
Qed.

Lemma parser_frame_trans s1 s2 s3 :
  parser_frame s1 s2 -> parser_frame s2 s3 -> parser_frame s1 s3.
Proof.
  intros (Hs1 & (l1 & Hl1) & Hp1) (Hs2 & (l2 & Hl2) & Hp2). split; [|split].
  - eapply is_suffix_trans; eassumption.
  - exists (l1 ++ l2)%list. rewrite Hl2, Hl1, app_assoc. reflexivity.
  - intros c. rewrite Hp2. apply Hp1.
Qed.

Lemma framed_bind {A B} (c : M A) (k : A -> M B) :
  framed c -> (forall a, framed (k a)) -> framed (bind c k).
Proof.
  intros Hc Hk s. unfold post, bind. specialize (Hc s). unfold post in Hc.
  destruct (c s) as [a s1| |]; [|exact I|exact I].
  specialize (Hk a s1). unfold post in Hk.
  destruct (k a s1) as [b s2| |]; [|exact I|exact I].
  eapply parser_frame_trans; eassumption.
Qed.

Lemma framed_ret {A} (a : A) : framed (ret a).
Proof. intros s. apply parser_frame_refl. Qed.

Lemma framed_get {A} (f : state -> A) : framed (get f).
Proof. intros s. apply parser_frame_refl. Qed.

Lemma framed_fprintf text : framed (fprintf text).
Proof.
  intros s. split; [apply is_suffix_refl|]. split; [exists [text]; reflexivity|auto].
Qed.

Lemma framed_OutOfFuel {A} : framed (fun _ => @OutOfFuel A).
Proof. intros s. exact I. Qed.

Lemma framed_GetNextToken : framed GetNextToken.
Proof.
  intros s. unfold post, GetNextToken, bind.
  destruct (GetToken_forward s) as (_ & Hr & _).
  destruct (GetToken s) as [t s'| |]; [|exact I|exact I].
  destruct (Hr t s' eq_refl) as (Hsuf & Herr & _ & Htab).
  split; [exact Hsuf|]. split; simpl.
  - exists []. rewrite Herr. symmetry. apply app_nil_r.
  - intros c. rewrite Htab. reflexivity.
Qed.

Lemma framed_GetTokenPrecedence : framed GetTokenPrecedence.
Proof.
  intros s. unfold post.
  destruct (GetTokenPrecedence_cases s) as [(_ & E)|[(_ & Hn & E)|(_ & _ & E)]];
    rewrite E; try apply parser_frame_refl.
  split; [apply is_suffix_refl|]. split; [exists []; symmetry; apply app_nil_r|].
  intros c. simpl. apply precedence_of_insert_zero. exact Hn.
Qed.

Ltac framed_step :=
  match goal with
  | |- framed (bind _ _) => apply framed_bind; [|intros ?]
  | |- framed (ret _) => apply framed_ret
  | |- framed (get _) => apply framed_get
  | |- framed (fprintf _) => apply framed_fprintf
  | |- framed (fun _ => OutOfFuel) => apply framed_OutOfFuel
  | |- framed GetNextToken => apply framed_GetNextToken
  | |- framed GetTokenPrecedence => apply framed_GetTokenPrecedence
  | |- framed (let _ := _ in _) => cbv zeta
  | |- framed (LogError _) => unfold LogError
  | |- framed (LogErrorP _) => unfold LogErrorP
  | |- framed ParseNumberExpr => unfold ParseNumberExpr
  | |- framed (if ?b then _ else _) => destruct b
  | |- framed (match ?x with _ => _ end) => destruct x
  | H : _ |- framed _ => apply H
  end.

Lemma parse_rec_framed (n : nat) :
  framed (ParsePrimary_rec n)
  /\ framed (ParseParenExpr_rec n)
  /\ framed (ParseIdentifierExpr_rec n)
  /\ (forall args, framed (ParseIdentifierExpr_args_rec n args))
  /\ framed (ParseExpression_rec n)
  /\ (forall expr_prec LHS, framed (ParseBinOpRHS_rec n expr_prec LHS)).
Proof.
  induction n as [|n (IHP & IHR & IHI & IHA & IHE & IHB)].
  { repeat match goal with |- _ /\ _ => split end; intros; apply framed_OutOfFuel. }
  repeat match goal with |- _ /\ _ => split end; intros.
  - cbn [ParsePrimary_rec]. repeat framed_step.
  - cbn [ParseParenExpr_rec]. repeat framed_step.
  - cbn [ParseIdentifierExpr_rec]. repeat framed_step.
  - cbn [ParseIdentifierExpr_args_rec]. repeat framed_step.
  - cbn [ParseExpression_rec]. repeat framed_step.
  - cbn [ParseBinOpRHS_rec]. repeat framed_step.
Qed.

Lemma framed_ParsePrototype_args_rec (n : nat) : forall arg_names,
  framed (ParsePrototype_args_rec n arg_names).
Proof.
  induction n as [|n IH]; intros arg_names; [apply framed_OutOfFuel|].
  cbn [ParsePrototype_args_rec]. repeat framed_step.
Qed.

Lemma framed_ParsePrototype_rec n : framed (ParsePrototype_rec n).
Proof.
  unfold ParsePrototype_rec.
  repeat first [apply framed_ParsePrototype_args_rec | framed_step].
Qed.

Lemma framed_ParseExpression_rec n : framed (ParseExpression_rec n).
Proof. apply parse_rec_framed. Qed.

Lemma framed_ParseDefinition_rec n : framed (ParseDefinition_rec n).
Proof.
  unfold ParseDefinition_rec.
  repeat first [apply framed_ParsePrototype_rec | apply framed_ParseExpression_rec
               | framed_step].
Qed.

Lemma framed_ParseExtern_rec n : framed (ParseExtern_rec n).
Proof.
  unfold ParseExtern_rec. repeat first [apply framed_ParsePrototype_rec | framed_step].
Qed.

Lemma framed_ParseTopLevelExpr_rec n : framed (ParseTopLevelExpr_rec n).
Proof.
  unfold ParseTopLevelExpr_rec.
  repeat first [apply framed_ParseExpression_rec | framed_step].
Qed.

Lemma framed_enough {A} (f : nat -> M A) :
  (forall n, framed (f n)) -> framed (fun s => f (enough_fuel s) s).
Proof. intros H s. apply (H (enough_fuel s) s). Qed.

Lemma framed_MainLoop_body : framed MainLoop_body.
Proof.
  unfold MainLoop_body, HandleDefinition, HandleExtern, HandleTopLevelExpr.
  repeat first
    [ apply (framed_enough _ framed_ParseDefinition_rec)
    | apply (framed_enough _ framed_ParseExtern_rec)
    | apply (framed_enough _ framed_ParseTopLevelExpr_rec)
    | framed_step ].
Qed.

Lemma framed_MainLoop_rec (n : nat) : framed (MainLoop_rec n).
Proof.
  induction n as [|n IH]; [apply framed_OutOfFuel|].
  cbn [MainLoop_rec]. repeat first [apply framed_MainLoop_body | framed_step].
Qed.

Lemma framed_MainLoop : framed MainLoop.
Proof. intros s. apply (framed_MainLoop_rec (S (measure s)) s). Qed.

Lemma framed_keeps_precedences {A} (f : M A) : framed f -> keeps_precedences f.
Proof.
  intros H s r s' E. specialize (H s). unfold post in H. rewrite E in H. apply H.
Qed.

Lemma framed_reads_forward {A} (f : M A) : framed f -> reads_forward f.
Proof.
  intros H s r s' E. specialize (H s). unfold post in H. rewrite E in H.
  destruct H as (H1 & H2 & _). auto.
Qed.

(** X11. The operator table is read only, in effect: whatever is parsed,
    and whether it parses or not, afterwards every character has the
    precedence it had before.  The entries [BinopPrecedence[c]] creates for
    characters that are no operators carry 0 and count as no entry. *)
Theorem parser_keeps_precedences :
  keeps_precedences ParsePrimary
  /\ keeps_precedences ParseExpression
  /\ (forall expr_prec LHS, keeps_precedences (ParseBinOpRHS expr_prec LHS))
  /\ keeps_precedences ParsePrototype
  /\ keeps_precedences ParseDefinition
  /\ keeps_precedences ParseExtern
  /\ keeps_precedences ParseTopLevelExpr
  /\ keeps_precedences MainLoop.
Proof.
  repeat match goal with |- _ /\ _ => split end; intros;
    apply framed_keeps_precedences.
  - apply (framed_enough ParsePrimary_rec). apply parse_rec_framed.
  - apply (framed_enough ParseExpression_rec). apply parse_rec_framed.
  - apply (framed_enough (fun n => ParseBinOpRHS_rec n expr_prec LHS)).
    intros n. apply parse_rec_framed.
  - apply (framed_enough _ framed_ParsePrototype_rec).
  - apply (framed_enough _ framed_ParseDefinition_rec).
  - apply (framed_enough _ framed_ParseExtern_rec).
  - apply (framed_enough _ framed_ParseTopLevelExpr_rec).
  - apply framed_MainLoop.
Qed.

(** X12. The parser never goes back: whatever is parsed, and whether it
    parses or not, the input left afterwards is a suffix of the input found,
    and what was written to [stderr] before is still there, with the new
    lines after it. *)
Theorem parser_reads_forward :
  reads_forward GetNextToken
  /\ reads_forward ParsePrimary
  /\ reads_forward ParseExpression
  /\ (forall expr_prec LHS, reads_forward (ParseBinOpRHS expr_prec LHS))
  /\ reads_forward ParsePrototype
  /\ reads_forward ParseDefinition
  /\ reads_forward ParseExtern
  /\ reads_forward ParseTopLevelExpr
  /\ reads_forward MainLoop.
Proof.
  repeat match goal with |- _ /\ _ => split end; intros;
    apply framed_reads_forward.
  - apply framed_GetNextToken.
  - apply (framed_enough ParsePrimary_rec). apply parse_rec_framed.
  - apply (framed_enough ParseExpression_rec). apply parse_rec_framed.
  - apply (framed_enough (fun n => ParseBinOpRHS_rec n expr_prec LHS)).
    intros n. apply parse_rec_framed.
  - apply (framed_enough _ framed_ParsePrototype_rec).
  - apply (framed_enough _ framed_ParseDefinition_rec).
  - apply (framed_enough _ framed_ParseExtern_rec).
  - apply (framed_enough _ framed_ParseTopLevelExpr_rec).
  - apply framed_MainLoop.
Qed.

(** ** Exceptions

    The only exceptions are those of [std::stod], thrown inside [GetToken];
    the parser has no handler, and logs nothing on the way out. *)

Lemma bind_Throws {A B} (c : M A) (k : A -> M B) s e s1 :
  c s = Throws e s1 -> bind c k s = Throws e s1.
Proof. intros H. unfold bind. rewrite H. reflexivity. Qed.

Lemma post_exn_bind {A B} (c : M A) (k : A -> M B) s Q T :
  post_exn c s (fun a s1 => post_exn (k a) s1 Q T) T -> post_exn (bind c k) s Q T.
Proof. unfold post_exn, bind. destruct (c s); auto. Qed.

Lemma post_exn_conseq {A} (c : M A) s (Q Q' : A -> state -> Prop) (T T' : state -> Prop) :
  post_exn c s Q T ->
  (forall a s', Q a s' -> Q' a s') -> (forall s', T s' -> T' s') ->
  post_exn c s Q' T'.
Proof. unfold post_exn. destruct (c s); auto. Qed.

Lemma post_exn_Throws {A} (c : M A) s e s' Q (T : state -> Prop) :
  post_exn c s Q T -> c s = Throws e s' -> T s'.
Proof. unfold post_exn. intros H E. rewrite E in H. exact H. Qed.

Lemma post_exn_ret {A} (a : A) s (Q : A -> state -> Prop) T :
  Q a s -> post_exn (ret a) s Q T.
Proof. auto. Qed.

Lemma post_exn_get {A} (f : state -> A) s (Q : A -> state -> Prop) T :
  Q (f s) s -> post_exn (get f) s Q T.
Proof. auto. Qed.

Lemma post_exn_fprintf text s (Q : unit -> state -> Prop) T :
  Q tt (fprintf_stderr text s) -> post_exn (fprintf text) s Q T.
Proof. auto. Qed.

Lemma post_exn_GetNextToken s :
  post_exn GetNextToken s
    (fun _ s' => stderr s' = stderr s) (fun s' => stderr s' = stderr s).
Proof.
  unfold post_exn, GetNextToken, bind.
  destruct (GetToken_forward s) as (_ & Hr & Ht).
  destruct (GetToken s) as [t s'|e s'|]; [| |exact I].
  - destruct (Hr t s' eq_refl) as (_ & Herr & _). exact Herr.
  - destruct (Ht e s' eq_refl) as (_ & Herr & _). exact Herr.
Qed.

Lemma post_exn_GetTokenPrecedence s :
  post_exn GetTokenPrecedence s
    (fun _ s' => stderr s' = stderr s) (fun s' => stderr s' = stderr s).
Proof.
  unfold post_exn.
  destruct (GetTokenPrecedence_cases s) as [(_ & E)|[(_ & _ & E)|(_ & _ & E)]];
    rewrite E; reflexivity.
Qed.

Ltac exn_step :=
  match goal with
  | |- post_exn (bind _ _) _ _ _ => apply post_exn_bind
  | |- post_exn (ret _) _ _ _ => apply post_exn_ret
  | |- post_exn (get _) _ _ _ => apply post_exn_get
  | |- post_exn (fprintf _) _ _ _ => apply post_exn_fprintf
  | |- post_exn (fun _ => OutOfFuel) _ _ _ => exact I
  | |- post_exn (let _ := _ in _) _ _ _ => cbv zeta
  | |- post_exn (LogError _) _ _ _ => unfold LogError
  | |- post_exn (LogErrorP _) _ _ _ => unfold LogErrorP
  | |- post_exn (if ?b then _ else _) _ _ _ => destruct b eqn:?
  | |- post_exn (match ?x with _ => _ end) _ _ _ => destruct x eqn:?
  | |- post_exn GetNextToken _ _ _ =>
      eapply post_exn_conseq;
        [apply post_exn_GetNextToken | intros ? ? ? | intros ? ?]
  | |- post_exn GetTokenPrecedence _ _ _ =>
      eapply post_exn_conseq;
        [apply post_exn_GetTokenPrecedence | intros ? ? ? | intros ? ?]
  | IH : _ |- post_exn _ _ _ _ =>
      eapply post_exn_conseq; [apply IH | intros ? ? ? | intros ? ?]
  end.

Ltac exn_solve :=
  cbv beta;
  lazymatch goal with
  | |- _ = _ =>
      unfold one_diagnostic in *; cbn [stderr fprintf_stderr] in *;
      repeat match goal with
      | H : _ /\ _ |- _ => destruct H
      end;
      repeat match goal with
      | H : ?a <> None -> _ |- _ =>
          first [ (let N := fresh in
                   assert (N : a <> None)
                     by (first [assumption | discriminate | congruence]);
                   specialize (H N))
                | clear H ]
      | H : ?a = None -> _ |- _ => clear H
      end;
      congruence
  | |- _ => diag_solve
  end.

Lemma exn_ParseNumberExpr s :
  post_exn ParseNumberExpr s (one_diagnostic s) (fun s' => stderr s' = stderr s).
Proof. unfold ParseNumberExpr. repeat exn_step; exn_solve. Qed.

Lemma parse_rec_exn (n : nat) :
  (forall s, post_exn (ParsePrimary_rec n) s
               (one_diagnostic s) (fun s' => stderr s' = stderr s))
  /\ (forall s, post_exn (ParseParenExpr_rec n) s
                  (one_diagnostic s) (fun s' => stderr s' = stderr s))
  /\ (forall s, post_exn (ParseIdentifierExpr_rec n) s
                  (one_diagnostic s) (fun s' => stderr s' = stderr s))
  /\ (forall args s, post_exn (ParseIdentifierExpr_args_rec n args) s
                       (one_diagnostic s) (fun s' => stderr s' = stderr s))
  /\ (forall s, post_exn (ParseExpression_rec n) s
                  (one_diagnostic s) (fun s' => stderr s' = stderr s))
  /\ (forall expr_prec LHS s,
        post_exn (ParseBinOpRHS_rec n expr_prec LHS) s
          (one_diagnostic s) (fun s' => stderr s' = stderr s)).
Proof.
  induction n as [|n (IHP & IHR & IHI & IHA & IHE & IHB)].
  { repeat split; intros; exact I. }
  repeat split; intros.
  - cbn [ParsePrimary_rec].
    repeat first
      [ match goal with
        | |- post_exn ParseNumberExpr _ _ _ =>
            eapply post_exn_conseq;
              [apply exn_ParseNumberExpr | intros ? ? ? | intros ? ?]
        end
      | exn_step ]; exn_solve.
  - cbn [ParseParenExpr_rec]. repeat exn_step; exn_solve.
  - cbn [ParseIdentifierExpr_rec]. repeat exn_step; exn_solve.
  - cbn [ParseIdentifierExpr_args_rec]. repeat exn_step; exn_solve.
  - cbn [ParseExpression_rec]. repeat exn_step; exn_solve.
  - cbn [ParseBinOpRHS_rec]. repeat exn_step; exn_solve.
Qed.

Lemma exn_ParsePrototype_args_rec (n : nat) : forall arg_names s,
  post_exn (ParsePrototype_args_rec n arg_names) s
    (fun _ s' => stderr s' = stderr s) (fun s' => stderr s' = stderr s).
Proof.
  induction n as [|n IH]; intros arg_names s; [exact I|].
  cbn [ParsePrototype_args_rec]. repeat exn_step; cbv beta in *; congruence.
Qed.

Lemma exn_ParsePrototype_rec n s :
  post_exn (ParsePrototype_rec n) s
    (one_diagnostic s) (fun s' => stderr s' = stderr s).
Proof.
  unfold ParsePrototype_rec.
  repeat first
    [ match goal with
      | |- post_exn (ParsePrototype_args_rec _ _) _ _ _ =>
          eapply post_exn_conseq;
            [apply exn_ParsePrototype_args_rec | intros ? ? ? | intros ? ?]
      end
    | exn_step ]; exn_solve.
Qed.

Ltac exn_parse :=
  repeat first
    [ match goal with
      | |- post_exn (ParsePrototype_rec _) _ _ _ =>
          eapply post_exn_conseq;
            [apply exn_ParsePrototype_rec | intros ? ? ? | intros ? ?]
      | |- post_exn (ParseExpression_rec _) _ _ _ =>
          eapply post_exn_conseq;
            [apply (proj1 (proj2 (proj2 (proj2 (proj2 (parse_rec_exn _))))))
            | intros ? ? ? | intros ? ?]
      end
    | exn_step ]; exn_solve.

Lemma exn_ParseDefinition_rec n s :
  post_exn (ParseDefinition_rec n) s
    (one_diagnostic s) (fun s' => stderr s' = stderr s).
Proof. unfold ParseDefinition_rec. exn_parse. Qed.

Lemma exn_ParseExtern_rec n s :
  post_exn (ParseExtern_rec n) s
    (one_diagnostic s) (fun s' => stderr s' = stderr s).
Proof. unfold ParseExtern_rec. exn_parse. Qed.

Lemma exn_ParseTopLevelExpr_rec n s :
  post_exn (ParseTopLevelExpr_rec n) s
    (one_diagnostic s) (fun s' => stderr s' = stderr s).
Proof. unfold ParseTopLevelExpr_rec. exn_parse. Qed.

(** C6, as the code has it.  A parse function that returns the null
    pointer has written exactly one error line to [stderr]; one that
    succeeds has written nothing.  And the failure of a sub-parse (a
    primary, a right-hand side, an argument, a parenthesised expression, a
    prototype, a body) is the failure of the function that called it: the
    caller returns the null pointer in the state the sub-parse left, and
    builds no node.  The other way out of a parse function is the exception
    [std::stod] throws inside [GetToken]: nothing catches it, a parse
    function that is left by it has written nothing to [stderr] and returns
    nothing, and an exception that leaves a sub-parse or [GetNextToken]
    leaves the calling function, up to [MainLoop], in the same state. *)
Theorem failure_is_logged_once_and_propagated :
  ((forall s r s', ParsePrimary s = Returns r s' -> one_diagnostic s r s')
   /\ (forall s r s', ParseParenExpr s = Returns r s' -> one_diagnostic s r s')
   /\ (forall s r s', ParseIdentifierExpr s = Returns r s' -> one_diagnostic s r s')
   /\ (forall s r s', ParseExpression s = Returns r s' -> one_diagnostic s r s')
   /\ (forall expr_prec LHS s r s',
         ParseBinOpRHS expr_prec LHS s = Returns r s' -> one_diagnostic s r s')
   /\ (forall s r s', ParsePrototype s = Returns r s' -> one_diagnostic s r s')
   /\ (forall s r s', ParseDefinition s = Returns r s' -> one_diagnostic s r s')
   /\ (forall s r s', ParseExtern s = Returns r s' -> one_diagnostic s r s')
   /\ (forall s r s', ParseTopLevelExpr s = Returns r s' -> one_diagnostic s r s'))
  /\ ((forall s,
         (cur_token s = token_identifier -> ParsePrimary s = ParseIdentifierExpr s)
         /\ (cur_token s = token_number -> ParsePrimary s = ParseNumberExpr s)
         /\ (cur_token s = 40 -> ParsePrimary s = ParseParenExpr s))
      /\ (forall s t s1 s2,
            cur_token s <> token_eof ->
            GetNextToken s = Returns t s1 ->
            ParseExpression s1 = Returns None s2 ->
            ParseParenExpr s = Returns None s2)
      /\ (forall args s s1,
            ParseExpression s = Returns None s1 ->
            ParseIdentifierExpr_args args s = Returns None s1)
      /\ (forall s s1 t s2 s3,
            cur_token s = token_identifier ->
            GetNextToken s = Returns 40 s1 ->
            GetNextToken s1 = Returns t s2 -> t <> 41 ->
            ParseIdentifierExpr_args [] s2 = Returns None s3 ->
            ParseIdentifierExpr s = Returns None s3)
      /\ (forall s s1,
            ParsePrimary s = Returns None s1 -> ParseExpression s = Returns None s1)
      /\ (forall s LHS s1 s2,
            ParsePrimary s = Returns (Some LHS) s1 ->
            ParseBinOpRHS 0 LHS s1 = Returns None s2 ->
            ParseExpression s = Returns None s2)
      /\ (forall expr_prec LHS s tok_prec s0 t s1 s2,
            GetTokenPrecedence s = Returns tok_prec s0 ->
            expr_prec <= tok_prec ->
            GetNextToken s0 = Returns t s1 ->
            ParsePrimary s1 = Returns None s2 ->
            ParseBinOpRHS expr_prec LHS s = Returns None s2)
      /\ (forall expr_prec LHS s tok_prec s0 t s1 RHS s2 next_prec s3 s4,
            GetTokenPrecedence s = Returns tok_prec s0 ->
            expr_prec <= tok_prec ->
            GetNextToken s0 = Returns t s1 ->
            ParsePrimary s1 = Returns (Some RHS) s2 ->
            GetTokenPrecedence s2 = Returns next_prec s3 ->
            tok_prec < next_prec ->
            ParseBinOpRHS (tok_prec + 1) RHS s3 = Returns None s4 ->
            ParseBinOpRHS expr_prec LHS s = Returns None s4)
      /\ (forall s t s1 s2,
            GetNextToken s = Returns t s1 ->
            ParsePrototype s1 = Returns None s2 ->
            ParseDefinition s = Returns None s2)
      /\ (forall s t s1 Proto s2 s3,
            GetNextToken s = Returns t s1 ->
            ParsePrototype s1 = Returns (Some Proto) s2 ->
            ParseExpression s2 = Returns None s3 ->
            ParseDefinition s = Returns None s3)
      /\ (forall s t s1 s2,
            GetNextToken s = Returns t s1 ->
            ParsePrototype s1 = Returns None s2 ->
            ParseExtern s = Returns None s2)
      /\ (forall s s1,
            ParseExpression s = Returns None s1 ->
            ParseTopLevelExpr s = Returns None s1))
  /\ ((forall s e s', ParsePrimary s = Throws e s' -> stderr s' = stderr s)
      /\ (forall s e s', ParseParenExpr s = Throws e s' -> stderr s' = stderr s)
      /\ (forall s e s', ParseIdentifierExpr s = Throws e s' -> stderr s' = stderr s)
      /\ (forall s e s', ParseExpression s = Throws e s' -> stderr s' = stderr s)
      /\ (forall expr_prec LHS s e s',
            ParseBinOpRHS expr_prec LHS s = Throws e s' -> stderr s' = stderr s)
      /\ (forall s e s', ParsePrototype s = Throws e s' -> stderr s' = stderr s)
      /\ (forall s e s', ParseDefinition s = Throws e s' -> stderr s' = stderr s)
      /\ (forall s e s', ParseExtern s = Throws e s' -> stderr s' = stderr s)
      /\ (forall s e s', ParseTopLevelExpr s = Throws e s' -> stderr s' = stderr s))
  /\ ((forall s e s1,
         ParsePrimary s = Throws e s1 -> ParseExpression s = Throws e s1)
      /\ (forall s LHS s1 e s2,
            ParsePrimary s = Returns (Some LHS) s1 ->
            ParseBinOpRHS 0 LHS s1 = Throws e s2 ->
            ParseExpression s = Throws e s2)
      /\ (forall expr_prec LHS s tok_prec s0 e s1,
            GetTokenPrecedence s = Returns tok_prec s0 ->
            expr_prec <= tok_prec ->
            GetNextToken s0 = Throws e s1 ->
            ParseBinOpRHS expr_prec LHS s = Throws e s1)
      /\ (forall expr_prec LHS s tok_prec s0 t s1 e s2,
            GetTokenPrecedence s = Returns tok_prec s0 ->
            expr_prec <= tok_prec ->
            GetNextToken s0 = Returns t s1 ->
            ParsePrimary s1 = Throws e s2 ->
            ParseBinOpRHS expr_prec LHS s = Throws e s2)
      /\ (forall s e s1,
            cur_token s <> token_eof ->
            GetNextToken s = Throws e s1 ->
            ParseParenExpr s = Throws e s1)
      /\ (forall s t s1 e s2,
            cur_token s <> token_eof ->
            GetNextToken s = Returns t s1 ->
            ParseExpression s1 = Throws e s2 ->
            ParseParenExpr s = Throws e s2)
      /\ (forall args s e s1,
            ParseExpression s = Throws e s1 ->
            ParseIdentifierExpr_args args s = Throws e s1)
      /\ (forall s e s1,
            GetNextToken s = Throws e s1 -> ParseDefinition s = Throws e s1)
      /\ (forall s t s1 e s2,
            GetNextToken s = Returns t s1 ->
            ParsePrototype s1 = Throws e s2 ->
            ParseDefinition s = Throws e s2)
      /\ (forall s t s1 Proto s2 e s3,
            GetNextToken s = Returns t s1 ->
            ParsePrototype s1 = Returns (Some Proto) s2 ->
            ParseExpression s2 = Throws e s3 ->
            ParseDefinition s = Throws e s3)
      /\ (forall s e s1,
            ParseExpression s = Throws e s1 -> ParseTopLevelExpr s = Throws e s1)
      /\ (forall s e s1,
            ParseTopLevelExpr s = Throws e s1 ->
            HandleTopLevelExpr s = Throws e s1)
      /\ (forall s e s1,
            MainLoop_body s = Throws e s1 -> MainLoop s = Throws e s1)).
Proof.
  split; [|split; [|split]].
  - repeat match goal with |- _ /\ _ => split end;
      intros until s'; apply post_Returns.
    + apply parse_rec_diagnostic.
    + apply parse_rec_diagnostic.
    + apply parse_rec_diagnostic.
    + apply parse_rec_diagnostic.
    + apply parse_rec_diagnostic.
    + apply post_ParsePrototype_rec.
    + apply post_ParseDefinition_rec.
    + apply post_ParseExtern_rec.
    + apply post_ParseTopLevelExpr_rec.
  - split; [exact ParsePrimary_dispatch|].
    split; [exact ParseParenExpr_fails|].
    split; [exact ParseIdentifierExpr_args_arg_fails|].
    split.
    { intros s s1 t s2 s3 Hc H1 H2 Hne Hargs.
      apply (ParseIdentifierExpr_args_fail s 40 s1 t s2 s3); try assumption;
        [rewrite Hc; discriminate|reflexivity]. }
    split; [exact ParseExpression_primary_fails|].
    split; [exact ParseExpression_rhs_fails|].
    split; [exact ParseBinOpRHS_primary_fails|].
    split; [exact ParseBinOpRHS_inner_fails|].
    split; [exact ParseDefinition_prototype_fails|].
    split; [exact ParseDefinition_body_fails|].
    split; [exact ParseExtern_prototype_fails|exact ParseTopLevelExpr_fails].
  - repeat match goal with |- _ /\ _ => split end;
      intros until s';
      apply (post_exn_Throws _ s e s' (one_diagnostic s) (fun x => stderr x = stderr s)).
    + apply parse_rec_exn.
    + apply parse_rec_exn.
    + apply parse_rec_exn.
    + apply parse_rec_exn.
    + apply parse_rec_exn.
    + apply exn_ParsePrototype_rec.
    + apply exn_ParseDefinition_rec.
    + apply exn_ParseExtern_rec.
    + apply exn_ParseTopLevelExpr_rec.
  - repeat match goal with |- _ /\ _ => split end.
    + intros s e s1 H. rewrite ParseExpression_eq. apply bind_Throws, H.
    + intros s LHS s1 e s2 H1 H2.
      rewrite ParseExpression_eq, (bind_Returns _ _ _ _ _ H1). exact H2.
    + intros expr_prec LHS s tok_prec s0 e s1 Hp Hle Ht.
      rewrite ParseBinOpRHS_eq, (bind_Returns _ _ _ _ _ Hp).
      destruct (Z.ltb_spec tok_prec expr_prec) as [|_]; [lia|].
      rewrite bind_get. apply bind_Throws, Ht.
    + intros expr_prec LHS s tok_prec s0 t s1 e s2 Hp Hle Ht HP.
      rewrite ParseBinOpRHS_eq, (bind_Returns _ _ _ _ _ Hp).
      destruct (Z.ltb_spec tok_prec expr_prec) as [|_]; [lia|].
      rewrite bind_get, (bind_Returns _ _ _ _ _ Ht). apply bind_Throws, HP.
    + intros s e s1 Hc H. rewrite (ParseParenExpr_eq _ Hc). apply bind_Throws, H.
    + intros s t s1 e s2 Hc H1 H2.
      rewrite (ParseParenExpr_eq _ Hc), (bind_Returns _ _ _ _ _ H1).
      apply bind_Throws, H2.
    + intros args s e s1 H. rewrite ParseIdentifierExpr_args_eq.
      apply bind_Throws, H.
    + intros s e s1 H. rewrite ParseDefinition_eq. apply bind_Throws, H.
    + intros s t s1 e s2 H1 H2.
      rewrite ParseDefinition_eq, (bind_Returns _ _ _ _ _ H1). apply bind_Throws, H2.
    + intros s t s1 Proto s2 e s3 H1 H2 H3.
      rewrite ParseDefinition_eq, (bind_Returns _ _ _ _ _ H1),
        (bind_Returns _ _ _ _ _ H2).
      apply bind_Throws, H3.
    + intros s e s1 H. rewrite ParseTopLevelExpr_eq. apply bind_Throws, H.
    + intros s e s1 H. unfold HandleTopLevelExpr. apply bind_Throws, H.
    + intros s e s1 H. rewrite MainLoop_eq. apply bind_Throws, H.
Qed.

Lemma on_left_spine_step op l r t :
  on_left_spine (BinaryExprAST op l r) t -> on_left_spine l t.
Proof.
  induction 1 as [|op' l' r' _ IH].
  - apply spine_left, spine_here.
  - apply spine_left, IH.
Qed.

Lemma post_trivial {A} (c : M A) s : post c s (fun _ _ => True).
Proof. unfold post. destruct (c s); exact I. Qed.

Lemma ParseBinOpRHS_rec_spine (n : nat) : forall expr_prec LHS s,
  post (ParseBinOpRHS_rec n expr_prec LHS) s
    (fun r _ => forall t, r = Some t -> on_left_spine LHS t).
Proof.
  induction n as [|n IH]; intros expr_prec LHS s; [exact I|].
  cbn [ParseBinOpRHS_rec].
  repeat first
    [ post_step
    | match goal with
      | |- post (ParsePrimary_rec _) _ _ =>
          eapply post_conseq; [apply post_trivial|]; intros ? ? _
      end ].
  - intros t [= <-]. apply spine_here.
  - intros t Ht. eapply on_left_spine_step. eauto.
  - discriminate.
  - intros t Ht. eapply on_left_spine_step. eauto.
  - discriminate.
Qed.

(** X13. The left operand stays leftmost: the tree [ParseBinOpRHS]
    returns holds the left-hand side it was given at the bottom of its left
    spine, so that operators consumed later are above it and their operands
    to its right; the tree [ParseExpression] returns so holds its first
    primary. *)
Theorem left_operand_stays_leftmost :
  (forall expr_prec LHS s t s',
     ParseBinOpRHS expr_prec LHS s = Returns (Some t) s' -> on_left_spine LHS t)
  /\ (forall s first s1 t s',
        ParsePrimary s = Returns (Some first) s1 ->
        ParseExpression s = Returns (Some t) s' ->
        on_left_spine first t).
Proof.
  assert (H : forall expr_prec LHS s t s',
     ParseBinOpRHS expr_prec LHS s = Returns (Some t) s' -> on_left_spine LHS t).
  { intros expr_prec LHS s t s' E.
    apply (post_Returns _ _ _ _ _ (ParseBinOpRHS_rec_spine _ expr_prec LHS s) E).
    reflexivity. }
  split; [exact H|].
  intros s first s1 t s' HP HE.
  rewrite ParseExpression_eq, (bind_Returns _ _ _ _ _ HP) in HE.
  eapply H. exact HE.
Qed.

Lemma ParseIdentifierExpr_args_run s args s' :
  argument_run s args s' ->
  forall acc,
    ParseIdentifierExpr_args acc s = Returns (Some (acc ++ args)%list) s'.
Proof.
  induction 1 as [s arg s1 HE Hc|s arg s1 t s2 args s' HE Hc Ht Hrun IH];
    intros acc; rewrite ParseIdentifierExpr_args_eq, (bind_Returns _ _ _ _ _ HE);
    cbv zeta; rewrite bind_get, Hc.
  - reflexivity.
  - change (44 =? 41) with false. change (negb (44 =? 44)) with false. cbv iota.
    rewrite (bind_Returns _ _ _ _ _ Ht), IH, <- app_assoc. reflexivity.
Qed.

(** X14. Identifier expressions.  An identifier that is not followed by
    ['('] is a variable reference, and only the identifier is consumed; an
    identifier followed by ['('] and [')'] is a call without arguments; and
    an identifier followed by ['('], expressions separated by [','] and
    [')'] is the call of that name with those expressions as arguments, in
    the order of the input. *)
Theorem identifier_expressions :
  (forall s t s1,
     cur_token s = token_identifier ->
     GetNextToken s = Returns t s1 -> t <> 40 ->
     ParsePrimary s = Returns (Some (VariableExprAST (IDENTIFIER_STR s))) s1)
  /\ (forall s s1 s2 t s3,
        cur_token s = token_identifier ->
        GetNextToken s = Returns 40 s1 ->
        GetNextToken s1 = Returns 41 s2 ->
        GetNextToken s2 = Returns t s3 ->
        ParsePrimary s = Returns (Some (CallExprAST (IDENTIFIER_STR s) [])) s3)
  /\ (forall s s1 t s2 args s3 t' s4,
        cur_token s = token_identifier ->
        GetNextToken s = Returns 40 s1 ->
        GetNextToken s1 = Returns t s2 -> t <> 41 ->
        argument_run s2 args s3 ->
        GetNextToken s3 = Returns t' s4 ->
        ParsePrimary s = Returns (Some (CallExprAST (IDENTIFIER_STR s) args)) s4).
Proof.
  assert (Hid : forall s, cur_token s = token_identifier ->
                  ParsePrimary s = ParseIdentifierExpr s
                  /\ cur_token s <> token_eof).
  { intros s Hc. split; [apply ParsePrimary_dispatch; exact Hc|].
    rewrite Hc. discriminate. }
  repeat match goal with |- _ /\ _ => split end.
  - intros s t s1 Hc Ht Hne. destruct (Hid s Hc) as [-> Hneof].
    rewrite (ParseIdentifierExpr_eq _ Hneof), bind_get, (bind_Returns _ _ _ _ _ Ht),
      bind_get, (GetNextToken_cur_token _ _ _ Ht).
    destruct (Z.eqb_spec t 40) as [|_]; [contradiction|]. reflexivity.
  - intros s s1 s2 t s3 Hc H1 H2 H3. destruct (Hid s Hc) as [-> Hneof].
    rewrite (ParseIdentifierExpr_eq _ Hneof), bind_get, (bind_Returns _ _ _ _ _ H1),
      bind_get, (GetNextToken_cur_token _ _ _ H1).
    change (negb (40 =? 40)) with false. cbv iota.
    rewrite (bind_Returns _ _ _ _ _ H2), bind_get, (GetNextToken_cur_token _ _ _ H2).
    change (negb (41 =? 41)) with false. cbv iota.
    unfold ret at 1. unfold bind at 1.
    rewrite (bind_Returns _ _ _ _ _ H3). reflexivity.
  - intros s s1 t s2 args s3 t' s4 Hc H1 H2 Hne Hrun H3.
    destruct (Hid s Hc) as [-> Hneof].
    rewrite (ParseIdentifierExpr_eq _ Hneof), bind_get, (bind_Returns _ _ _ _ _ H1),
      bind_get, (GetNextToken_cur_token _ _ _ H1).
    change (negb (40 =? 40)) with false. cbv iota.
    rewrite (bind_Returns _ _ _ _ _ H2), bind_get, (GetNextToken_cur_token _ _ _ H2).
    destruct (Z.eqb_spec t 41) as [|_]; [contradiction|]. simpl negb. cbv iota.
    rewrite (bind_Returns _ _ _ _ _ (ParseIdentifierExpr_args_run _ _ _ Hrun [])).
    rewrite (bind_Returns _ _ _ _ _ H3). reflexivity.
Qed.

(** X15. Parentheses group and leave no trace: for ['('], an expression
    that parses and [')'], [ParsePrimary] returns the tree of the inner
    expression itself and has consumed both parentheses; when the token
    after the inner expression is not [')'], it logs "expected ')'",
    consumes nothing more and fails. *)
Theorem parenthesised_expression :
  (forall s t s1 V s2 t' s3,
     cur_token s = 40 ->
     GetNextToken s = Returns t s1 ->
     ParseExpression s1 = Returns (Some V) s2 ->
     cur_token s2 = 41 ->
     GetNextToken s2 = Returns t' s3 ->
     ParsePrimary s = Returns (Some V) s3)
  /\ (forall s t s1 V s2,
        cur_token s = 40 ->
        GetNextToken s = Returns t s1 ->
        ParseExpression s1 = Returns (Some V) s2 ->
        cur_token s2 <> 41 ->
        ParsePrimary s
        = Returns None (fprintf_stderr ("Error: expected ')'" ++ newline) s2)).
Proof.
  assert (Hp : forall s, cur_token s = 40 ->
                 ParsePrimary s = ParseParenExpr s /\ cur_token s <> token_eof).
  { intros s Hc. split; [apply ParsePrimary_dispatch; exact Hc|].
    rewrite Hc. discriminate. }
  split.
  - intros s t s1 V s2 t' s3 Hc H1 HE Hclose H2. destruct (Hp s Hc) as [-> Hneof].
    rewrite (ParseParenExpr_eq _ Hneof), (bind_Returns _ _ _ _ _ H1),
      (bind_Returns _ _ _ _ _ HE), bind_get, Hclose.
    change (negb (41 =? 41)) with false. cbv iota.
    rewrite (bind_Returns _ _ _ _ _ H2). reflexivity.
  - intros s t s1 V s2 Hc H1 HE Hclose. destruct (Hp s Hc) as [-> Hneof].
    rewrite (ParseParenExpr_eq _ Hneof), (bind_Returns _ _ _ _ _ H1),
      (bind_Returns _ _ _ _ _ HE), bind_get.
    destruct (Z.eqb_spec (cur_token s2) 41) as [|_]; [contradiction|]. reflexivity.
Qed.

Lemma ParsePrototype_run s t s1 names s2 t' s3 :
  cur_token s = token_identifier ->
  GetNextToken s = Returns t s1 -> t = 40 ->
  identifier_run s1 names s2 ->
  cur_token s2 = 41 ->
  GetNextToken s2 = Returns t' s3 ->
  ParsePrototype s = Returns (Some (mk_PrototypeAST (IDENTIFIER_STR s) names)) s3.
Proof.
  intros Hc Hopen -> Hrun Hclose Heat.
  rewrite ParsePrototype_eq, bind_get, Hc.
  change (negb (token_identifier =? token_identifier)) with false. cbv iota.
  rewrite bind_get, (bind_Returns _ _ _ _ _ Hopen), bind_get.
  rewrite (GetNextToken_cur_token _ _ _ Hopen).
  change (negb (40 =? 40)) with false. cbv iota.
  rewrite (bind_Returns _ _ _ _ _ (ParsePrototype_args_run _ _ _ Hrun [])).
  rewrite bind_get, Hclose.
  change (negb (41 =? 41)) with false. cbv iota.
  rewrite (bind_Returns _ _ _ _ _ Heat). reflexivity.
Qed.

(** X16. The three ways a prototype is refused.  When the current token
    is no identifier, [ParsePrototype] logs "Expected function name in
    prototype" and consumes nothing; when the token after the name is not
    ['('], it logs "Expected '(' in prototype" having consumed the name
    only; and when the token that ends the run of parameter names is not
    [')'] (a [','] between two parameters, say), it logs "Expected ')' in
    prototype" with that token still current.  Each time the result is
    null. *)
Theorem prototype_refusals :
  (forall s,
     cur_token s <> token_identifier ->
     ParsePrototype s
     = Returns None
         (fprintf_stderr ("Error: Expected function name in prototype" ++ newline) s))
  /\ (forall s t s1,
        cur_token s = token_identifier ->
        GetNextToken s = Returns t s1 -> t <> 40 ->
        ParsePrototype s
        = Returns None
            (fprintf_stderr ("Error: Expected '(' in prototype" ++ newline) s1))
  /\ (forall s s1 names s2,
        cur_token s = token_identifier ->
        GetNextToken s = Returns 40 s1 ->
        identifier_run s1 names s2 ->
        cur_token s2 <> 41 ->
        ParsePrototype s
        = Returns None
            (fprintf_stderr ("Error: Expected ')' in prototype" ++ newline) s2)).
Proof.
  repeat match goal with |- _ /\ _ => split end.
  - intros s Hc. rewrite ParsePrototype_eq, bind_get.
    destruct (Z.eqb_spec (cur_token s) token_identifier) as [|_]; [contradiction|].
    reflexivity.
  - intros s t s1 Hc Ht Hne. rewrite ParsePrototype_eq, bind_get, Hc.
    change (negb (token_identifier =? token_identifier)) with false. cbv iota.
    rewrite bind_get, (bind_Returns _ _ _ _ _ Ht), bind_get,
      (GetNextToken_cur_token _ _ _ Ht).
    destruct (Z.eqb_spec t 40) as [|_]; [contradiction|]. reflexivity.
  - intros s s1 names s2 Hc Hopen Hrun Hclose.
    rewrite ParsePrototype_eq, bind_get, Hc.
    change (negb (token_identifier =? token_identifier)) with false. cbv iota.
    rewrite bind_get, (bind_Returns _ _ _ _ _ Hopen), bind_get,
      (GetNextToken_cur_token _ _ _ Hopen).
    change (negb (40 =? 40)) with false. cbv iota.
    rewrite (bind_Returns _ _ _ _ _ (ParsePrototype_args_run _ _ _ Hrun [])), bind_get.
    destruct (Z.eqb_spec (cur_token s2) 41) as [|_]; [contradiction|]. reflexivity.
Qed.

(** X17. An extern declaration.  For [extern], an identifier, ['('], any
    run of identifier tokens and [')'], [ParseExtern] returns the prototype
    with that name and the names of the run in input order, and has
    consumed the [')'].  In [MainLoop], a pass that starts on [extern]
    prints the prompt, and then "Parsed an extern" when [ParseExtern]
    succeeds. *)
Theorem extern_declaration :
  (forall s0 s1 s2 names s3 t s4,
     GetNextToken s0 = Returns token_identifier s1 ->
     GetNextToken s1 = Returns 40 s2 ->
     identifier_run s2 names s3 ->
     cur_token s3 = 41 ->
     GetNextToken s3 = Returns t s4 ->
     ParseExtern s0
     = Returns (Some (mk_PrototypeAST (IDENTIFIER_STR s1) names)) s4)
  /\ (forall s P s',
        cur_token s = token_extern ->
        ParseExtern (fprintf_stderr "ready> " s) = Returns (Some P) s' ->
        MainLoop_body s
        = Returns true (fprintf_stderr ("Parsed an extern" ++ newline) s')).
Proof.
  split.
  - intros s0 s1 s2 names s3 t s4 Hext Hopen Hrun Hclose Heat.
    rewrite ParseExtern_eq, (bind_Returns _ _ _ _ _ Hext).
    exact (ParsePrototype_run _ _ _ _ _ _ _
             (GetNextToken_cur_token _ _ _ Hext) Hopen eq_refl Hrun Hclose Heat).
  - intros s P s' Hc HP. unfold MainLoop_body.
    unfold fprintf at 1. unfold bind at 1. rewrite bind_get.
    change (cur_token (fprintf_stderr "ready> " s)) with (cur_token s).
    rewrite Hc. change (token_extern =? token_eof) with false.
    change (token_extern =? 59) with false.
    change (token_extern =? token_def) with false.
    change (token_extern =? token_extern) with true. cbv iota.
    unfold HandleExtern. unfold bind at 1 2. rewrite HP. reflexivity.
Qed.

(** X18. The skeleton of [MainLoop].  At end of input it prints one
    prompt and returns; on a [';'] it prints the prompt, skips the [';']
    and goes on as from the state after it; and a pass that starts on any
    other token than end of input, [';'], [def] and [extern] parses a
    top-level expression, which is wrapped in a function with the empty
    name and no parameters, and prints "Parsed a top-level expression". *)
Theorem MainLoop_skeleton :
  (forall s,
     cur_token s = token_eof ->
     MainLoop s = Returns tt (fprintf_stderr "ready> " s))
  /\ (forall s t s',
        cur_token s = 59 ->
        GetNextToken (fprintf_stderr "ready> " s) = Returns t s' ->
        MainLoop s = MainLoop s')
  /\ (forall s E s',
        cur_token s <> token_eof -> cur_token s <> 59 ->
        cur_token s <> token_def -> cur_token s <> token_extern ->
        ParseExpression (fprintf_stderr "ready> " s) = Returns (Some E) s' ->
        ParseTopLevelExpr (fprintf_stderr "ready> " s)
        = Returns (Some (mk_FunctionAST (mk_PrototypeAST "" []) E)) s'
        /\ MainLoop_body s
           = Returns true
               (fprintf_stderr ("Parsed a top-level expression" ++ newline) s')).
Proof.
  repeat match goal with |- _ /\ _ => split end.
  - intros s Hc. rewrite MainLoop_eq. unfold MainLoop_body.
    unfold fprintf at 1. unfold bind at 1 2. rewrite bind_get.
    change (cur_token (fprintf_stderr "ready> " s)) with (cur_token s).
    rewrite Hc. reflexivity.
  - intros s t s' Hc Ht. rewrite MainLoop_eq. unfold MainLoop_body.
    unfold fprintf at 1. unfold bind at 1 2. rewrite bind_get.
    change (cur_token (fprintf_stderr "ready> " s)) with (cur_token s).
    rewrite Hc. change (59 =? token_eof) with false.
    change (59 =? 59) with true. cbv iota.
    unfold bind at 1. rewrite Ht. reflexivity.
  - intros s E s' Heof Hsemi Hdef Hext HT. split.
    { rewrite ParseTopLevelExpr_eq, (bind_Returns _ _ _ _ _ HT). reflexivity. }
    unfold MainLoop_body.
    unfold fprintf at 1. unfold bind at 1. rewrite bind_get.
    change (cur_token (fprintf_stderr "ready> " s)) with (cur_token s).
    destruct (Z.eqb_spec (cur_token s) token_eof) as [|_]; [contradiction|].
    destruct (Z.eqb_spec (cur_token s) 59) as [|_]; [contradiction|].
    destruct (Z.eqb_spec (cur_token s) token_def) as [|_]; [contradiction|].
    destruct (Z.eqb_spec (cur_token s) token_extern) as [|_]; [contradiction|].
    unfold HandleTopLevelExpr. unfold bind at 1 2.
    rewrite ParseTopLevelExpr_eq, (bind_Returns _ _ _ _ _ HT). reflexivity.
Qed.

(** X19. The start of an expression.  On a number token [ParsePrimary]
    returns the number node carrying [NUM_VAL] and consumes the token; on
    a token that is neither an identifier, a number nor ['('],
    [ParsePrimary], and with it [ParseExpression] and [ParseTopLevelExpr],
    logs "unknown token when expecting an expression", returns null and
    consumes nothing. *)
Theorem expression_start :
  (forall s t s1,
     cur_token s = token_number ->
     GetNextToken s = Returns t s1 ->
     ParsePrimary s = Returns (Some (NumberExprAST (NUM_VAL s))) s1)
  /\ (forall s,
        cur_token s <> token_identifier -> cur_token s <> token_number ->
        cur_token s <> 40 ->
        let s' :=
          fprintf_stderr
            ("Error: unknown token when expecting an expression" ++ newline) s in
        ParsePrimary s = Returns None s'
        /\ ParseExpression s = Returns None s'
        /\ ParseTopLevelExpr s = Returns None s').
Proof.
  split.
  - intros s t s1 Hc Ht.
    rewrite (proj1 (proj2 (ParsePrimary_dispatch s)) Hc).
    unfold ParseNumberExpr. rewrite bind_get. cbv zeta.
    rewrite (bind_Returns _ _ _ _ _ Ht). reflexivity.
  - intros s Hid Hnum Hpar s'.
    assert (HP : ParsePrimary s = Returns None s').
    { rewrite ParsePrimary_eq, bind_get.
      destruct (Z.eqb_spec (cur_token s) token_identifier) as [|_]; [contradiction|].
      destruct (Z.eqb_spec (cur_token s) token_number) as [|_]; [contradiction|].
      destruct (Z.eqb_spec (cur_token s) 40) as [|_]; [contradiction|].
      reflexivity. }
    assert (HE : ParseExpression s = Returns None s').
    { rewrite ParseExpression_eq, (bind_Returns _ _ _ _ _ HP). reflexivity. }
    repeat match goal with |- _ /\ _ => split end; [exact HP|exact HE|].
    rewrite ParseTopLevelExpr_eq, (bind_Returns _ _ _ _ _ HE). reflexivity.
Qed.

Lemma wp_ParseDefinition_post s : wp ParseDefinition s (parse_post s).
Proof.
  eapply wp_eq; [apply ParseDefinition_eq|].
  repeat first
    [ wp_api
    | match goal with
      | |- wp ParsePrototype _ _ =>
          eapply wp_conseq; [apply wp_ParsePrototype|]; intros ? ? ?
      end ]; measure_solve.
Qed.

Lemma wp_ParseExtern_post s : wp ParseExtern s (parse_post s).
Proof.
  eapply wp_eq; [apply ParseExtern_eq|].
  repeat first
    [ wp_api
    | match goal with
      | |- wp ParsePrototype _ _ =>
          eapply wp_conseq; [apply wp_ParsePrototype|]; intros ? ? ?
      end ]; measure_solve.
Qed.

(** X20. Parsing ends, and a parse that succeeds has consumed input.
    None of the parse functions runs without end, whatever the state they
    start in.  When [ParsePrimary], [ParseExpression], [ParsePrototype],
    [ParseDefinition], [ParseExtern] or [ParseTopLevelExpr] returns a tree,
    what is left of the input (the characters not yet read, the pending
    character and the current token) is strictly less than before.
    [ParseBinOpRHS], which returns its left-hand side untouched when no
    operator follows, never leaves more than it found. *)
Theorem parsing_ends_and_consumes :
  (forall s,
     ParsePrimary s <> OutOfFuel /\ ParseExpression s <> OutOfFuel
     /\ (forall expr_prec LHS, ParseBinOpRHS expr_prec LHS s <> OutOfFuel)
     /\ ParsePrototype s <> OutOfFuel /\ ParseDefinition s <> OutOfFuel
     /\ ParseExtern s <> OutOfFuel /\ ParseTopLevelExpr s <> OutOfFuel)
  /\ (forall s,
        (forall r s', ParsePrimary s = Returns (Some r) s' ->
                      (measure s' < measure s)%nat)
        /\ (forall r s', ParseExpression s = Returns (Some r) s' ->
                         (measure s' < measure s)%nat)
        /\ (forall r s', ParsePrototype s = Returns (Some r) s' ->
                         (measure s' < measure s)%nat)
        /\ (forall r s', ParseDefinition s = Returns (Some r) s' ->
                         (measure s' < measure s)%nat)
        /\ (forall r s', ParseExtern s = Returns (Some r) s' ->
                         (measure s' < measure s)%nat)
        /\ (forall r s', ParseTopLevelExpr s = Returns (Some r) s' ->
                         (measure s' < measure s)%nat)
        /\ (forall expr_prec LHS r s',
              ParseBinOpRHS expr_prec LHS s = Returns r s' ->
              (measure s' <= measure s)%nat)).
Proof.
  assert (Hfuel : forall A (c : M A) s Q, wp c s Q -> c s <> OutOfFuel).
  { intros A c s Q H E. unfold wp in H. rewrite E in H. exact H. }
  split; intros s.
  - repeat match goal with |- _ /\ _ => split end; try intros expr_prec LHS.
    + exact (Hfuel _ _ _ _ (wp_ParsePrimary s)).
    + exact (Hfuel _ _ _ _ (wp_ParseExpression s)).
    + exact (Hfuel _ _ _ _ (wp_ParseBinOpRHS expr_prec LHS s)).
    + exact (Hfuel _ _ _ _ (wp_ParsePrototype s)).
    + exact (Hfuel _ _ _ _ (wp_ParseDefinition s)).
    + exact (Hfuel _ _ _ _ (wp_ParseExtern s)).
    + exact (Hfuel _ _ _ _ (wp_ParseTopLevelExpr s)).
  - repeat match goal with |- _ /\ _ => split end;
      [intros r s' H .. | intros expr_prec LHS r s' H].
    + apply (wp_Returns _ _ _ _ _ (wp_ParsePrimary s)) in H as [_ H].
      apply H. discriminate.
    + apply (wp_Returns _ _ _ _ _ (wp_ParseExpression s)) in H as [_ H].
      apply H. discriminate.
    + apply (wp_Returns _ _ _ _ _ (wp_ParsePrototype s)) in H as [_ H].
      apply H. discriminate.
    + apply (wp_Returns _ _ _ _ _ (wp_ParseDefinition_post s)) in H as [_ H].
      apply H. discriminate.
    + apply (wp_Returns _ _ _ _ _ (wp_ParseExtern_post s)) in H as [_ H].
      apply H. discriminate.
    + apply (wp_Returns _ _ _ _ _ (wp_ParseTopLevelExpr s)) in H as [_ H].
      apply H. discriminate.
    + apply (wp_Returns _ _ _ _ _ (wp_ParseBinOpRHS expr_prec LHS s)) in H.
      apply H.
Qed.

End Frontend.

(** ** The theorems at concrete inputs

    The implementation-defined choice is fixed to "underflow is reported";
    none of the inputs below underflows. *)


Lemma equal_precedence_nests_left_witness :
  ParseBinOpRHS (fun _ _ => true) 0 (NumberExprAST (double_of_Z 1))
    (mk_state "-3" [] 50 "" (double_of_Z 1) 45 reference_table)
  = Returns
      (Some (BinaryExprAST "-"%char
               (BinaryExprAST "-"%char (NumberExprAST (double_of_Z 1))
                  (NumberExprAST (double_of_Z 2)))
               (NumberExprAST (double_of_Z 3))))
      (mk_state "" [] EOF "" (double_of_Z 3) token_eof reference_table).
Proof.
  apply (proj2 (equal_precedence_nests_left (fun _ _ => true)) 20 0
           (NumberExprAST (double_of_Z 1))
           (mk_state "-3" [] 50 "" (double_of_Z 1) 45 reference_table)
           [("-"%char, NumberExprAST (double_of_Z 2));
            ("-"%char, NumberExprAST (double_of_Z 3))]
           (mk_state "" [] EOF "" (double_of_Z 3) token_eof reference_table)
           (-1)
           (mk_state "" [] EOF "" (double_of_Z 3) token_eof reference_table)).
  - apply (chain_more (fun _ _ => true) 20
             (mk_state "-3" [] 50 "" (double_of_Z 1) 45 reference_table)
             (mk_state "-3" [] 50 "" (double_of_Z 1) 45 reference_table)
             token_number
             (mk_state "3" [] 45 "" (double_of_Z 2) token_number reference_table)
             (NumberExprAST (double_of_Z 2))
             (mk_state "" [] 51 "" (double_of_Z 2) 45 reference_table)
             20
             (mk_state "" [] 51 "" (double_of_Z 2) 45 reference_table)
             [("-"%char, NumberExprAST (double_of_Z 3))]
             (mk_state "" [] EOF "" (double_of_Z 3) token_eof reference_table));
      [vm_compute; reflexivity | vm_compute; reflexivity | vm_compute; reflexivity
      | vm_compute; reflexivity | lia | ].
    apply (chain_more (fun _ _ => true) 20
             (mk_state "" [] 51 "" (double_of_Z 2) 45 reference_table)
             (mk_state "" [] 51 "" (double_of_Z 2) 45 reference_table)
             token_number
             (mk_state "" [] EOF "" (double_of_Z 3) token_number reference_table)
             (NumberExprAST (double_of_Z 3))
             (mk_state "" [] EOF "" (double_of_Z 3) token_eof reference_table)
             (-1)
             (mk_state "" [] EOF "" (double_of_Z 3) token_eof reference_table)
             []
             (mk_state "" [] EOF "" (double_of_Z 3) token_eof reference_table));
      [vm_compute; reflexivity | vm_compute; reflexivity | vm_compute; reflexivity
      | vm_compute; reflexivity | lia | apply chain_end].
  - lia.
  - vm_compute. reflexivity.
  - lia.
Defined.

(** A misplaced point is no error: on "1.2.3" no exception leaves
    [GetToken], which returns the number token carrying 1.2. *)
Lemma misplaced_point_is_not_an_error :
  GetToken (fun _ _ => true) (initial_state "1.2.3")
  = Returns token_number (mk_state "" [] EOF "" (double_of_decimal 12 1) 0 ∅)
  /\ ~ (exists e s', GetToken (fun _ _ => true) (initial_state "1.2.3") = Throws e s').
Proof.
  split; [vm_compute; reflexivity|].
  intros (e & s' & H). vm_compute in H. discriminate H.
Qed.

Lemma stod_truncates_at_second_point_witness :
  GetToken (fun _ _ => true) (mk_state ".2.3" [] 49 "" (S754_zero false) 0 ∅)
  = Returns token_number (mk_state "" [] EOF "" (double_of_decimal 12 1) 0 ∅).
Proof.
  apply (proj1 (proj2 (proj2 (proj2 (proj2
           (stod_truncates_at_second_point (fun _ _ => true))))))
           (mk_state ".2.3" [] 49 "" (S754_zero false) 0 ∅)
           "1"%char ".2.3" "" "1" "2" "3");
    reflexivity.
Defined.





Lemma failure_is_logged_once_and_propagated_witness :
  one_diagnostic
    (mk_state " 1" [] 40 "" (S754_zero false) token_def reference_table)
    (@None FunctionAST)
    (mk_state "1" ["Error: Expected function name in prototype" ++ newline] 32 ""
       (S754_zero false) 40 reference_table).
Proof.
  apply (proj1 (proj2 (proj2 (proj2 (proj2 (proj2 (proj2
           (proj1 (failure_is_logged_once_and_propagated (fun _ _ => true))))))))));
    vm_compute; reflexivity.
Defined.

(** A parse that fails without a diagnostic and without a failure signal:
    on "1+. 2" and on "(." the text ["."] makes [std::stod] throw while the
    operand is fetched; the exception leaves [ParseExpression] and
    [ParsePrimary] with nothing on [stderr], and neither of them returns. *)
Lemma lexer_exception_leaves_no_diagnostic :
  parse_text (fun _ _ => true) (ParseExpression (fun _ _ => true)) "1+. 2"
  = Throws invalid_argument
      (mk_state "2" [] 32 "" (double_of_Z 1) 43 reference_table)
  /\ parse_text (fun _ _ => true) (ParsePrimary (fun _ _ => true)) "(."
     = Throws invalid_argument
         (mk_state "" [] EOF "" (S754_zero false) 40 reference_table)
  /\ ~ (exists r s',
          parse_text (fun _ _ => true) (ParseExpression (fun _ _ => true)) "1+. 2"
          = Returns r s').
Proof.
  split; [vm_compute; reflexivity|].
  split; [vm_compute; reflexivity|].
  intros (r & s' & H). vm_compute in H. discriminate H.
Qed.


Lemma comments_are_transparent_witness :
  GetToken (fun _ _ => true)
    (mk_state (" comment" ++ newline ++ "2") [] 35 "" (double_of_Z 1) 0 ∅)
  = GetToken (fun _ _ => true)
      (set_lexer "2" 32
         (mk_state (" comment" ++ newline ++ "2") [] 35 "" (double_of_Z 1) 0 ∅)).
Proof.
  apply (proj1 (proj2 (proj2 (proj2 (comments_are_transparent (fun _ _ => true)))))
           _ " comment" (ascii_of_nat 10) "2").
  - reflexivity.
  - reflexivity.
  - reflexivity.
  - left. reflexivity.
Defined.

Lemma definition_keeps_parameter_names_witness :
  ParseDefinition (fun _ _ => true)
    (mk_state "f(x y) x+y" [] 32 "def" (S754_zero false) token_def reference_table)
  = Returns
      (Some (mk_FunctionAST (mk_PrototypeAST "f" ["x"; "y"])
               (BinaryExprAST "+"%char (VariableExprAST "x") (VariableExprAST "y"))))
      (mk_state "" [] EOF "y" (S754_zero false) token_eof reference_table).
Proof.
  apply (proj2 (proj2 (definition_keeps_parameter_names (fun _ _ => true)))
           (mk_state "f(x y) x+y" [] 32 "def" (S754_zero false) token_def reference_table)
           (mk_state "x y) x+y" [] 40 "f" (S754_zero false) token_identifier reference_table)
           (mk_state " y) x+y" [] 120 "f" (S754_zero false) 40 reference_table)
           ["x"; "y"]
           (mk_state "x+y" [] 32 "y" (S754_zero false) 41 reference_table)
           token_identifier
           (mk_state "y" [] 43 "x" (S754_zero false) token_identifier reference_table)).
  - vm_compute. reflexivity.
  - vm_compute. reflexivity.
  - apply (run_more (fun _ _ => true)
             (mk_state " y) x+y" [] 120 "f" (S754_zero false) 40 reference_table)
             (mk_state "y) x+y" [] 32 "x" (S754_zero false) token_identifier reference_table)
             ["y"]);
      [vm_compute; reflexivity|].
    apply (run_more (fun _ _ => true)
             (mk_state "y) x+y" [] 32 "x" (S754_zero false) token_identifier reference_table)
             (mk_state " x+y" [] 41 "y" (S754_zero false) token_identifier reference_table)
             []);
      [vm_compute; reflexivity|].
    apply (run_stop (fun _ _ => true) _ 41); [vm_compute; reflexivity|discriminate].
  - reflexivity.
  - vm_compute. reflexivity.
  - vm_compute. reflexivity.
Defined.

Lemma non_operator_ends_binoprhs_witness :
  ParseBinOpRHS (fun _ _ => true) 0 (NumberExprAST (double_of_Z 1))
    (mk_state "" [] EOF "" (double_of_Z 1) token_eof reference_table)
  = Returns (Some (NumberExprAST (double_of_Z 1)))
      (mk_state "" [] EOF "" (double_of_Z 1) token_eof reference_table).
Proof.
  apply (proj2 (proj2 (proj2 (non_operator_ends_binoprhs (fun _ _ => true))))).
  - lia.
  - reflexivity.
Defined.

(** ** The further properties at concrete inputs *)

Lemma GetToken_reads_forward_witness :
  is_suffix "cd" "ab cd"
  /\ same_parser_state (initial_state "ab cd")
       (mk_state "cd" [] 32 "ab" (S754_zero false) 0 ∅).
Proof.
  apply (proj1 (proj2 (GetToken_reads_forward (fun _ _ => true)
                         (initial_state "ab cd")))
           token_identifier (mk_state "cd" [] 32 "ab" (S754_zero false) 0 ∅)).
  vm_compute. reflexivity.
Defined.

Lemma GetToken_eof_is_final_witness :
  last_char (mk_state "" [] EOF "" (S754_zero false) 0 ∅) = EOF
  /\ GetToken (fun _ _ => true) (mk_state "" [] EOF "" (S754_zero false) 0 ∅)
     = Returns token_eof (mk_state "" [] EOF "" (S754_zero false) 0 ∅).
Proof.
  apply (GetToken_eof_is_final (fun _ _ => true) (initial_state "  ")).
  vm_compute. reflexivity.
Defined.

Lemma GetToken_token_classes_witness :
  (0 <= 43 -> isspace 43 = false /\ isalnum 43 = false /\ 43 <> 46 /\ 43 <> 35)
  /\ (-1 <= 32 < 256 ->
      -1 <= 49 < 256
      /\ (43 = token_eof \/ 43 = token_def \/ 43 = token_extern
          \/ 43 = token_identifier \/ 43 = token_number \/ 0 <= 43 < 256)).
Proof.
  apply (GetToken_token_classes (fun _ _ => true) (initial_state "+1") 43
           (mk_state "" [] 49 "" (S754_zero false) 0 ∅)).
  vm_compute. reflexivity.
Defined.

Lemma GetToken_identifier_witness :
  GetToken (fun _ _ => true) (mk_state "ef g" [] 100 "" (S754_zero false) 0 ∅)
  = Returns token_def (mk_state "g" [] 32 "def" (S754_zero false) 0 ∅).
Proof.
  apply (GetToken_identifier (fun _ _ => true)
           (mk_state "ef g" [] 100 "" (S754_zero false) 0 ∅) "d"%char "ef" " g");
    reflexivity.
Defined.

Lemma GetToken_number_witness :
  GetToken (fun _ _ => true) (mk_state ".5+" [] 49 "" (S754_zero false) 0 ∅)
  = Returns token_number (mk_state "" [] 43 "" (double_of_decimal 15 1) 0 ∅).
Proof.
  apply (GetToken_number (fun _ _ => true)
           (mk_state ".5+" [] 49 "" (S754_zero false) 0 ∅) "1"%char ".5" "+");
    reflexivity.
Defined.

Lemma GetToken_blank_input_witness :
  GetToken (fun _ _ => true) (mk_state "  " [] 32 "" (S754_zero false) 0 ∅)
  = Returns token_eof (mk_state "" [] EOF "" (S754_zero false) 0 ∅).
Proof.
  apply (GetToken_blank_input (fun _ _ => true)
           (mk_state "  " [] 32 "" (S754_zero false) 0 ∅));
    reflexivity.
Defined.

Lemma GetToken_character_witness :
  GetToken (fun _ _ => true) (mk_state "1" [] 43 "" (S754_zero false) 0 ∅)
  = Returns 43 (mk_state "" [] 49 "" (S754_zero false) 0 ∅).
Proof.
  apply (GetToken_character (fun _ _ => true)
           (mk_state "1" [] 43 "" (S754_zero false) 0 ∅));
    [reflexivity | reflexivity | reflexivity
     | discriminate | discriminate | discriminate].
Defined.

Lemma points_without_digit_throw_witness :
  stod (fun _ _ => true) ".." = inl invalid_argument
  /\ GetToken (fun _ _ => true) (mk_state ". x" [] 46 "" (S754_zero false) 0 ∅)
     = Throws invalid_argument (mk_state "x" [] 32 "" (S754_zero false) 0 ∅)
  /\ GetNextToken (fun _ _ => true)
       (mk_state ". x" [] 46 "" (S754_zero false) 0 ∅)
     = Throws invalid_argument (mk_state "x" [] 32 "" (S754_zero false) 0 ∅).
Proof.
  apply (points_without_digit_throw (fun _ _ => true)
           (mk_state ". x" [] 46 "" (S754_zero false) 0 ∅) "." " x");
    reflexivity.
Defined.

Lemma GetTokenPrecedence_lookup_witness :
  20 = (if isascii 43 then precedence_of reference_table 43 else -1)
  /\ (20 = -1 \/ 0 < 20)
  /\ (forall c, precedence_of reference_table c = precedence_of reference_table c)
  /\ GetTokenPrecedence
       (mk_state "" [] EOF "" (S754_zero false) 43 reference_table)
     = Returns 20 (mk_state "" [] EOF "" (S754_zero false) 43 reference_table).
Proof.
  apply (GetTokenPrecedence_lookup
           (mk_state "" [] EOF "" (S754_zero false) 43 reference_table) 20
           (mk_state "" [] EOF "" (S754_zero false) 43 reference_table)).
  vm_compute. reflexivity.
Defined.

Lemma parser_keeps_precedences_witness :
  precedence_of (<[41 := 0]> reference_table) 41
  = precedence_of reference_table 41.
Proof.
  refine (proj1 (proj2 (parser_keeps_precedences (fun _ _ => true)))
            (mk_state "" [] 41 "" (double_of_Z 1) token_number reference_table)
            (Some (NumberExprAST (double_of_Z 1)))
            (mk_state "" [] EOF "" (double_of_Z 1) 41 (<[41 := 0]> reference_table))
            _ 41).
  vm_compute. reflexivity.
Defined.

Lemma parser_reads_forward_witness :
  is_suffix "" "2;"
  /\ exists l, @nil string = ([] ++ l)%list.
Proof.
  apply (proj1 (proj2 (proj2 (parser_reads_forward (fun _ _ => true))))
           (mk_state "2;" [] 43 "" (double_of_Z 1) token_number reference_table)
           (Some (BinaryExprAST "+"%char (NumberExprAST (double_of_Z 1))
                    (NumberExprAST (double_of_Z 2))))
           (mk_state "" [] EOF "" (double_of_Z 2) 59 (<[59 := 0]> reference_table))).
  vm_compute. reflexivity.
Defined.

Lemma left_operand_stays_leftmost_witness :
  on_left_spine (NumberExprAST (double_of_Z 1))
    (BinaryExprAST "+"%char (NumberExprAST (double_of_Z 1))
       (NumberExprAST (double_of_Z 2))).
Proof.
  apply (proj1 (left_operand_stays_leftmost (fun _ _ => true)) 0
           (NumberExprAST (double_of_Z 1))
           (mk_state "" [] 50 "" (double_of_Z 1) 43 reference_table)
           _
           (mk_state "" [] EOF "" (double_of_Z 2) token_eof reference_table)).
  vm_compute. reflexivity.
Defined.

Lemma identifier_expressions_witness :
  ParsePrimary (fun _ _ => true)
    (mk_state "1,2)" [] 40 "f" (S754_zero false) token_identifier reference_table)
  = Returns
      (Some (CallExprAST "f"
               [NumberExprAST (double_of_Z 1); NumberExprAST (double_of_Z 2)]))
      (mk_state "" [] EOF "f" (double_of_Z 2) token_eof
         (<[41 := 0]> (<[44 := 0]> reference_table))).
Proof.
  apply (proj2 (proj2 (identifier_expressions (fun _ _ => true)))
           (mk_state "1,2)" [] 40 "f" (S754_zero false) token_identifier reference_table)
           (mk_state ",2)" [] 49 "f" (S754_zero false) 40 reference_table)
           token_number
           (mk_state "2)" [] 44 "f" (double_of_Z 1) token_number reference_table)
           [NumberExprAST (double_of_Z 1); NumberExprAST (double_of_Z 2)]
           (mk_state "" [] EOF "f" (double_of_Z 2) 41
              (<[41 := 0]> (<[44 := 0]> reference_table)))
           token_eof).
  - reflexivity.
  - vm_compute. reflexivity.
  - vm_compute. reflexivity.
  - discriminate.
  - apply (args_more (fun _ _ => true)
             (mk_state "2)" [] 44 "f" (double_of_Z 1) token_number reference_table)
             (NumberExprAST (double_of_Z 1))
             (mk_state ")" [] 50 "f" (double_of_Z 1) 44 (<[44 := 0]> reference_table))
             token_number
             (mk_state "" [] 41 "f" (double_of_Z 2) token_number
                (<[44 := 0]> reference_table)));
      [vm_compute; reflexivity | reflexivity | vm_compute; reflexivity | ].
    apply args_last; [vm_compute; reflexivity | reflexivity].
  - vm_compute. reflexivity.
Defined.

Lemma parenthesised_expression_witness :
  ParsePrimary (fun _ _ => true)
    (mk_state ")" [] 49 "" (S754_zero false) 40 reference_table)
  = Returns (Some (NumberExprAST (double_of_Z 1)))
      (mk_state "" [] EOF "" (double_of_Z 1) token_eof (<[41 := 0]> reference_table)).
Proof.
  apply (proj1 (parenthesised_expression (fun _ _ => true))
           (mk_state ")" [] 49 "" (S754_zero false) 40 reference_table)
           token_number
           (mk_state "" [] 41 "" (double_of_Z 1) token_number reference_table)
           (NumberExprAST (double_of_Z 1))
           (mk_state "" [] EOF "" (double_of_Z 1) 41 (<[41 := 0]> reference_table))
           token_eof).
  - reflexivity.
  - vm_compute. reflexivity.
  - vm_compute. reflexivity.
  - reflexivity.
  - vm_compute. reflexivity.
Defined.

Lemma prototype_refusals_witness :
  ParsePrototype (fun _ _ => true)
    (mk_state "x,y)" [] 40 "f" (S754_zero false) token_identifier reference_table)
  = Returns None
      (fprintf_stderr ("Error: Expected ')' in prototype" ++ newline)
         (mk_state ")" [] 121 "x" (S754_zero false) 44 reference_table)).
Proof.
  apply (proj2 (proj2 (prototype_refusals (fun _ _ => true)))
           (mk_state "x,y)" [] 40 "f" (S754_zero false) token_identifier reference_table)
           (mk_state ",y)" [] 120 "f" (S754_zero false) 40 reference_table)
           ["x"]).
  - reflexivity.
  - vm_compute. reflexivity.
  - apply (run_more (fun _ _ => true)
             (mk_state ",y)" [] 120 "f" (S754_zero false) 40 reference_table)
             (mk_state "y)" [] 44 "x" (S754_zero false) token_identifier reference_table)
             []);
      [vm_compute; reflexivity|].
    apply (run_stop (fun _ _ => true) _ 44); [vm_compute; reflexivity|discriminate].
  - discriminate.
Defined.

Lemma extern_declaration_witness :
  ParseExtern (fun _ _ => true)
    (mk_state "sin(x)" [] 32 "extern" (S754_zero false) token_extern reference_table)
  = Returns (Some (mk_PrototypeAST "sin" ["x"]))
      (mk_state "" [] EOF "x" (S754_zero false) token_eof reference_table).
Proof.
  apply (proj1 (extern_declaration (fun _ _ => true))
           (mk_state "sin(x)" [] 32 "extern" (S754_zero false) token_extern reference_table)
           (mk_state "x)" [] 40 "sin" (S754_zero false) token_identifier reference_table)
           (mk_state ")" [] 120 "sin" (S754_zero false) 40 reference_table)
           ["x"]
           (mk_state "" [] EOF "x" (S754_zero false) 41 reference_table)
           token_eof).
  - vm_compute. reflexivity.
  - vm_compute. reflexivity.
  - apply (run_more (fun _ _ => true)
             (mk_state ")" [] 120 "sin" (S754_zero false) 40 reference_table)
             (mk_state "" [] 41 "x" (S754_zero false) token_identifier reference_table)
             []);
      [vm_compute; reflexivity|].
    apply (run_stop (fun _ _ => true) _ 41); [vm_compute; reflexivity|discriminate].
  - reflexivity.
  - vm_compute. reflexivity.
Defined.

Lemma MainLoop_skeleton_witness :
  MainLoop (fun _ _ => true)
    (mk_state "1" [] 32 "" (S754_zero false) 59 reference_table)
  = MainLoop (fun _ _ => true)
      (mk_state "" ["ready> "] EOF "" (double_of_Z 1) token_number reference_table).
Proof.
  apply (proj1 (proj2 (MainLoop_skeleton (fun _ _ => true)))
           (mk_state "1" [] 32 "" (S754_zero false) 59 reference_table)
           token_number).
  - reflexivity.
  - vm_compute. reflexivity.
Defined.

Lemma expression_start_witness :
  ParsePrimary (fun _ _ => true)
    (mk_state "" [] EOF "" (S754_zero false) 41 reference_table)
  = Returns None
      (fprintf_stderr
         ("Error: unknown token when expecting an expression" ++ newline)
         (mk_state "" [] EOF "" (S754_zero false) 41 reference_table))
  /\ ParseExpression (fun _ _ => true)
       (mk_state "" [] EOF "" (S754_zero false) 41 reference_table)
     = Returns None
         (fprintf_stderr
            ("Error: unknown token when expecting an expression" ++ newline)
            (mk_state "" [] EOF "" (S754_zero false) 41 reference_table))
  /\ ParseTopLevelExpr (fun _ _ => true)
       (mk_state "" [] EOF "" (S754_zero false) 41 reference_table)
     = Returns None
         (fprintf_stderr
            ("Error: unknown token when expecting an expression" ++ newline)
            (mk_state "" [] EOF "" (S754_zero false) 41 reference_table)).
Proof.
  apply (proj2 (expression_start (fun _ _ => true))
           (mk_state "" [] EOF "" (S754_zero false) 41 reference_table));
    discriminate.
Defined.

Lemma parsing_ends_and_consumes_witness :
  (measure (mk_state "" [] EOF "" (double_of_Z 1) token_eof reference_table)
   < measure (mk_state "" [] EOF "" (double_of_Z 1) token_number reference_table))%nat.
Proof.
  apply (proj1 (proj2 (parsing_ends_and_consumes (fun _ _ => true))
                 (mk_state "" [] EOF "" (double_of_Z 1) token_number reference_table))
           (NumberExprAST (double_of_Z 1))).
  vm_compute. reflexivity.
Defined.
